(** * Transaction ordering queues of the txpool

    A shallow embedding of [txpool/queue.go] (the per-account nonce queue
    and the price-ordered queue), of the methods of [types.Transaction]
    they rely on, and of Go's [container/heap], on which both queues are
    built. *)

From Equations Require Import Equations.
From stdpp Require Import base tactics option list sorting.
From Stdlib Require Import ZArith Lia Permutation Sorted.

Local Open Scope Z_scope.

(** ** Panics and pointers

    An out-of-range slice index and a read through a nil pointer make the
    Go runtime panic.  [exec A] is the result of running code that may do
    so. *)

Inductive exec (A : Type) : Type :=
| Done (a : A)
| Panicked.
Arguments Done {A} a.
Arguments Panicked {A}.

#[global] Instance exec_ret : MRet exec := fun A a => Done a.
#[global] Instance exec_bind : MBind exec := fun A B f m =>
  match m with
  | Done a => f a
  | Panicked => Panicked
  end.

(** A pointer is [None] for nil and [Some a] for a pointer to [a];
    reading through nil panics. *)
Definition deref {A} (p : option A) : exec A :=
  match p with
  | Some a => Done a
  | None => Panicked
  end.

(** ** Numbers

    A [uint64] is a natural number of [N] (the queues compare nonces and
    never do arithmetic on them, so no wrap-around arises).  A [*big.Int]
    is a pointer, [option Z]: the fee fields of a record may be nil, and
    the code below never writes through a pointer it was given.  The
    methods of [math/big], which is not part of the repository, follow
    its source ([int.go]). *)

Module big.

(** What [Int.Cmp] returns for two integers: -1, 0 or +1. *)
Definition cmp_values (x y : Z) : Z :=
  match x ?= y with
  | Lt => -1
  | Eq => 0
  | Gt => 1
  end.

(** [x.Cmp(y)] on two pointers: [case x == y] returns 0 before a field
    is read, which is where two nil pointers end; otherwise the signs are
    read, through nil with a panic. *)
Definition Cmp (x y : option Z) : exec Z :=
  match x, y with
  | None, None => Done 0
  | Some a, Some b => Done (cmp_values a b)
  | _, _ => Panicked
  end.

(** [Int.BitLen]: the length of the absolute value in bits, 0 for 0. *)
Definition BitLen (x : Z) : Z :=
  if x =? 0 then 0 else Z.log2 (Z.abs x) + 1.

(** [new(big.Int).SetUint64]. *)
Definition SetUint64 (x : N) : Z := Z.of_N x.

End big.

Module common.

(** Modelled from the spec: [common.BigMin] of [helper/common], which is
    not among the sources; the spec reads the effective tip as
    [min(tipCap, feeCap - baseFee)], so [BigMin] returns the smaller of
    its two arguments. *)
Definition BigMin (x y : Z) : Z :=
  if big.cmp_values x y >? 0 then y else x.

End common.

(** ** Transaction records *)

(** [TxType] is a byte. *)
Definition TxType := N.

Definition LegacyTx : TxType := 0x0%N.
Definition StateTx : TxType := 0x7f%N.
Definition DynamicFeeTx : TxType := 0x02%N.

(** The fields of [types.Transaction] that the functions below read; the
    [*big.Int] and [*Address] fields are pointers.  ([Input], the
    signature values, [ChainID], the size cache and the logger
    configuration are left out: nothing below reads them.) *)
Record Transaction : Type := mkTransaction {
  Nonce : N;
  GasPrice : option Z;
  GasTipCap : option Z;
  GasFeeCap : option Z;
  Gas : N;
  To : option N;
  Value : option Z;
  Hash : N;
  From_ : N;
  Type_ : TxType;
}.

#[global] Instance Transaction_eq_dec : EqDecision Transaction.
Proof. solve_decision. Defined.

(** [GetGasTipCap] and [GetGasFeeCap] return the pointer of the record,
    nil or not. *)
Definition GetGasTipCap (t : Transaction) : option Z :=
  if N.eqb (Type_ t) DynamicFeeTx then GasTipCap t else GasPrice t.

Definition GetGasFeeCap (t : Transaction) : option Z :=
  if N.eqb (Type_ t) DynamicFeeTx then GasFeeCap t else GasPrice t.

(** The base fee is a [*big.Int]; [new(big.Int).Set] and
    [new(big.Int).Sub] read their arguments, and panic on nil. *)
Definition EffectiveGasTip (t : Transaction) (baseFee : option Z)
  : exec (option Z) :=
  match baseFee with
  | None => Done (GetGasTipCap t)
  | Some f =>
      if big.BitLen f =? 0 then Done (GetGasTipCap t)
      else
        tip ← deref (GetGasTipCap t);
        fee ← deref (GetGasFeeCap t);
        Done (Some (common.BigMin tip (fee - f)))
  end.

Module types.

(** [p != nil && p.BitLen() > 0] *)
Definition is_set (p : option Z) : bool :=
  match p with
  | Some v => big.BitLen v >? 0
  | None => false
  end.

(** [z := new(big.Int); if p != nil { z.Set(p) }] *)
Definition set_or_zero (p : option Z) : Z := default 0 p.

(** [Copy], on the fields of the model: the four [*big.Int] are copied
    into fresh integers, zero where the field is nil; the rest is copied
    as it is. *)
Definition Copy (t : Transaction) : Transaction :=
  {| Nonce := Nonce t;
     GasPrice := Some (set_or_zero (GasPrice t));
     GasTipCap := Some (set_or_zero (GasTipCap t));
     GasFeeCap := Some (set_or_zero (GasFeeCap t));
     Gas := Gas t;
     To := To t;
     Value := Some (set_or_zero (Value t));
     Hash := Hash t;
     From_ := From_ t;
     Type_ := Type_ t |}.

(** [Cost] returns gas * gasPrice + value; [new(big.Int).Set] and [Add]
    panic on a nil argument. *)
Definition Cost (t : Transaction) : exec Z :=
  factor ← (if is_set (GasFeeCap t) then deref (GasFeeCap t)
            else deref (GasPrice t));
  let total := factor * big.SetUint64 (Gas t) in
  value ← deref (Value t);
  Done (total + value).

(** [GetGasPrice] returns the gas price if not empty, or calculates one
    from the fee cap, the tip cap and the base fee. *)
Definition GetGasPrice (t : Transaction) (baseFee : N) : Z :=
  if is_set (GasPrice t) then set_or_zero (GasPrice t)
  else if (baseFee =? 0)%N then 0
  else
    let gasFeeCap := set_or_zero (GasFeeCap t) in
    let gasTipCap := set_or_zero (GasTipCap t) in
    if (big.BitLen gasFeeCap >? 0) || (big.BitLen gasTipCap >? 0)
    then common.BigMin (gasTipCap + big.SetUint64 baseFee) gasFeeCap
    else 0.

(** [IsUnderpriced]: [t.GasPrice.Cmp(..) < 0]; the limit is a fresh
    integer, so [Cmp] panics exactly when the gas price is nil. *)
Definition IsUnderpriced (t : Transaction) (priceLimit : N) : exec bool :=
  c ← big.Cmp (GasPrice t) (Some (big.SetUint64 priceLimit));
  Done (c <? 0).

End types.

(** [FindTxByHash] returns the transaction and its index from a slice of
    transactions; [idx] counts the elements passed. *)
Fixpoint FindTxByHash_from (idx : Z) (txs : list (option Transaction))
    (hash : N) : exec (option Transaction * Z) :=
  match txs with
  | [] => Done (None, -1)
  | txn :: rest =>
      t ← deref txn;
      if (Hash t =? hash)%N then Done (txn, idx)
      else FindTxByHash_from (idx + 1) rest hash
  end.

Definition FindTxByHash (txs : list (option Transaction)) (hash : N)
  : exec (option Transaction * Z) :=
  FindTxByHash_from 0 txs hash.

(** ** The economic comparator

    [baseFee] is the integer behind the base fee pointer of the queue,
    which [newPricesQueue] sets to a fresh integer and nothing
    reassigns. *)

Definition cmp (a b : Transaction) (baseFee : Z) : exec Z :=
  let caps :=
    (* Compare fee caps if baseFee is not specified or effective tips are
       equal *)
    big.Cmp (GetGasFeeCap a) (GetGasFeeCap b) ≫= λ c : Z,
    if negb (c =? 0) then Done c
    else
      (* Compare tips if effective tips and fee caps are equal *)
      big.Cmp (GetGasTipCap a) (GetGasTipCap b) in
  if big.BitLen baseFee >? 0 then
    (* Compare effective tips if baseFee is specified *)
    x ← EffectiveGasTip a (Some baseFee);
    y ← EffectiveGasTip b (Some baseFee);
    big.Cmp x y ≫= λ c : Z,
    if negb (c =? 0) then Done c else caps
  else caps.

(** The comparator as section 4.2 of the specification words it.  A
    record has one of two fee representations, legacy (a gas price) or
    dynamic (a tip cap and a fee cap); [amount] is the number that a fee
    field of the record's representation holds. *)
Module Spec.

Definition amount (field : option Z) : Z := default 0 field.

(** Legacy records fold both caps to the gas price. *)
Definition tipCap (t : Transaction) : Z :=
  if N.eqb (Type_ t) DynamicFeeTx then amount (GasTipCap t)
  else amount (GasPrice t).

Definition feeCap (t : Transaction) : Z :=
  if N.eqb (Type_ t) DynamicFeeTx then amount (GasFeeCap t)
  else amount (GasPrice t).

Definition effectiveTip (t : Transaction) (baseFee : Z) : Z :=
  Z.min (tipCap t) (feeCap t - baseFee).

(** Which side wins: [Gt] the first, [Lt] the second, [Eq] neither. *)
Definition larger_wins (x y : Z) : comparison := x ?= y.

(** Tiers 1 to 3. *)
Definition price_tiers (a b : Transaction) (baseFee : Z) : comparison :=
  let tier1 :=
    if 0 <? baseFee
    then larger_wins (effectiveTip a baseFee) (effectiveTip b baseFee)
    else Eq in
  match tier1 with
  | Eq =>
      match larger_wins (feeCap a) (feeCap b) with
      | Eq => larger_wins (tipCap a) (tipCap b)
      | c => c
      end
  | c => c
  end.

(** Tier 4 after the price tiers: the lower nonce wins. *)
Definition compare (a b : Transaction) (baseFee : Z) : comparison :=
  match price_tiers a b baseFee with
  | Eq => (Nonce b ?= Nonce a)%N
  | c => c
  end.

Definition ranks_higher (baseFee : Z) (a b : Transaction) : Prop :=
  compare a b baseFee = Gt.

(** What the four tiers look at in a record. *)
Definition terms (baseFee : Z) (t : Transaction) : Z * Z * Z * N :=
  (if 0 <? baseFee then effectiveTip t baseFee else 0,
   feeCap t, tipCap t, Nonce t).

Definition as_int (c : comparison) : Z :=
  match c with Lt => -1 | Eq => 0 | Gt => 1 end.

End Spec.

(** ** Slices *)

(** [s[i]] for an [int] index. *)
Definition index {A} (s : list A) (i : Z) : exec A :=
  if i <? 0 then Panicked
  else match s !! Z.to_nat i with
       | Some x => Done x
       | None => Panicked
       end.

(** [s[i], s[j] = s[j], s[i]]: both operands are read, then [s[i]] and
    [s[j]] are assigned in this order. *)
Definition swap_index {A} (s : list A) (i j : Z) : exec (list A) :=
  a ← index s i;
  b ← index s j;
  Done (<[Z.to_nat j := a]> (<[Z.to_nat i := b]> s)).

(** A value of type [interface{}]: a [*types.Transaction] ([None] for the
    nil pointer, [Some t] for a pointer to the record [t]), or a value of
    some other dynamic type (tagged by a number). *)
Inductive any : Type :=
| AnyTx (p : option Transaction)
| AnyOther (tag : Z).

(** ** container/heap

    The Go standard library's binary heap, which is not part of the
    repository; the functions below follow its source ([heap.go]).  An
    [int] is an unbounded integer here: a slice of pointers holds fewer
    than [2^60] elements, so [2*i + 2] stays within 64 bits and the
    overflow test of [down] never fires. *)
Module heap.

(** [heap.Interface]: [sort.Interface] with [Push] and [Pop]. *)
Module Interface.
Class t (H : Type) : Type := {
  Len : H → Z;
  Less : H → Z → Z → exec bool;
  Swap : H → Z → Z → exec H;
  Push : H → any → exec H;
  Pop : H → exec (any * H);
}.
End Interface.
Import Interface.

Section Heap.
Context {H : Type} `{Interface.t H}.

(** [for { i := (j - 1) / 2; if i == j || !h.Less(j, i) { break };
    h.Swap(i, j); j = i }]; Go's [/] truncates toward zero. *)
Equations? up (h : H) (j : Z) : exec H by wf (Z.abs_nat j) lt :=
up h j with decide ((j - 1) `quot` 2 = j) := {
  | left _ => Done h
  | right _ with Less h j ((j - 1) `quot` 2) := {
    | Panicked => Panicked
    | Done false => Done h
    | Done true with Swap h ((j - 1) `quot` 2) j := {
      | Panicked => Panicked
      | Done h' => up h' ((j - 1) `quot` 2) } } }.
Proof.
  clear - n. Z.to_euclidean_division_equations. lia.
Qed.

(** The loop of [down]: the heap and the final [i]. *)
Equations? down_loop (h : H) (i n : Z) : exec (H * Z)
  by wf (Z.to_nat (n - i)) lt :=
down_loop h i n with decide (2 * i + 1 >= n ∨ 2 * i + 1 < 0) := {
  | left _ => Done (h, i)
  | right _ with (if decide (2 * i + 1 + 1 < n)
                  then Less h (2 * i + 1 + 1) (2 * i + 1)
                  else Done false) := {
    | Panicked => Panicked
    | Done b with Less h (if b then 2 * i + 1 + 1 else 2 * i + 1) i := {
      | Panicked => Panicked
      | Done false => Done (h, i)
      | Done true with Swap h i (if b then 2 * i + 1 + 1 else 2 * i + 1) := {
        | Panicked => Panicked
        | Done h' => down_loop h' (if b then 2 * i + 1 + 1 else 2 * i + 1) n
        } } } }.
Proof. destruct b; lia. Qed.

Definition down (h : H) (i0 n : Z) : exec (H * bool) :=
  '(h', i) ← down_loop h i0 n;
  Done (h', i >? i0).

(** [for i := n/2 - 1; i >= 0; i-- { down(h, i, n) }] *)
Equations? init_loop (h : H) (i n : Z) : exec H by wf (Z.to_nat (i + 1)) lt :=
init_loop h i n with decide (i >= 0) := {
  | right _ => Done h
  | left _ with down h i n := {
    | Panicked => Panicked
    | Done (h', _) => init_loop h' (i - 1) n } }.
Proof. lia. Qed.

Definition Init (h : H) : exec H :=
  let n := Len h in
  init_loop h (n `quot` 2 - 1) n.

Definition Push (h : H) (x : any) : exec H :=
  h ← Interface.Push h x;
  up h (Len h - 1).

Definition Pop (h : H) : exec (any * H) :=
  let n := Len h - 1 in
  h ← Swap h 0 n;
  '(h, _) ← down h 0 n;
  Interface.Pop h.

(** The loops, one iteration at a time. *)
Lemma up_step (h : H) (j : Z) :
  up h j =
    let i := ((j - 1) `quot` 2) in
    if decide (i = j) then Done h
    else Less h j i ≫= λ b : bool,
         if b then h' ← Swap h i j; up h' i else Done h.
Proof.
  simp up. cbn zeta. destruct (decide (_ = _)); simpl; [done|].
  destruct (Less h j _) as [[]|]; simpl; try done.
  destruct (Swap h _ j); simpl; done.
Qed.

Lemma down_loop_step (h : H) (i n : Z) :
  down_loop h i n =
    let j1 := (2 * i + 1) in
    if decide ((j1 >= n) ∨ (j1 < 0)) then Done (h, i)
    else
      (if decide (j1 + 1 < n) then Less h (j1 + 1) j1 else Done false)
      ≫= λ b : bool,
      let j := if b then (j1 + 1) else j1 in
      Less h j i ≫= λ c : bool,
      if c then h' ← Swap h i j; down_loop h' j n else Done (h, i).
Proof.
  simp down_loop. cbn zeta. destruct (decide (_ ∨ _)); simpl; [done|].
  destruct (if decide _ then _ else _) as [b|]; simpl; [|done].
  destruct (Less h _ i) as [[]|]; simpl; try done.
  destruct (Swap h i _); simpl; done.
Qed.

Lemma init_loop_step (h : H) (i n : Z) :
  init_loop h i n =
    if decide (i >= 0)
    then '(h', _) ← down h i n; init_loop h' (i - 1) n
    else Done h.
Proof.
  simp init_loop. destruct (decide (_ >= _)); simpl; [|done].
  destruct (down h i n) as [[]|]; simpl; done.
Qed.

(** A measure of the heap that [Swap] keeps is kept by [down]. *)
Lemma down_loop_size (size : H → nat) :
  (∀ h i j h', Swap h i j = Done h' → size h' = size h) →
  ∀ (m : nat) h i n h' i',
    (Z.to_nat (n - i) ≤ m)%nat →
    down_loop h i n = Done (h', i') → size h' = size h.
Proof.
  intros Hsw. induction m as [|m IH]; intros h i n h' i' Hm;
    rewrite down_loop_step; cbn zeta;
    (destruct (decide (_ ∨ _)) as [Hc|Hc]; [by intros [= <- _]|]);
    [lia|].
  destruct (if decide _ then _ else _) as [b|]; simpl; [|done].
  destruct (Less h _ i) as [[]|]; simpl; [|by intros [= <- _]|done].
  destruct (Swap h i _) as [h1|] eqn:Hs; simpl; [|done].
  intros Hd. apply IH in Hd; [|destruct b; lia].
  rewrite Hd. by apply Hsw in Hs.
Qed.

End Heap.
End heap.
(** Facts about slices. *)

Lemma index_Done {A} (s : list A) (i : Z) (x : A) :
  index s i = Done x ↔ 0 ≤ i ∧ s !! Z.to_nat i = Some x.
Proof.
  unfold index. destruct (Z.ltb_spec i 0).
  - split; [done | lia].
  - destruct (s !! Z.to_nat i) as [y|]; split.
    + intros [= ->]. split; [lia | done].
    + by intros [_ [= ->]].
    + done.
    + by intros [_ [=]].
Qed.

Lemma index_of_nat {A} (s : list A) (i : nat) (x : A) :
  s !! i = Some x → index s (Z.of_nat i) = Done x.
Proof. intros Hi. apply index_Done. rewrite Nat2Z.id. split; [lia | done]. Qed.

(** The slice after exchanging the elements at [i] and [j]. *)
Definition exchange {A} (s : list A) (i j : nat) : list A :=
  match s !! i, s !! j with
  | Some a, Some b => <[j := a]> (<[i := b]> s)
  | _, _ => s
  end.

Lemma swap_index_exchange {A} (s : list A) (i j : nat) (a b : A) :
  s !! i = Some a → s !! j = Some b →
  swap_index s (Z.of_nat i) (Z.of_nat j) = Done (exchange s i j).
Proof.
  intros Hi Hj. unfold swap_index, exchange.
  rewrite (index_of_nat _ _ _ Hi), (index_of_nat _ _ _ Hj). simpl.
  rewrite !Nat2Z.id, Hi, Hj. done.
Qed.

Lemma length_exchange {A} (s : list A) (i j : nat) :
  length (exchange s i j) = length s.
Proof.
  unfold exchange. destruct (s !! i), (s !! j); try done.
  by rewrite !length_insert.
Qed.

Lemma lookup_exchange {A} (s : list A) (i j m : nat) (a b : A) :
  s !! i = Some a → s !! j = Some b →
  exchange s i j !! m =
    if decide (m = j) then Some a
    else if decide (m = i) then Some b
    else s !! m.
Proof.
  intros Hi Hj. unfold exchange. rewrite Hi, Hj.
  apply lookup_lt_Some in Hi as Hli. apply lookup_lt_Some in Hj as Hlj.
  destruct (decide (m = j)) as [->|Hmj].
  - rewrite list_lookup_insert_eq; [done | by rewrite length_insert].
  - rewrite list_lookup_insert_ne by done.
    destruct (decide (m = i)) as [->|Hmi].
    + by rewrite list_lookup_insert_eq.
    + by rewrite list_lookup_insert_ne.
Qed.

Lemma exchange_Permutation {A} (s : list A) (i j : nat) :
  exchange s i j ≡ₚ s.
Proof.
  destruct (s !! i) as [a|] eqn:Hi; [|by unfold exchange; rewrite Hi].
  destruct (s !! j) as [b|] eqn:Hj; [|by unfold exchange; rewrite Hi, Hj].
  apply Permutation_inj. split; [apply length_exchange|].
  exists (λ m, if decide (m = j) then i else if decide (m = i) then j else m).
  split.
  - intros m1 m2. repeat case_decide; intros; congruence.
  - intros m. rewrite (lookup_exchange _ _ _ _ _ _ Hi Hj).
    repeat case_decide; subst; congruence.
Qed.

Lemma length_swap_index {A} (s s' : list A) (i j : Z) :
  swap_index s i j = Done s' → length s' = length s.
Proof.
  unfold swap_index. destruct (index s i); simpl; [|done].
  destruct (index s j); simpl; [|done].
  intros [= <-]. by rewrite !length_insert.
Qed.
(** ** minNonceQueue: transactions sorted by nonce (ascending)

    The queue is a slice, and [clear] hands out a second slice on the
    same array, so the model has the array behind the slice.  [shown]
    are the elements of the slice, from 0 to its length; [spare] is the rest of
    its array, from the length to the capacity, which an [append] within
    the capacity writes to and a reslice leaves in place.  [left] are the
    arrays that [append] has left for a larger one, oldest first: a slice
    made while the queue was on one of them still reads it.  The capacity
    of a new array is the choice of the Go runtime: [growslice n] is the
    room it leaves beyond the [n] elements the array is allocated for. *)
Module minNonceQueue.

Record t : Type := mk {
  shown : list (option Transaction);
  spare : list (option Transaction);
  left : list (list (option Transaction));
  growslice : nat → nat;
}.

Definition with_shown (q : t) (s : list (option Transaction)) : t :=
  {| shown := s; spare := spare q; left := left q; growslice := growslice q |}.

(** [make(minNonceQueue, 0)] *)
Definition make (growslice : nat → nat) : t :=
  {| shown := []; spare := []; left := []; growslice := growslice |}.

(** [append]: within the capacity the element is written to the
    array the slice is on; beyond it, to a new array with the elements of
    the slice. *)
Definition append (q : t) (x : option Transaction) : t :=
  match spare q with
  | _ :: rest =>
      {| shown := shown q ++ [x]; spare := rest; left := left q;
         growslice := growslice q |}
  | [] =>
      {| shown := shown q ++ [x];
         spare := replicate (growslice q (length (shown q) + 1)) None;
         left := left q ++ [shown q];
         growslice := growslice q |}
  end.

Definition Len (q : t) : Z := Z.of_nat (length (shown q)).

Definition Peek (q : t) : exec (option Transaction) :=
  if Len q =? 0 then Done None else index (shown q) 0.

Definition Swap (q : t) (i j : Z) : exec t :=
  s ← swap_index (shown q) i j;
  Done (with_shown q s).

(** The higher gas price comes first if the nonces are the same.  The
    gas prices are compared as the pointers they are: [Less] reads the
    [GasPrice] field whatever the type of the record. *)
Definition Less (q : t) (i j : Z) : exec bool :=
  a ← index (shown q) i ≫= deref;
  b ← index (shown q) j ≫= deref;
  if (Nonce a =? Nonce b)%N
  then big.Cmp (GasPrice a) (GasPrice b) ≫= λ c : Z, Done (c >? 0)
  else Done (Nonce a <? Nonce b)%N.

(** A value that is not a [*types.Transaction] is dropped. *)
Definition Push (q : t) (x : any) : exec t :=
  match x with
  | AnyTx transaction => Done (append q transaction)
  | AnyOther _ => Done q
  end.

(** The slice gets shorter by its last element, which stays in the
    array. *)
Definition Pop (q : t) : exec (any * t) :=
  let n := Len q in
  x ← index (shown q) (n - 1);
  Done (AnyTx x,
        {| shown := take (Z.to_nat (n - 1)) (shown q); spare := x :: spare q;
           left := left q; growslice := growslice q |}).

#[global] Instance heap_Interface : heap.Interface.t t := {|
  heap.Interface.Len := Len;
  heap.Interface.Less := Less;
  heap.Interface.Swap := Swap;
  heap.Interface.Push := Push;
  heap.Interface.Pop := Pop;
|}.

(** A slice made of the queue's slice: the array it is on (the arrays
    are counted as the queue comes to them) and its length. *)
Record slice : Type := mkSlice {
  array : nat;
  len : nat;
}.

(** The slice of the queue as a value, and the queue resliced to [[:0]]. *)
Definition header (q : t) : slice :=
  {| array := length (left q); len := length (shown q) |}.

Definition reslice_empty (q : t) : t :=
  {| shown := []; spare := shown q ++ spare q; left := left q;
     growslice := growslice q |}.

(** The elements that a slice shows, by the arrays as the queue has them
    now. *)
Definition elements (q : t) (s : slice) : list (option Transaction) :=
  take (len s)
    (if (array s =? length (left q))%nat then shown q ++ spare q
     else default [] (left q !! array s)).

End minNonceQueue.

(** ** sync.RWMutex

    The reader/writer lock of the Go standard library, by its documented
    behaviour: the exclusive holder and the number of shared holders.
    Acquiring is [None] where the call would block; releasing a lock that
    is not held in that mode is a fatal error.  (In Go a pending [Lock]
    also holds back new readers; the model lets them in, so it has every
    interleaving of the runtime and more.) *)
Module sync.

Record RWMutex : Type := mkRWMutex {
  writer : bool;
  readers : nat;
}.

Definition Lock (m : RWMutex) : option RWMutex :=
  if writer m || negb (Nat.eqb (readers m) 0) then None
  else Some {| writer := true; readers := readers m |}.

Definition RLock (m : RWMutex) : option RWMutex :=
  if writer m then None
  else Some {| writer := false; readers := S (readers m) |}.

Definition Unlock (m : RWMutex) : exec RWMutex :=
  if writer m then Done {| writer := false; readers := readers m |}
  else Panicked.

Definition RUnlock (m : RWMutex) : exec RWMutex :=
  match readers m with
  | O => Panicked
  | S n => Done {| writer := writer m; readers := n |}
  end.

End sync.

(** ** accountQueue: a minNonceQueue behind a lock *)
Module accountQueue.

Record t : Type := mk {
  mu : sync.RWMutex;
  wLock : N;
  queue : minNonceQueue.t;
}.

Definition with_queue (q : t) (h : minNonceQueue.t) : t :=
  {| mu := mu q; wLock := wLock q; queue := h |}.

(** [newAccountQueue], under the runtime's choice [growslice] of the
    capacities of the arrays to come. *)
Definition newAccountQueue (growslice : nat → nat) : exec t :=
  h ← heap.Init (minNonceQueue.make growslice);
  Done {| mu := {| sync.writer := false; sync.readers := 0 |};
          wLock := 0; queue := h |}.

(** The mode a lock call acquires and an unlock call releases. *)
Inductive mode : Type := Exclusive | Shared.

Definition mode_of (write : bool) : mode :=
  if write then Exclusive else Shared.

(** [lock] in its two atomic steps: [q.Lock()] or [q.RLock()] ([None]
    where the call would block), then [atomic.StoreUint32(&q.wLock, _)]. *)
Definition lock_acquire (q : t) (write : bool) : option t :=
  m ← (if write then sync.Lock (mu q) else sync.RLock (mu q));
  Some {| mu := m; wLock := wLock q; queue := queue q |}.

Definition lock_store (q : t) (write : bool) : t :=
  {| mu := mu q; wLock := if write then 1 else 0; queue := queue q |}.

Definition lock (q : t) (write : bool) : option t :=
  q' ← lock_acquire q write;
  Some (lock_store q' write).

(** [unlock] in its two atomic steps: [atomic.SwapUint32(&q.wLock, 0)],
    which decides the release, then [q.Unlock()] or [q.RUnlock()]. *)
Definition unlock_swap (q : t) : mode * t :=
  (if (wLock q =? 1)%N then Exclusive else Shared,
   {| mu := mu q; wLock := 0; queue := queue q |}).

Definition unlock_release (q : t) (m : mode) : exec t :=
  mu' ← match m with
        | Exclusive => sync.Unlock (mu q)
        | Shared => sync.RUnlock (mu q)
        end;
  Done {| mu := mu'; wLock := wLock q; queue := queue q |}.

(** The result tells which release it was. *)
Definition unlock (q : t) : exec (mode * t) :=
  let '(m, q1) := unlock_swap q in
  q2 ← unlock_release q1 m;
  Done (m, q2).

Definition length (q : t) : Z := minNonceQueue.Len (queue q).

Definition push (q : t) (tx : option Transaction) : exec t :=
  h ← heap.Push (queue q) (AnyTx tx);
  Done (with_queue q h).

Definition peek (q : t) : exec (option Transaction) :=
  if length q =? 0 then Done None
  else minNonceQueue.Peek (queue q).

Definition pop (q : t) : exec (option Transaction * t) :=
  if length q =? 0 then Done (None, q)
  else
    '(x, h) ← heap.Pop (queue q);
    match x with
    | AnyTx transaction => Done (transaction, with_queue q h)
    | AnyOther _ => Done (None, with_queue q h)
    end.

(** A value together with the equation that says where it comes from. *)
Definition inspect {A : Type} (x : A) : {y : A | x = y} := exist _ x eq_refl.

Lemma length_Swap (h h' : minNonceQueue.t) (i j : Z) :
  minNonceQueue.Swap h i j = Done h' →
  List.length (minNonceQueue.shown h') = List.length (minNonceQueue.shown h).
Proof.
  unfold minNonceQueue.Swap.
  destruct (swap_index _ i j) as [s|] eqn:Hs; simpl; [|done].
  intros [= <-]. simpl. by apply length_swap_index in Hs.
Qed.

(** [heap.Pop] takes an element out of the queue: [prune] terminates. *)
Lemma heap_Pop_shrinks (h h' : minNonceQueue.t) (x : any) :
  heap.Pop h = Done (x, h') →
  (List.length (minNonceQueue.shown h')
   < List.length (minNonceQueue.shown h))%nat.
Proof.
  unfold heap.Pop. simpl.
  destruct (minNonceQueue.Swap h 0 _) as [h1|] eqn:Hs; simpl; [|done].
  apply length_Swap in Hs.
  unfold heap.down.
  destruct (heap.down_loop h1 0 _) as [[h2 i2]|] eqn:Hd; simpl; [|done].
  apply (heap.down_loop_size (λ h, List.length (minNonceQueue.shown h)))
    with (m := Z.to_nat (minNonceQueue.Len h - 1 - 0)) in Hd;
    [|intros ? ? ? ?; apply length_Swap|lia].
  unfold minNonceQueue.Pop.
  destruct (index (minNonceQueue.shown h2) _) as [y|] eqn:Hi; simpl; [|done].
  apply index_Done in Hi as [Hi1 Hi2]. apply lookup_lt_Some in Hi2.
  intros [= _ <-]. simpl. rewrite length_take.
  unfold minNonceQueue.Len in *. lia.
Qed.

(** The loop of [prune]: [for { if tx := q.peek(); tx == nil ||
    tx.Nonce >= nonce { break }; pruned = append(pruned, q.pop()) }]. *)
Equations? prune_loop (q : t) (nonce : N) (pruned : list (option Transaction))
  : exec (list (option Transaction) * t)
  by wf (List.length (minNonceQueue.shown (queue q))) lt :=
prune_loop q nonce pruned with inspect (peek q) := {
  | exist _ Panicked _ => Panicked
  | exist _ (Done None) _ => Done (pruned, q)
  | exist _ (Done (Some tx)) Hpeek with decide (Nonce tx >= nonce)%N := {
    | left _ => Done (pruned, q)
    | right _ with inspect (pop q) := {
      | exist _ Panicked _ => Panicked
      | exist _ (Done (x, q')) Hpop =>
          prune_loop q' nonce (pruned ++ [x]) } } }.
Proof.
  clear prune_loop. unfold peek, pop in *.
  destruct (length q =? 0); [done|].
  destruct (heap.Pop (queue q)) as [[y h]|] eqn:Hp; simpl in Hpop; [|done].
  apply heap_Pop_shrinks in Hp.
  destruct y; injection Hpop as _ <-; done.
Qed.

(** [prune] removes all transactions from the queue with nonce lower than
    given. *)
Definition prune (q : t) (nonce : N)
  : exec (list (option Transaction) * t) :=
  prune_loop q nonce [].

(** [clear]: the slice that the queue has, handed out as it is, and the
    queue resliced to no element: [removed = q.queue; q.queue =
    q.queue[:0]].  The two are on one array, so what [removed] shows is
    read from the queue that is ([minNonceQueue.elements]): the elements
    that were removed, until the next [push] writes over the first of
    them. *)
Definition clear (q : t) : minNonceQueue.slice * t :=
  (minNonceQueue.header (queue q),
   with_queue q (minNonceQueue.reslice_empty (queue q))).

End accountQueue.

(** ** maxPriceQueue: transactions sorted by gas price (descending) *)
Module maxPriceQueue.

Record t : Type := mk {
  baseFee : Z;
  txs : list (option Transaction);
}.

Definition Len (q : t) : Z := Z.of_nat (length (txs q)).

Definition Peek (q : t) : exec (option Transaction) :=
  if Len q =? 0 then Done None else index (txs q) 0.

Definition Swap (q : t) (i j : Z) : exec t :=
  s ← swap_index (txs q) i j;
  Done {| baseFee := baseFee q; txs := s |}.

Definition Push (q : t) (x : any) : exec t :=
  match x with
  | AnyTx transaction =>
      Done {| baseFee := baseFee q; txs := txs q ++ [transaction] |}
  | AnyOther _ => Done q
  end.

Definition Pop (q : t) : exec (any * t) :=
  let old := txs q in
  let n := Z.of_nat (length old) in
  x ← index old (n - 1);
  Done (AnyTx x,
        {| baseFee := baseFee q; txs := take (Z.to_nat (n - 1)) old |}).

Definition Less (q : t) (i j : Z) : exec bool :=
  a ← index (txs q) i ≫= deref;
  b ← index (txs q) j ≫= deref;
  cmp a b (baseFee q) ≫= λ c : Z,
  Done (if c =? -1 then false
        else if c =? 1 then true
        else (Nonce a <? Nonce b)%N).

#[global] Instance heap_Interface : heap.Interface.t t := {|
  heap.Interface.Len := Len;
  heap.Interface.Less := Less;
  heap.Interface.Swap := Swap;
  heap.Interface.Push := Push;
  heap.Interface.Pop := Pop;
|}.

End maxPriceQueue.

(** ** pricedQueue *)
Module pricedQueue.

Record t : Type := mk {
  queue : maxPriceQueue.t;
}.

(** [newPricesQueue] creates the priced queue with initial transactions
    and base fee.  (The heap reorders the caller's slice in place; the
    model keeps the queue's view of it.) *)
Definition newPricesQueue (baseFee : N)
    (initialTxs : list (option Transaction)) : exec t :=
  h ← heap.Init {| maxPriceQueue.baseFee := big.SetUint64 baseFee;
                   maxPriceQueue.txs := initialTxs |};
  Done {| queue := h |}.

Definition length (q : t) : Z := maxPriceQueue.Len (queue q).

Definition push (q : t) (tx : option Transaction) : exec t :=
  h ← heap.Push (queue q) (AnyTx tx);
  Done {| queue := h |}.

Definition pop (q : t) : exec (option Transaction * t) :=
  if length q =? 0 then Done (None, q)
  else
    '(x, h) ← heap.Pop (queue q);
    match x with
    | AnyTx transaction => Done (transaction, {| queue := h |})
    | AnyOther _ => Done (None, {| queue := h |})
    end.

End pricedQueue.

(** * Properties *)

(** ** container/heap keeps a binary heap *)
Module heap_theory.
Import heap heap.Interface.
Local Open Scope nat_scope.

(** The parent of the node at index [c > 0]. *)
Definition parent (c : nat) : nat := (c - 1) / 2.

Lemma parent_lt (c : nat) : 0 < c → parent c < c.
Proof. unfold parent. intros. apply Nat.Div0.div_lt_upper_bound. lia. Qed.

Lemma parent_children (c i : nat) :
  0 < c → parent c = i ↔ c = 2 * i + 1 ∨ c = 2 * i + 2.
Proof.
  unfold parent. intros Hc.
  pose proof (Nat.div_mod_eq (c - 1) 2) as Hd.
  pose proof (Nat.mod_upper_bound (c - 1) 2) as Hm.
  split.
  - intros <-. lia.
  - intros [->| ->].
    + replace (2 * i + 1 - 1) with (i * 2) by lia. apply Nat.div_mul. lia.
    + replace (2 * i + 2 - 1) with (1 + i * 2) by lia.
      rewrite Nat.div_add by lia. done.
Qed.

Lemma parent_quot (j : nat) :
  0 < j → ((Z.of_nat j - 1) `quot` 2)%Z = Z.of_nat (parent j).
Proof.
  intros Hj. unfold parent. rewrite Z.quot_div_nonneg by lia.
  rewrite Nat2Z.inj_div. f_equal. lia.
Qed.

(** *** A heap of elements [A] ordered by [lt] *)
Section Order.
Context {A : Type} (lt : A → A → bool).

(** The element at [c] does not come before the one at its parent. *)
Definition pair_ok (l : list A) (c : nat) : Prop :=
  ∀ a b, l !! c = Some a → l !! parent c = Some b → lt a b = false.

(** The first [n] elements are heap ordered at every parent from [k] on. *)
Definition heap_from (l : list A) (n k : nat) : Prop :=
  ∀ c, 0 < c < n → k ≤ parent c → pair_ok l c.

(** The same, apart from the children of [i] ... *)
Definition heap_except (l : list A) (n k i : nat) : Prop :=
  ∀ c, 0 < c < n → k ≤ parent c → parent c ≠ i → pair_ok l c.

(** ... which do not come before the parent of [i]. *)
Definition grand_ok (l : list A) (n k i : nat) : Prop :=
  ∀ c a b, 0 < i → k ≤ parent i → 0 < c < n → parent c = i →
    l !! c = Some a → l !! parent i = Some b → lt a b = false.

(** Heap ordered apart from the element at [j] and its parent. *)
Definition heap_but (l : list A) (j : nat) : Prop :=
  ∀ c, 0 < c < length l → c ≠ j → pair_ok l c.

Definition is_heap (l : list A) : Prop := heap_from l (length l) 0.

(** [lt] is a strict weak order. *)
Record StrictWeak : Prop := {
  lt_irrefl : ∀ a, lt a a = false;
  lt_trans : ∀ a b c, lt a b = true → lt b c = true → lt a c = true;
  lt_negtrans : ∀ a b c, lt a b = false → lt b c = false → lt a c = false;
}.

Lemma lt_asym (HS : StrictWeak) (a b : A) : lt a b = true → lt b a = false.
Proof.
  intros Hab. destruct (lt b a) eqn:Hba; [|done].
  by rewrite <- (lt_irrefl HS a), (lt_trans HS a b a).
Qed.

Lemma lt_trans_neg (HS : StrictWeak) (a b c : A) :
  lt a b = true → lt c b = false → lt c a = false.
Proof.
  intros Hab Hcb. destruct (lt c a) eqn:Hca; [|done].
  by rewrite <- Hcb, (lt_trans HS c a b).
Qed.

Lemma is_heap_nil : is_heap [].
Proof. intros c [? Hc]. simpl in Hc. lia. Qed.

Lemma root_minimal (HS : StrictWeak) (l : list A) (x : A) :
  is_heap l → l !! 0 = Some x → ∀ y, y ∈ l → lt y x = false.
Proof.
  intros Hh Hx y Hy. apply list_elem_of_lookup in Hy as [c Hc].
  revert y Hc. induction (lt_wf c) as [c _ IH]. intros y Hc.
  destruct (decide (c = 0)) as [->|Hc0].
  - rewrite Hx in Hc. injection Hc as <-. apply (lt_irrefl HS).
  - assert (parent c < c) as Hp by (apply parent_lt; lia).
    destruct (lookup_lt_is_Some_2 l (parent c)) as [z Hz].
    { apply lookup_lt_Some in Hc. lia. }
    apply (lt_negtrans HS y z x).
    + apply (Hh c); [|lia|done|done]. apply lookup_lt_Some in Hc. lia.
    + by apply (IH (parent c)).
Qed.

End Order.
(** *** The laws a heap of the interface obeys

    [R h l] reads "the heap value [h] holds the elements [l], in this
    order"; [wrap] turns an element into the [interface{}] value that
    [Push] receives and [Pop] returns. *)
Record Laws {H : Type} `{Interface.t H} {A : Type}
    (R : H → list A → Prop) (lt : A → A → bool) (wrap : A → any) : Prop := {
  Len_R : ∀ h l, R h l → Len h = Z.of_nat (length l);
  Less_R : ∀ h l i j a b, R h l → l !! i = Some a → l !! j = Some b →
    Less h (Z.of_nat i) (Z.of_nat j) = Done (lt a b);
  Swap_R : ∀ h l i j, R h l → i < length l → j < length l →
    ∃ h', Swap h (Z.of_nat i) (Z.of_nat j) = Done h' ∧ R h' (exchange l i j);
  Push_R : ∀ h l a, R h l →
    ∃ h', Interface.Push h (wrap a) = Done h' ∧ R h' (l ++ [a]);
  Pop_R : ∀ h l a, R h (l ++ [a]) →
    ∃ h', Interface.Pop h = Done (wrap a, h') ∧ R h' l;
  lt_strict : StrictWeak lt;
}.

Section Laws.
Context {H : Type} `{Interface.t H} {A : Type}.
Context (R : H → list A → Prop) (lt : A → A → bool) (wrap : A → any).
Context (HL : Laws R lt wrap).

Let HS : StrictWeak lt := lt_strict _ _ _ HL.

Lemma heap_except_leaf (l : list A) (n k i : nat) :
  heap_except lt l n k i → n ≤ 2 * i + 1 → heap_from lt l n k.
Proof.
  intros He Hn c Hc Hk. apply He; [done..|].
  intros Hp. apply parent_children in Hp; lia.
Qed.

(** The child that [down] compares with its parent: the one that comes
    first. *)
Lemma down_child (h : H) (l : list A) (i n : nat) :
  R h l → 2 * i + 1 < n → n ≤ length l →
  ∃ (b : bool) (j : nat) (aj : A),
    (if decide (2 * Z.of_nat i + 1 + 1 < Z.of_nat n)%Z
     then Less h (2 * Z.of_nat i + 1 + 1)%Z (2 * Z.of_nat i + 1)%Z
     else Done false) = Done b ∧
    (if b then 2 * Z.of_nat i + 1 + 1 else 2 * Z.of_nat i + 1)%Z
      = Z.of_nat j ∧
    0 < j < n ∧ parent j = i ∧ l !! j = Some aj ∧
    ∀ c ac, 0 < c < n → parent c = i → l !! c = Some ac → c ≠ j →
      lt ac aj = false.
Proof.
  intros HR Hi Hn.
  destruct (lookup_lt_is_Some_2 l (2 * i + 1)) as [a1 Ha1]; [lia|].
  replace (2 * Z.of_nat i + 1 + 1)%Z with (Z.of_nat (2 * i + 2)) by lia.
  replace (2 * Z.of_nat i + 1)%Z with (Z.of_nat (2 * i + 1)) by lia.
  destruct (decide (Z.of_nat (2 * i + 2) < Z.of_nat n)%Z) as [H2|H2].
  - destruct (lookup_lt_is_Some_2 l (2 * i + 2)) as [a2 Ha2]; [lia|].
    rewrite (Less_R _ _ _ HL h l _ _ a2 a1) by done.
    destruct (lt a2 a1) eqn:Hlt.
    + exists true, (2 * i + 2), a2. split_and!; try done; try lia.
      { apply parent_children; lia. }
      intros c ac Hc Hp Hac Hne. apply parent_children in Hp; [|lia].
      assert (c = 2 * i + 1) as -> by lia.
      rewrite Ha1 in Hac. injection Hac as <-. by apply (lt_asym lt HS).
    + exists false, (2 * i + 1), a1. split_and!; try done; try lia.
      { apply parent_children; lia. }
      intros c ac Hc Hp Hac Hne. apply parent_children in Hp; [|lia].
      assert (c = 2 * i + 2) as -> by lia.
      rewrite Ha2 in Hac. by injection Hac as <-.
  - exists false, (2 * i + 1), a1. split_and!; try done; try lia.
    { apply parent_children; lia. }
    intros c ac Hc Hp Hac Hne. apply parent_children in Hp; lia.
Qed.

Lemma down_loop_spec (m : nat) : ∀ (h : H) (l : list A) (i n k : nat),
  n - i ≤ m → R h l → n ≤ length l →
  heap_except lt l n k i → grand_ok lt l n k i →
  ∃ h' l' i',
    down_loop h (Z.of_nat i) (Z.of_nat n) = Done (h', i') ∧
    R h' l' ∧ l' ≡ₚ l ∧ (∀ c, n ≤ c → l' !! c = l !! c) ∧
    heap_from lt l' n k.
Proof.
  induction m as [|m IH]; intros h l i n k Hm HR Hn He Hg;
    rewrite down_loop_step; cbn zeta.
  { destruct (decide _) as [_|Hc]; [|lia].
    exists h, l, (Z.of_nat i). split_and!; try done.
    apply (heap_except_leaf l n k i); [done | lia]. }
  destruct (decide _) as [Hc|Hc].
  { exists h, l, (Z.of_nat i). split_and!; try done.
    apply (heap_except_leaf l n k i); [done | lia]. }
  destruct (down_child h l i n)
    as (b & j & aj & Hb & Hjz & Hj & Hpj & Haj & Hmin); [done | lia | done |].
  destruct (lookup_lt_is_Some_2 l i) as [ai Hai]; [lia|].
  rewrite Hb. simpl. rewrite Hjz.
  rewrite (Less_R _ _ _ HL h l j i aj ai) by done. simpl.
  assert (i < j) as Hij by (rewrite <- Hpj; apply parent_lt; lia).
  destruct (lt aj ai) eqn:Hlt.
  - destruct (Swap_R _ _ _ HL h l i j) as (h' & -> & HR'); [done | lia | lia |].
    simpl.
    destruct (IH h' (exchange l i j) j n k)
      as (h2 & l2 & i2 & -> & HR2 & Hp2 & Hhi & Hh2).
    + lia.
    + done.
    + by rewrite length_exchange.
    + intros c Hc1 Hk Hne a a'.
      rewrite !(lookup_exchange l i j _ ai aj) by done.
      destruct (decide (c = j)) as [->|Hcj].
      { rewrite Hpj. rewrite decide_False by lia. rewrite decide_True by done.
        intros [= <-] [= <-]. by apply (lt_asym lt HS). }
      destruct (decide (c = i)) as [->|Hci].
      { assert (parent i < i) by (apply parent_lt; lia).
        rewrite decide_False by lia. rewrite decide_False by lia.
        intros [= <-] Ha'. apply (Hg j aj a'); try done; lia. }
      rewrite decide_False by done.
      destruct (decide (parent c = i)) as [Hpc|Hpc].
      { intros Ha [= <-]. by apply (Hmin c). }
      intros Ha Ha'. by apply (He c).
    + intros c a a' _ Hk Hc1 Hpc.
      assert (j < c) by (rewrite <- Hpc; apply parent_lt; lia).
      rewrite Hpj. rewrite !(lookup_exchange l i j _ ai aj) by done.
      rewrite decide_False by lia. rewrite decide_False by lia.
      rewrite decide_False by lia. rewrite decide_True by done.
      intros Ha [= <-]. apply (He c); rewrite ?Hpc; try done; lia.
    + exists h2, l2, i2. split_and!; try done.
      * by rewrite Hp2, exchange_Permutation.
      * intros c Hcn. rewrite Hhi by done.
        rewrite (lookup_exchange l i j _ ai aj) by done.
        rewrite decide_False by lia. by rewrite decide_False by lia.
  - exists h, l, (Z.of_nat i). split_and!; try done.
    intros c Hc1 Hk. destruct (decide (parent c = i)) as [Hpc|Hpc].
    + intros a a' Ha Ha'. rewrite Hpc, Hai in Ha'. injection Ha' as <-.
      destruct (decide (c = j)) as [->|Hcj].
      * rewrite Haj in Ha. by injection Ha as <-.
      * apply (lt_negtrans lt HS a aj ai); [|done]. by apply (Hmin c).
    + by apply He.
Qed.

Lemma down_spec (h : H) (l : list A) (i n k : nat) :
  R h l → n ≤ length l →
  heap_except lt l n k i → grand_ok lt l n k i →
  ∃ h' l' moved,
    down h (Z.of_nat i) (Z.of_nat n) = Done (h', moved) ∧
    R h' l' ∧ l' ≡ₚ l ∧ (∀ c, n ≤ c → l' !! c = l !! c) ∧
    heap_from lt l' n k.
Proof.
  intros HR Hn He Hg.
  destruct (down_loop_spec (n - i) h l i n k)
    as (h' & l' & i' & Hd & ?); [done..|].
  exists h', l', (i' >? Z.of_nat i)%Z. split; [|done].
  unfold down. by rewrite Hd.
Qed.

Lemma up_spec (j : nat) : ∀ (h : H) (l : list A),
  R h l → j < length l → heap_but lt l j →
  (∀ c a b, 0 < j → 0 < c < length l → parent c = j →
     l !! c = Some a → l !! parent j = Some b → lt a b = false) →
  ∃ h' l', up h (Z.of_nat j) = Done h' ∧ R h' l' ∧ l' ≡ₚ l ∧ is_heap lt l'.
Proof.
  induction (lt_wf j) as [j _ IH]. intros h l HR Hj Hb Hg.
  rewrite up_step. cbn zeta.
  destruct (decide (j = 0)) as [->|Hj0].
  { exists h, l. split_and!; try done.
    intros c Hc _. apply Hb; lia. }
  rewrite parent_quot by lia.
  assert (parent j < j) as Hpj by (apply parent_lt; lia).
  rewrite decide_False by lia.
  destruct (lookup_lt_is_Some_2 l j) as [aj Haj]; [done|].
  destruct (lookup_lt_is_Some_2 l (parent j)) as [ai Hai]; [lia|].
  rewrite (Less_R _ _ _ HL h l j (parent j) aj ai) by done. simpl.
  destruct (lt aj ai) eqn:Hlt.
  - destruct (Swap_R _ _ _ HL h l (parent j) j) as (h' & -> & HR');
      [done | lia | lia |].
    simpl.
    destruct (IH (parent j) Hpj h' (exchange l (parent j) j))
      as (h2 & l2 & -> & HR2 & Hp2 & Hh2).
    + done.
    + rewrite length_exchange. lia.
    + intros c. rewrite length_exchange. intros Hc Hne a a'.
      rewrite !(lookup_exchange l (parent j) j _ ai aj) by done.
      destruct (decide (c = j)) as [->|Hcj].
      { rewrite decide_False by lia. rewrite decide_True by done.
        intros [= <-] [= <-]. by apply (lt_asym lt HS). }
      rewrite decide_False by done.
      destruct (decide (parent c = j)) as [Hpc|Hpc].
      { intros Ha [= <-]. apply (Hg c a ai); try done; lia. }
      destruct (decide (parent c = parent j)) as [Hpc'|Hpc'].
      { intros Ha [= <-]. apply (lt_trans_neg lt HS aj ai a); [done|].
        apply (Hb c); try done. by rewrite Hpc'. }
      intros Ha Ha'. by apply (Hb c).
    + intros c a a' Hp0. rewrite length_exchange. intros Hc Hpc.
      assert (parent (parent j) < parent j) by (apply parent_lt; lia).
      rewrite !(lookup_exchange l (parent j) j _ ai aj) by done.
      rewrite (decide_False (P := parent (parent j) = j)) by lia.
      rewrite (decide_False (P := parent (parent j) = parent j)) by lia.
      assert (pair_ok lt l (parent j)) as Hpp by (apply Hb; lia).
      destruct (decide (c = j)) as [->|Hcj].
      { intros [= <-] Ha'. by apply Hpp. }
      assert (c ≠ parent j) by (intros ->; lia).
      rewrite decide_False by done.
      intros Ha Ha'. apply (lt_negtrans lt HS a ai a'); [|by apply Hpp].
      apply (Hb c); try done. by rewrite Hpc.
    + exists h2, l2. split_and!; try done.
      by rewrite Hp2, exchange_Permutation.
  - exists h, l. split_and!; try done.
    intros c Hc _. destruct (decide (c = j)) as [->|Hcj].
    + intros a a' Ha Ha'. congruence.
    + by apply Hb.
Qed.

(** [up] leaves a heap as it is; this is what [heap.Push] runs into when
    the interface's [Push] has dropped its argument. *)
Lemma up_heap (h : H) (l : list A) :
  R h l → is_heap lt l → up h (Len h - 1)%Z = Done h.
Proof.
  intros HR Hh. rewrite (Len_R _ _ _ HL h l HR). rewrite up_step. cbn zeta.
  destruct (decide (length l = 0)) as [->|Hl0]; [done|].
  destruct (decide (length l = 1)) as [->|Hl1]; [done|].
  replace (Z.of_nat (length l) - 1)%Z with (Z.of_nat (length l - 1)) by lia.
  rewrite parent_quot by lia.
  assert (parent (length l - 1) < length l - 1) as Hpj
    by (apply parent_lt; lia).
  rewrite decide_False by lia.
  destruct (lookup_lt_is_Some_2 l (length l - 1)) as [aj Haj]; [lia|].
  destruct (lookup_lt_is_Some_2 l (parent (length l - 1))) as [ai Hai]; [lia|].
  rewrite (Less_R _ _ _ HL h l _ _ aj ai) by done. simpl.
  rewrite (Hh (length l - 1)); [done | lia | lia | done | done].
Qed.

Lemma init_loop_spec (m : nat) : ∀ (h : H) (l : list A),
  R h l → heap_from lt l (length l) m →
  ∃ h' l',
    init_loop h (Z.of_nat m - 1)%Z (Z.of_nat (length l)) = Done h' ∧
    R h' l' ∧ l' ≡ₚ l ∧ is_heap lt l'.
Proof.
  induction m as [|m IH]; intros h l HR Hh; rewrite init_loop_step.
  { rewrite decide_False by lia. by exists h, l. }
  rewrite decide_True by lia.
  replace (Z.of_nat (S m) - 1)%Z with (Z.of_nat m) by lia.
  destruct (down_spec h l m (length l) m)
    as (h1 & l1 & moved & -> & HR1 & Hp1 & _ & Hh1).
  - done.
  - done.
  - intros c Hc Hk Hne. apply Hh; [done | lia].
  - intros c a b Hm Hk. pose proof (parent_lt m Hm). lia.
  - simpl. rewrite <- (Permutation_length Hp1) in Hh1 |- *.
    destruct (IH h1 l1 HR1 Hh1) as (h2 & l2 & -> & HR2 & Hp2 & Hh2).
    exists h2, l2. split_and!; try done. by rewrite Hp2.
Qed.

Theorem Init_spec (h : H) (l : list A) :
  R h l → ∃ h' l', Init h = Done h' ∧ R h' l' ∧ l' ≡ₚ l ∧ is_heap lt l'.
Proof.
  intros HR. unfold Init. rewrite (Len_R _ _ _ HL h l HR).
  rewrite Z.quot_div_nonneg by lia.
  replace (Z.of_nat (length l) / 2)%Z with (Z.of_nat (length l / 2))
    by (by rewrite Nat2Z.inj_div).
  apply init_loop_spec; [done|].
  intros c Hc Hk. exfalso. unfold parent in Hk.
  assert ((c - 1) / 2 ≤ (length l - 2) / 2)
    by (apply Nat.Div0.div_le_mono; lia).
  destruct (decide (length l < 2)); [lia|].
  assert (length l = length l - 2 + 1 * 2) as Hl by lia.
  rewrite Hl in Hk at 1. rewrite Nat.div_add in Hk by lia. lia.
Qed.

Theorem Push_spec (h : H) (l : list A) (a : A) :
  R h l → is_heap lt l →
  ∃ h' l', heap.Push h (wrap a) = Done h' ∧ R h' l' ∧ l' ≡ₚ a :: l ∧
           is_heap lt l'.
Proof.
  intros HR Hh. unfold heap.Push.
  destruct (Push_R _ _ _ HL h l a HR) as (h1 & -> & HR1). simpl.
  rewrite (Len_R _ _ _ HL h1 _ HR1), length_app. simpl.
  replace (Z.of_nat (length l + 1) - 1)%Z with (Z.of_nat (length l)) by lia.
  destruct (up_spec (length l) h1 (l ++ [a]))
    as (h2 & l2 & -> & HR2 & Hp2 & Hh2).
  - done.
  - rewrite length_app. simpl. lia.
  - intros c. rewrite length_app. simpl. intros Hc Hne x y.
    pose proof (parent_lt c).
    rewrite !lookup_app_l by lia. apply Hh; lia.
  - intros c x y _. rewrite length_app. simpl. intros Hc Hpc.
    pose proof (parent_lt c). lia.
  - exists h2, l2. split_and!; try done.
    rewrite Hp2. by rewrite Permutation_app_comm.
Qed.

Theorem Pop_spec (h : H) (l : list A) :
  R h l → is_heap lt l → l ≠ [] →
  ∃ x h' l', heap.Pop h = Done (wrap x, h') ∧ R h' l' ∧ l ≡ₚ x :: l' ∧
             is_heap lt l' ∧ l !! 0 = Some x.
Proof.
  intros HR Hh Hne. unfold heap.Pop. rewrite (Len_R _ _ _ HL h l HR).
  assert (0 < length l) as Hlen by (destruct l; simpl; [done | lia]).
  set (n := length l - 1).
  replace (Z.of_nat (length l) - 1)%Z with (Z.of_nat n) by lia.
  destruct (lookup_lt_is_Some_2 l 0) as [x Hx]; [lia|].
  destruct (lookup_lt_is_Some_2 l n) as [y Hy]; [lia|].
  destruct (Swap_R _ _ _ HL h l 0 n) as (h1 & Hsw & HR1); [done | lia | lia |].
  change 0%Z with (Z.of_nat 0). rewrite Hsw. simpl.
  destruct (down_spec h1 (exchange l 0 n) 0 n 0)
    as (h2 & l2 & moved & -> & HR2 & Hp2 & Hhi & Hh2).
  - done.
  - rewrite length_exchange. lia.
  - intros c Hc _ Hpc a b.
    rewrite !(lookup_exchange l 0 n _ x y) by done.
    pose proof (parent_lt c).
    rewrite !decide_False by lia. apply Hh; lia.
  - intros c a b ?. lia.
  - simpl.
    assert (length l2 = S n) as Hl2.
    { rewrite (Permutation_length Hp2), length_exchange. lia. }
    assert (l2 !! n = Some x) as Hl2n.
    { rewrite Hhi by done. rewrite (lookup_exchange l 0 n _ x y) by done.
      by rewrite decide_True. }
    assert (l2 = take n l2 ++ [x]) as Hsplit.
    { rewrite <- (take_drop n l2) at 1. f_equal.
      apply list_eq. intros [|c].
      - rewrite lookup_drop, Nat.add_0_r. done.
      - rewrite lookup_drop. simpl. apply lookup_ge_None. lia. }
    rewrite Hsplit in HR2.
    destruct (Pop_R _ _ _ HL h2 _ x HR2) as (h3 & -> & HR3).
    exists x, h3, (take n l2). split_and!; try done.
    + rewrite <- (exchange_Permutation l 0 n), <- Hp2.
      rewrite Hsplit at 1. by rewrite Permutation_app_comm.
    + intros c. rewrite length_take, Hl2. intros Hc _ a b.
      pose proof (parent_lt c).
      rewrite !lookup_take_lt by lia. apply Hh2; lia.
Qed.

End Laws.

(** *** Two implementations of the interface on one heap value

    [I1] is the interface of a queue, whose [Less] may panic; [I2] has
    the same [Len], [Swap], [Push] and [Pop], and a [Less] that agrees
    with the one of [I1] wherever that returns ([strict = false]) or, on
    the heaps of [Inv], everywhere ([strict = true]).  The functions of
    the package then agree in the same way. *)
Section Refine.
Context {H : Type} (I1 I2 : Interface.t H) (strict : bool) (Inv : H → Prop).

Definition refines {A : Type} (x y : exec A) : Prop :=
  x = y ∨ (strict = false ∧ x = Panicked).

Hypothesis Len_eq : ∀ h, @Len H I1 h = @Len H I2 h.
Hypothesis Swap_eq : ∀ h i j, @Swap H I1 h i j = @Swap H I2 h i j.
Hypothesis Push_eq : ∀ h x,
  @Interface.Push H I1 h x = @Interface.Push H I2 h x.
Hypothesis Pop_eq : ∀ h, @Interface.Pop H I1 h = @Interface.Pop H I2 h.
Hypothesis Less_ref : ∀ h i j,
  Inv h → refines (@Less H I1 h i j) (@Less H I2 h i j).
Hypothesis Inv_Swap : ∀ h i j h',
  Inv h → @Swap H I1 h i j = Done h' → Inv h'.

Lemma refines_refl {A : Type} (x : exec A) : refines x x.
Proof. by left. Qed.

Lemma refines_bind {A B : Type} (m1 m2 : exec A) (k1 k2 : A → exec B) :
  refines m1 m2 → (∀ a, m1 = Done a → refines (k1 a) (k2 a)) →
  refines (m1 ≫= k1) (m2 ≫= k2).
Proof.
  intros [<-|[Hs ->]] Hk; [|by right].
  destruct m1 as [a|]; [|by left]. by apply Hk.
Qed.

Lemma refines_Done {A : Type} (x y : exec A) (a : A) :
  refines x y → x = Done a → y = Done a.
Proof. intros [<-|[_ ->]]; done. Qed.

Lemma up_refines (m : nat) : ∀ (h : H) (j : Z),
  Z.abs_nat j ≤ m → Inv h → refines (@up H I1 h j) (@up H I2 h j).
Proof.
  induction m as [|m IH]; intros h j Hm Hinv;
    rewrite (@up_step H I1), (@up_step H I2); cbn zeta;
    (destruct (decide (_ = j)) as [|Hne]; [apply refines_refl|]).
  { exfalso. revert Hne. assert (j = 0%Z) as -> by lia. done. }
  apply refines_bind; [by apply Less_ref|].
  intros [] _; [|apply refines_refl].
  rewrite <- Swap_eq. apply refines_bind; [apply refines_refl|].
  intros h' Hs. apply IH; [|by eapply Inv_Swap].
  clear - Hm Hne. Z.to_euclidean_division_equations. lia.
Qed.

Lemma down_loop_Inv (m : nat) : ∀ (h : H) (i n : Z) (h' : H) (i' : Z),
  Z.to_nat (n - i) ≤ m → Inv h →
  @down_loop H I1 h i n = Done (h', i') → Inv h'.
Proof.
  induction m as [|m IH]; intros h i n h' i' Hm Hinv;
    rewrite (@down_loop_step H I1); cbn zeta;
    (destruct (decide (_ ∨ _)) as [Hc|Hc]; [by intros [= <- _]|]);
    [lia|].
  destruct (if decide _ then _ else _) as [b|]; simpl; [|done].
  destruct (Less h _ i) as [[]|]; simpl; [|by intros [= <- _]|done].
  destruct (Swap h i _) as [h1|] eqn:Hs; simpl; [|done].
  apply IH; [destruct b; lia | by eapply Inv_Swap].
Qed.

Lemma down_loop_refines (m : nat) : ∀ (h : H) (i n : Z),
  Z.to_nat (n - i) ≤ m → Inv h →
  refines (@down_loop H I1 h i n) (@down_loop H I2 h i n).
Proof.
  induction m as [|m IH]; intros h i n Hm Hinv;
    rewrite (@down_loop_step H I1), (@down_loop_step H I2); cbn zeta;
    (destruct (decide (_ ∨ _)) as [Hc|Hc]; [apply refines_refl|]);
    [lia|].
  apply refines_bind.
  { destruct (decide _); [by apply Less_ref | apply refines_refl]. }
  intros b _. apply refines_bind; [by apply Less_ref|].
  intros [] _; [|apply refines_refl].
  rewrite <- Swap_eq. apply refines_bind; [apply refines_refl|].
  intros h' Hs. apply IH; [destruct b; lia | by eapply Inv_Swap].
Qed.

Lemma down_Inv (h : H) (i n : Z) (h' : H) (moved : bool) :
  Inv h → @down H I1 h i n = Done (h', moved) → Inv h'.
Proof.
  intros Hinv. unfold down.
  destruct (down_loop h i n) as [[h1 i1]|] eqn:Hd; simpl; [|done].
  intros [= <- _]. by eapply (down_loop_Inv _ h i n h1 i1).
Qed.

Lemma down_refines (h : H) (i n : Z) :
  Inv h → refines (@down H I1 h i n) (@down H I2 h i n).
Proof.
  intros Hinv. unfold down. apply refines_bind.
  - by apply (down_loop_refines (Z.to_nat (n - i))).
  - intros [h' i'] _. apply refines_refl.
Qed.

Lemma init_loop_refines (m : nat) : ∀ (h : H) (i n : Z),
  Z.to_nat (i + 1) ≤ m → Inv h →
  refines (@init_loop H I1 h i n) (@init_loop H I2 h i n) ∧
  ∀ h', @init_loop H I1 h i n = Done h' → Inv h'.
Proof.
  induction m as [|m IH]; intros h i n Hm Hinv;
    rewrite (@init_loop_step H I1), (@init_loop_step H I2);
    (destruct (decide (i >= 0)%Z) as [Hc|Hc];
       [|split; [apply refines_refl | by intros h' [= <-]]]);
    [lia|].
  split.
  - apply refines_bind; [by apply down_refines|].
    intros [h' moved] Hd. apply IH; [lia | by eapply down_Inv].
  - intros h'. destruct (down h i n) as [[h1 moved]|] eqn:Hd; simpl; [|done].
    apply IH; [lia | by eapply down_Inv].
Qed.

Lemma Init_refines (h : H) :
  Inv h → refines (@Init H I1 h) (@Init H I2 h).
Proof.
  intros Hinv. unfold Init. rewrite <- Len_eq.
  by apply (init_loop_refines (Z.to_nat (@Len H I1 h `quot` 2 - 1 + 1))).
Qed.

Lemma Push_refines (h : H) (x : any) :
  (∀ h1, @Interface.Push H I1 h x = Done h1 → Inv h1) →
  refines (@heap.Push H I1 h x) (@heap.Push H I2 h x).
Proof.
  intros Hinv. unfold heap.Push. rewrite <- Push_eq.
  apply refines_bind; [apply refines_refl|].
  intros h1 Hp. rewrite <- Len_eq.
  apply (up_refines (Z.abs_nat (@Len H I1 h1 - 1))); [lia | by apply Hinv].
Qed.

Lemma Pop_refines (h : H) :
  Inv h → refines (@heap.Pop H I1 h) (@heap.Pop H I2 h).
Proof.
  intros Hinv. unfold heap.Pop. rewrite <- Len_eq, <- Swap_eq.
  apply refines_bind; [apply refines_refl|].
  intros h1 Hs. apply refines_bind.
  - apply down_refines. by eapply Inv_Swap.
  - intros [h2 moved] _. rewrite Pop_eq. apply refines_refl.
Qed.

End Refine.

(** *** Two heap values that the interface does not tell apart

    [R] relates heap values on which [Len] and [Less] agree and which
    [Swap], [Push] and [Pop] keep related.  The functions of the package
    then return on the one when they return on the other, with related
    heaps. *)
Definition sim {A : Type} (RA : A → A → Prop) (x y : exec A) : Prop :=
  match x, y with
  | Done a, Done b => RA a b
  | Panicked, Panicked => True
  | _, _ => False
  end.

Lemma sim_bind {A B : Type} (RA : A → A → Prop) (RB : B → B → Prop)
    (m1 m2 : exec A) (k1 k2 : A → exec B) :
  sim RA m1 m2 → (∀ a b, RA a b → sim RB (k1 a) (k2 b)) →
  sim RB (m1 ≫= k1) (m2 ≫= k2).
Proof. destruct m1, m2; simpl; try done. intros Hab Hk. by apply Hk. Qed.

Lemma sim_Done {A : Type} (RA : A → A → Prop) (x y : exec A) (b : A) :
  sim RA x y → y = Done b → ∃ a, x = Done a ∧ RA a b.
Proof. intros Hs ->. destruct x as [a|]; [by exists a | done]. Qed.

Lemma sim_Panicked {A : Type} (RA : A → A → Prop) (x y : exec A) :
  sim RA x y → y = Panicked → x = Panicked.
Proof. intros Hs ->. by destruct x. Qed.

Section Sim.
Context {H : Type} `{Interface.t H} (R : H → H → Prop).

Hypothesis Len_sim : ∀ h1 h2, R h1 h2 → Len h1 = Len h2.
Hypothesis Less_sim : ∀ h1 h2 i j, R h1 h2 → Less h1 i j = Less h2 i j.
Hypothesis Swap_sim : ∀ h1 h2 i j,
  R h1 h2 → sim R (Swap h1 i j) (Swap h2 i j).
Hypothesis Push_sim : ∀ h1 h2 x,
  R h1 h2 → sim R (Interface.Push h1 x) (Interface.Push h2 x).
Hypothesis Pop_sim : ∀ h1 h2,
  R h1 h2 →
  sim (λ a b, a.1 = b.1 ∧ R a.2 b.2) (Interface.Pop h1) (Interface.Pop h2).

Lemma up_sim (m : nat) : ∀ (h1 h2 : H) (j : Z),
  Z.abs_nat j ≤ m → R h1 h2 → sim R (up h1 j) (up h2 j).
Proof.
  induction m as [|m IH]; intros h1 h2 j Hm HR;
    rewrite !up_step; cbn zeta;
    (destruct (decide (_ = j)) as [|Hne]; [done|]).
  { exfalso. revert Hne. assert (j = 0%Z) as -> by lia. done. }
  rewrite (Less_sim h1 h2) by done.
  destruct (Less h2 j _) as [[]|]; simpl; try done.
  apply (sim_bind R R); [by apply Swap_sim|].
  intros a b Hab. apply IH; [|done].
  clear - Hm Hne. Z.to_euclidean_division_equations. lia.
Qed.

Lemma down_loop_sim (m : nat) : ∀ (h1 h2 : H) (i n : Z),
  Z.to_nat (n - i) ≤ m → R h1 h2 →
  sim (λ a b, R a.1 b.1 ∧ a.2 = b.2) (down_loop h1 i n) (down_loop h2 i n).
Proof.
  induction m as [|m IH]; intros h1 h2 i n Hm HR;
    rewrite !down_loop_step; cbn zeta;
    (destruct (decide (_ ∨ _)) as [Hc|Hc]; [done|]);
    [lia|].
  rewrite !(Less_sim h1 h2) by done.
  destruct (if decide _ then _ else _) as [b|]; simpl; [|done].
  rewrite !(Less_sim h1 h2) by done.
  destruct (Less h2 _ i) as [[]|]; simpl; try done.
  apply (sim_bind R); [by apply Swap_sim|].
  intros a' b' Hab. apply IH; [destruct b; lia | done].
Qed.

Lemma down_sim (h1 h2 : H) (i n : Z) :
  R h1 h2 →
  sim (λ a b, R a.1 b.1 ∧ a.2 = b.2) (down h1 i n) (down h2 i n).
Proof.
  intros HR. unfold down.
  apply (sim_bind (λ a b : H * Z, R a.1 b.1 ∧ a.2 = b.2)).
  - by apply (down_loop_sim (Z.to_nat (n - i))).
  - intros [a ia] [b ib] [Hab Hi]. simpl in *. by subst.
Qed.

Lemma init_loop_sim (m : nat) : ∀ (h1 h2 : H) (i n : Z),
  Z.to_nat (i + 1) ≤ m → R h1 h2 →
  sim R (init_loop h1 i n) (init_loop h2 i n).
Proof.
  induction m as [|m IH]; intros h1 h2 i n Hm HR;
    rewrite !init_loop_step;
    (destruct (decide (i >= 0)%Z) as [Hc|Hc]; [|done]);
    [lia|].
  apply (sim_bind (λ a b : H * bool, R a.1 b.1 ∧ a.2 = b.2));
    [by apply down_sim|].
  intros [a ma] [b mb] [Hab _]. apply IH; [lia | done].
Qed.

Lemma Init_sim (h1 h2 : H) : R h1 h2 → sim R (Init h1) (Init h2).
Proof.
  intros HR. unfold Init. rewrite (Len_sim h1 h2 HR).
  by apply (init_loop_sim (Z.to_nat (Len h2 `quot` 2 - 1 + 1))).
Qed.

Lemma heap_Push_sim (h1 h2 : H) (x : any) :
  R h1 h2 → sim R (heap.Push h1 x) (heap.Push h2 x).
Proof.
  intros HR. unfold heap.Push. apply (sim_bind R); [by apply Push_sim|].
  intros a b Hab. rewrite (Len_sim a b Hab).
  by apply (up_sim (Z.abs_nat (Len b - 1))).
Qed.

Lemma heap_Pop_sim (h1 h2 : H) :
  R h1 h2 →
  sim (λ a b, a.1 = b.1 ∧ R a.2 b.2) (heap.Pop h1) (heap.Pop h2).
Proof.
  intros HR. unfold heap.Pop. rewrite (Len_sim h1 h2 HR).
  apply (sim_bind R); [by apply Swap_sim|].
  intros a b Hab.
  apply (sim_bind (λ a b : H * bool, R a.1 b.1 ∧ a.2 = b.2));
    [by apply down_sim|].
  intros [a' ma] [b' mb] [Hab' _]. by apply Pop_sim.
Qed.

End Sim.
End heap_theory.

(** ** The two orders *)

Lemma Cmp_spec (x y : Z) :
  (big.cmp_values x y = -1 ∧ x < y) ∨ (big.cmp_values x y = 0 ∧ x = y) ∨
  (big.cmp_values x y = 1 ∧ x > y).
Proof. unfold big.cmp_values. destruct (Z.compare_spec x y); lia. Qed.

Lemma BitLen_pos (x : Z) : (big.BitLen x >? 0) = negb (x =? 0).
Proof.
  unfold big.BitLen. destruct (Z.eqb_spec x 0); [done|]. simpl.
  pose proof (Z.log2_nonneg (Z.abs x)). apply Z.gtb_lt. lia.
Qed.

Lemma BitLen_zero (x : Z) : (big.BitLen x =? 0) = (x =? 0).
Proof.
  pose proof (BitLen_pos x) as Hp. unfold big.BitLen in *.
  destruct (Z.eqb_spec x 0); [done|].
  pose proof (Z.log2_nonneg (Z.abs x)). apply Z.eqb_neq. lia.
Qed.

Lemma BigMin_min (x y : Z) : common.BigMin x y = Z.min x y.
Proof.
  unfold common.BigMin. destruct (Cmp_spec x y) as [[-> ?]|[[-> ?]|[-> ?]]];
    simpl; lia.
Qed.

Lemma bool_false_iff (b : bool) (P : Prop) :
  (b = true ↔ P) → (b = false ↔ ¬ P).
Proof. destruct b; intuition congruence. Qed.

(** *** The order of the account queue *)

(** The record carries a gas price. *)
Definition priced (t : Transaction) : bool :=
  match GasPrice t with
  | Some _ => true
  | None => false
  end.

(** [minNonceQueue.Less] compares the gas prices of two records of one
    nonce, and [Cmp] returns for two prices and for two nil pointers: two
    records are compatible unless they have the same nonce and one of
    them only carries a gas price. *)
Definition compatible (a b : Transaction) : bool :=
  negb (Nonce a =? Nonce b)%N || Bool.eqb (priced a) (priced b).

(** Records that are compatible with one another. *)
Definition comparable (l : list Transaction) : bool :=
  forallb (λ a, forallb (compatible a) l) l.

(** What [minNonceQueue.Less] does with the two records it has read. *)
Definition less_records (a b : Transaction) : exec bool :=
  if (Nonce a =? Nonce b)%N
  then big.Cmp (GasPrice a) (GasPrice b) ≫= λ c : Z, Done (c >? 0)
  else Done (Nonce a <? Nonce b)%N.

(** The order of [Less]: nonce ascending, then gas price descending.
    Between a priced and an unpriced record of one nonce [Less] does not
    return; [nil_first] says where an order puts the unpriced records
    among those of their nonce, first or last.  The two orders differ
    nowhere else. *)
Definition price_above (nil_first : bool) (x y : option Z) : bool :=
  match x, y with
  | Some p, Some q => big.cmp_values p q >? 0
  | None, Some _ => nil_first
  | Some _, None => negb nil_first
  | None, None => false
  end.

Definition nonce_before (nil_first : bool) (a b : Transaction) : bool :=
  if (Nonce a =? Nonce b)%N
  then price_above nil_first (GasPrice a) (GasPrice b)
  else (Nonce a <? Nonce b)%N.

Lemma comparable_spec (l : list Transaction) :
  comparable l = true ↔ ∀ a b, a ∈ l → b ∈ l → compatible a b = true.
Proof.
  unfold comparable. rewrite forallb_forall. split.
  - intros Hl a b Ha Hb. apply list_elem_of_In in Ha, Hb.
    specialize (Hl a Ha). rewrite forallb_forall in Hl. by apply Hl.
  - intros Hl a Ha. apply forallb_forall. intros b Hb.
    apply Hl; by apply list_elem_of_In.
Qed.

Lemma comparable_subseteq (l l' : list Transaction) :
  l ⊆ l' → comparable l' = true → comparable l = true.
Proof.
  rewrite !comparable_spec. intros Hsub Hl a b Ha Hb.
  apply Hl; by apply Hsub.
Qed.

Lemma comparable_Permutation (l l' : list Transaction) :
  l ≡ₚ l' → comparable l = comparable l'.
Proof.
  intros Hp.
  destruct (comparable l) eqn:H1, (comparable l') eqn:H2; try done.
  - rewrite <- H2. symmetry. apply (comparable_subseteq l' l); [|done].
    intros x. by rewrite Hp.
  - rewrite <- H1. apply (comparable_subseteq l l'); [|done].
    intros x. by rewrite Hp.
Qed.

Lemma less_records_compatible (nil_first : bool) (a b : Transaction) :
  compatible a b = true →
  less_records a b = Done (nonce_before nil_first a b).
Proof.
  unfold compatible, less_records, nonce_before, priced.
  destruct (Nonce a =? Nonce b)%N; [|done]. simpl.
  destruct (GasPrice a), (GasPrice b); done.
Qed.

Lemma less_records_incompatible (a b : Transaction) :
  compatible a b = false → less_records a b = Panicked.
Proof.
  unfold compatible, less_records, priced.
  destruct (Nonce a =? Nonce b)%N; [|done]. simpl.
  destruct (GasPrice a), (GasPrice b); done.
Qed.

(** Where [Less] returns, the two orders agree with it and with each
    other. *)
Lemma less_records_Done (a b : Transaction) (r : bool) :
  less_records a b = Done r →
  compatible a b = true ∧ ∀ nil_first, nonce_before nil_first a b = r.
Proof.
  intros Hr. destruct (compatible a b) eqn:Hc.
  - split; [done|]. intros nil_first.
    rewrite (less_records_compatible nil_first) in Hr by done. congruence.
  - by rewrite less_records_incompatible in Hr.
Qed.

(** A record that neither order puts before another is compatible with
    it. *)
Lemma not_before_compatible (a b : Transaction) :
  (∀ nil_first, nonce_before nil_first a b = false) → compatible a b = true.
Proof.
  intros Hf. pose proof (Hf true) as Ht. specialize (Hf false).
  unfold nonce_before, compatible, priced in *.
  destruct (Nonce a =? Nonce b)%N; [|done]. simpl.
  destruct (GasPrice a), (GasPrice b); done.
Qed.

Lemma price_above_strict (nil_first : bool) :
  heap_theory.StrictWeak (price_above nil_first).
Proof.
  split.
  - intros [p|]; simpl; [|done].
    destruct (Cmp_spec p p) as [[-> ?]|[[-> ?]|[-> ?]]]; try done; lia.
  - intros [p|] [q|] [r|]; destruct nil_first; simpl; try done.
    all: destruct (Cmp_spec p q) as [[-> ?]|[[-> ?]|[-> ?]]];
      destruct (Cmp_spec q r) as [[-> ?]|[[-> ?]|[-> ?]]];
      destruct (Cmp_spec p r) as [[-> ?]|[[-> ?]|[-> ?]]]; simpl; try done; lia.
  - intros [p|] [q|] [r|]; destruct nil_first; simpl; try done.
    all: destruct (Cmp_spec p q) as [[-> ?]|[[-> ?]|[-> ?]]];
      destruct (Cmp_spec q r) as [[-> ?]|[[-> ?]|[-> ?]]];
      destruct (Cmp_spec p r) as [[-> ?]|[[-> ?]|[-> ?]]]; simpl; try done; lia.
Qed.

Lemma nonce_before_strict (nil_first : bool) :
  heap_theory.StrictWeak (nonce_before nil_first).
Proof.
  pose proof (price_above_strict nil_first) as [Hi Ht Hn].
  unfold nonce_before. split.
  - intros a. rewrite N.eqb_refl. apply Hi.
  - intros a b c.
    destruct (N.eqb_spec (Nonce a) (Nonce b)) as [Hab|Hab];
      destruct (N.eqb_spec (Nonce b) (Nonce c)) as [Hbc|Hbc];
      destruct (N.eqb_spec (Nonce a) (Nonce c)) as [Hac|Hac];
      rewrite ?N.ltb_lt; try lia; try congruence.
    apply Ht.
  - intros a b c.
    destruct (N.eqb_spec (Nonce a) (Nonce b)) as [Hab|Hab];
      destruct (N.eqb_spec (Nonce b) (Nonce c)) as [Hbc|Hbc];
      destruct (N.eqb_spec (Nonce a) (Nonce c)) as [Hac|Hac];
      rewrite ?N.ltb_ge; try lia; try congruence.
    apply Hn.
Qed.

Lemma nonce_before_false (nil_first : bool) (x y : Transaction) :
  nonce_before nil_first y x = false → (Nonce x <= Nonce y)%N.
Proof.
  unfold nonce_before. destruct (N.eqb_spec (Nonce y) (Nonce x)); [lia|].
  rewrite N.ltb_ge. lia.
Qed.

(** *** The order of the priced queue *)

(** The fee fields of the record's type are set: the gas price of a
    record that is not a dynamic-fee record, the two caps of one that
    is. *)
Definition populated (t : Transaction) : bool :=
  match GetGasTipCap t, GetGasFeeCap t with
  | Some _, Some _ => true
  | _, _ => false
  end.

(** The integers behind the two caps of a populated record. *)
Definition tip_value (t : Transaction) : Z := default 0 (GetGasTipCap t).

Definition fee_value (t : Transaction) : Z := default 0 (GetGasFeeCap t).

(** The first tier of [cmp] looks at this number. *)
Definition tier1 (f : Z) (t : Transaction) : Z :=
  if big.BitLen f >? 0
  then common.BigMin (tip_value t) (fee_value t - f)
  else 0.

(** The three tiers of [cmp], compared lexicographically. *)
Definition tiers (a b : Transaction) (f : Z) : Z :=
  if negb (big.cmp_values (tier1 f a) (tier1 f b) =? 0)
  then big.cmp_values (tier1 f a) (tier1 f b)
  else if negb (big.cmp_values (fee_value a) (fee_value b) =? 0)
  then big.cmp_values (fee_value a) (fee_value b)
  else big.cmp_values (tip_value a) (tip_value b).

(** [maxPriceQueue.Less] on two populated records, under the base fee
    [f]. *)
Definition price_before (f : Z) (a b : Transaction) : bool :=
  let c := tiers a b f in
  if c =? -1 then false
  else if c =? 1 then true
  else (Nonce a <? Nonce b)%N.

Lemma populated_caps (t : Transaction) :
  populated t = true →
  GetGasTipCap t = Some (tip_value t) ∧ GetGasFeeCap t = Some (fee_value t).
Proof.
  unfold populated, tip_value, fee_value.
  destruct (GetGasTipCap t), (GetGasFeeCap t); done.
Qed.

Lemma EffectiveGasTip_populated (t : Transaction) (f : Z) :
  populated t = true →
  EffectiveGasTip t (Some f)
    = Done (Some (if big.BitLen f >? 0
                  then common.BigMin (tip_value t) (fee_value t - f)
                  else tip_value t)).
Proof.
  intros Hp. destruct (populated_caps t Hp) as [Ht Hf].
  unfold EffectiveGasTip. rewrite BitLen_zero, BitLen_pos, Ht, Hf.
  by destruct (f =? 0).
Qed.

(** On populated records [cmp] returns, with the comparison of the
    tiers. *)
Lemma cmp_populated (a b : Transaction) (f : Z) :
  populated a = true → populated b = true → cmp a b f = Done (tiers a b f).
Proof.
  intros Ha Hb. unfold cmp, tiers, tier1.
  rewrite !EffectiveGasTip_populated by done.
  destruct (populated_caps a Ha) as [-> ->].
  destruct (populated_caps b Hb) as [-> ->].
  destruct (big.BitLen f >? 0); simpl.
  - destruct (negb (big.cmp_values _ _ =? 0)); [done|].
    destruct (negb (big.cmp_values (fee_value a) _ =? 0)); done.
  - replace (big.cmp_values 0 0) with 0 by done. simpl.
    destruct (negb (big.cmp_values (fee_value a) _ =? 0)); done.
Qed.

Lemma price_before_lex (f : Z) (a b : Transaction) :
  price_before f a b = true ↔
    tier1 f a > tier1 f b ∨
    (tier1 f a = tier1 f b ∧
     (fee_value a > fee_value b ∨
      (fee_value a = fee_value b ∧
       (tip_value a > tip_value b ∨
        (tip_value a = tip_value b ∧ (Nonce a < Nonce b)%N))))).
Proof.
  unfold price_before, tiers. cbn zeta.
  destruct (Cmp_spec (tier1 f a) (tier1 f b)) as [[-> ?]|[[-> ?]|[-> ?]]];
    simpl; [split; [done | lia] | | split; [lia | done]].
  destruct (Cmp_spec (fee_value a) (fee_value b))
    as [[-> ?]|[[-> ?]|[-> ?]]];
    simpl; [split; [done | lia] | | split; [lia | done]].
  destruct (Cmp_spec (tip_value a) (tip_value b))
    as [[-> ?]|[[-> ?]|[-> ?]]];
    simpl; [split; [done | lia] | | split; [lia | done]].
  rewrite N.ltb_lt. lia.
Qed.

Lemma price_before_strict (f : Z) : heap_theory.StrictWeak (price_before f).
Proof.
  split.
  - intros a. apply (bool_false_iff _ _ (price_before_lex f a a)). lia.
  - intros a b c. rewrite !price_before_lex.
    generalize (tier1 f a), (tier1 f b), (tier1 f c). intros. lia.
  - intros a b c.
    rewrite !(bool_false_iff _ _ (price_before_lex _ _ _)).
    generalize (tier1 f a), (tier1 f b), (tier1 f c). intros. lia.
Qed.

Lemma populated_subseteq (l l' : list Transaction) :
  l ⊆ l' → forallb populated l' = true → forallb populated l = true.
Proof.
  rewrite !forallb_forall. intros Hsub Hl x Hx.
  apply Hl, list_elem_of_In, Hsub, list_elem_of_In, Hx.
Qed.

Lemma populated_elem_of (l : list Transaction) (x : Transaction) :
  forallb populated l = true → x ∈ l → populated x = true.
Proof.
  rewrite forallb_forall. intros Hl Hx. by apply Hl, list_elem_of_In.
Qed.

(** Whenever [cmp] returns, also on records with fee fields that are
    nil, it returns the comparison of the tiers. *)
Lemma cmp_Done (a b : Transaction) (f c : Z) :
  cmp a b f = Done c → c = tiers a b f.
Proof.
  unfold cmp, EffectiveGasTip, tiers, tier1, tip_value, fee_value.
  rewrite BitLen_zero, BitLen_pos.
  destruct (GetGasTipCap a) as [ta|], (GetGasFeeCap a) as [fa|],
    (GetGasTipCap b) as [tb|], (GetGasFeeCap b) as [fb|], (f =? 0);
    simpl; try done;
    repeat match goal with
    | |- context [negb (?x =? 0)] => destruct (negb (x =? 0)); simpl
    end;
    try done; by intros [= <-].
Qed.

(** ** Both queues and the laws of a heap

    A queue that holds the records [l] stores the pointers [Some <$> l]. *)

Definition pointers (l : list Transaction) : list (option Transaction) :=
  Some <$> l.

Definition wrap (t : Transaction) : any := AnyTx (Some t).

Lemma index_pointers (l : list Transaction) (i : nat) (a : Transaction) :
  l !! i = Some a → index (pointers l) (Z.of_nat i) ≫= deref = Done a.
Proof.
  intros Hi. rewrite (index_of_nat _ _ (Some a)); [done|].
  unfold pointers. by rewrite list_lookup_fmap, Hi.
Qed.

Lemma exchange_pointers (l : list Transaction) (i j : nat) :
  exchange (pointers l) i j = pointers (exchange l i j).
Proof.
  unfold exchange, pointers. rewrite !list_lookup_fmap.
  destruct (l !! i), (l !! j); simpl; try done.
  by rewrite !list_fmap_insert.
Qed.

Lemma swap_index_pointers (l : list Transaction) (i j : nat) :
  (i < length l)%nat → (j < length l)%nat →
  swap_index (pointers l) (Z.of_nat i) (Z.of_nat j)
    = Done (pointers (exchange l i j)).
Proof.
  intros Hi Hj.
  destruct (lookup_lt_is_Some_2 (pointers l) i) as [a Ha];
    [by unfold pointers; rewrite length_fmap|].
  destruct (lookup_lt_is_Some_2 (pointers l) j) as [b Hb];
    [by unfold pointers; rewrite length_fmap|].
  rewrite (swap_index_exchange _ _ _ a b) by done.
  by rewrite exchange_pointers.
Qed.

Lemma pop_pointers (l : list Transaction) (a : Transaction) :
  let s := pointers (l ++ [a]) in
  index s (Z.of_nat (length s) - 1) = Done (Some a) ∧
  take (Z.to_nat (Z.of_nat (length s) - 1)) s = pointers l.
Proof.
  cbn zeta. unfold pointers. rewrite fmap_app, length_app, length_fmap. simpl.
  replace (Z.of_nat (length l + 1) - 1) with (Z.of_nat (length l)) by lia.
  rewrite Nat2Z.id. split.
  - apply index_of_nat. rewrite lookup_app_r by (by rewrite length_fmap).
    by rewrite length_fmap, Nat.sub_diag.
  - rewrite take_app_length'; [done | by rewrite length_fmap].
Qed.

Lemma pointers_inj (l l' : list Transaction) :
  pointers l = pointers l' → l = l'.
Proof.
  revert l'. induction l as [|x l IH]; intros [|y l']; try done.
  intros [= -> H]. by rewrite (IH l' H).
Qed.

Lemma length_pointers (l : list Transaction) :
  length (pointers l) = length l.
Proof. apply length_fmap. Qed.

(** Reading a record through the slice: out of range it panics,
    otherwise it finds a record of [l]. *)
Lemma read_pointers (l : list Transaction) (i : Z) :
  index (pointers l) i ≫= deref = Panicked ∨
  ∃ a, a ∈ l ∧ index (pointers l) i ≫= deref = Done a.
Proof.
  destruct (index (pointers l) i) as [p|] eqn:Hi; [|by left].
  apply index_Done in Hi as [_ Hi]. unfold pointers in Hi.
  rewrite list_lookup_fmap in Hi.
  destruct (l !! Z.to_nat i) as [a|] eqn:Ha; [|done].
  injection Hi as <-. right. exists a. split; [|done].
  by apply list_elem_of_lookup_2 in Ha.
Qed.

Lemma Swap_pointers (l : list Transaction) (i j : Z)
    (s : list (option Transaction)) :
  swap_index (pointers l) i j = Done s → ∃ l', s = pointers l' ∧ l' ≡ₚ l.
Proof.
  unfold swap_index.
  destruct (index (pointers l) i) as [a|] eqn:Hi; simpl; [|done].
  destruct (index (pointers l) j) as [b|] eqn:Hj; simpl; [|done].
  apply index_Done in Hi as [Hi0 Hi], Hj as [Hj0 Hj]. intros [= <-].
  exists (exchange l (Z.to_nat i) (Z.to_nat j)).
  split; [|apply exchange_Permutation].
  rewrite <- exchange_pointers. unfold exchange. by rewrite Hi, Hj.
Qed.

(** *** The queues with a [Less] that always returns

    The interface of each queue again, with the order in the place of
    [Less]: what the queue is compared with. *)
Module total.

Definition minNonce (nil_first : bool) : heap.Interface.t minNonceQueue.t := {|
  heap.Interface.Len := minNonceQueue.Len;
  heap.Interface.Less := λ q i j,
    a ← index (minNonceQueue.shown q) i ≫= deref;
    b ← index (minNonceQueue.shown q) j ≫= deref;
    Done (nonce_before nil_first a b);
  heap.Interface.Swap := minNonceQueue.Swap;
  heap.Interface.Push := minNonceQueue.Push;
  heap.Interface.Pop := minNonceQueue.Pop;
|}.

Definition maxPrice : heap.Interface.t maxPriceQueue.t := {|
  heap.Interface.Len := maxPriceQueue.Len;
  heap.Interface.Less := λ q i j,
    a ← index (maxPriceQueue.txs q) i ≫= deref;
    b ← index (maxPriceQueue.txs q) j ≫= deref;
    Done (price_before (maxPriceQueue.baseFee q) a b);
  heap.Interface.Swap := maxPriceQueue.Swap;
  heap.Interface.Push := maxPriceQueue.Push;
  heap.Interface.Pop := maxPriceQueue.Pop;
|}.

End total.

(** The queue shows the records [l]. *)
Definition shows (q : minNonceQueue.t) (l : list Transaction) : Prop :=
  minNonceQueue.shown q = pointers l.

Lemma shown_append (q : minNonceQueue.t) (x : option Transaction) :
  minNonceQueue.shown (minNonceQueue.append q x)
    = minNonceQueue.shown q ++ [x].
Proof. unfold minNonceQueue.append. by destruct (minNonceQueue.spare q). Qed.

Lemma minNonce_laws (nil_first : bool) :
  @heap_theory.Laws _ (total.minNonce nil_first) _
    shows (nonce_before nil_first) wrap.
Proof.
  unfold shows. split.
  - intros h l Hq. simpl. unfold minNonceQueue.Len. rewrite Hq.
    unfold pointers. by rewrite length_fmap.
  - intros h l i j a b Hq Hi Hj. simpl. rewrite Hq.
    rewrite (index_pointers l i a Hi), (index_pointers l j b Hj). done.
  - intros h l i j Hq Hi Hj. simpl. unfold minNonceQueue.Swap. rewrite Hq.
    rewrite swap_index_pointers by done. simpl. by eexists.
  - intros h l a Hq. eexists. split; [done|].
    rewrite shown_append, Hq. unfold pointers. by rewrite fmap_app.
  - intros h l a Hq. simpl. unfold minNonceQueue.Pop, minNonceQueue.Len.
    rewrite Hq. destruct (pop_pointers l a) as [-> ->]. simpl.
    by eexists.
  - apply nonce_before_strict.
Qed.

Lemma maxPrice_laws (f : Z) :
  @heap_theory.Laws _ total.maxPrice _
    (λ q l, q = maxPriceQueue.mk f (pointers l)) (price_before f) wrap.
Proof.
  split.
  - intros h l ->. simpl. unfold maxPriceQueue.Len, pointers. simpl.
    by rewrite length_fmap.
  - intros h l i j a b -> Hi Hj. simpl.
    rewrite (index_pointers l i a Hi), (index_pointers l j b Hj). done.
  - intros h l i j -> Hi Hj. eexists. split; [|done].
    simpl. unfold maxPriceQueue.Swap. simpl.
    by rewrite swap_index_pointers.
  - intros h l a ->. eexists. split; [done|].
    unfold pointers. by rewrite fmap_app.
  - intros h l a ->. eexists. split; [|done].
    simpl. unfold maxPriceQueue.Pop. simpl.
    destruct (pop_pointers l a) as [-> ->]. done.
  - apply price_before_strict.
Qed.

(** *** [Less] of the account queue and the two orders *)

(** The slice holds pointers to records that are compatible with one
    another. *)
Definition comparable_slice (q : minNonceQueue.t) : Prop :=
  ∃ l, shows q l ∧ comparable l = true.

Lemma minNonce_Less_partial (nil_first : bool) (q : minNonceQueue.t)
    (i j : Z) :
  heap_theory.refines false (minNonceQueue.Less q i j)
    (@heap.Interface.Less _ (total.minNonce nil_first) q i j).
Proof.
  unfold minNonceQueue.Less. simpl.
  destruct (index (minNonceQueue.shown q) i ≫= deref) as [a|]; simpl;
    [|by left].
  destruct (index (minNonceQueue.shown q) j ≫= deref) as [b|]; simpl;
    [|by left].
  fold (less_records a b). destruct (compatible a b) eqn:Hc.
  - left. by apply less_records_compatible.
  - right. split; [done|]. by apply less_records_incompatible.
Qed.

Lemma minNonce_Less_strict (nil_first : bool) (q : minNonceQueue.t)
    (i j : Z) :
  comparable_slice q →
  heap_theory.refines true (minNonceQueue.Less q i j)
    (@heap.Interface.Less _ (total.minNonce nil_first) q i j).
Proof.
  intros (l & Hq & Hl). left. unfold minNonceQueue.Less. simpl.
  unfold shows in Hq. rewrite !Hq.
  destruct (read_pointers l i) as [->|(a & Ha & ->)]; simpl; [done|].
  rewrite ?Hq.
  destruct (read_pointers l j) as [->|(b & Hb & ->)]; simpl; [done|].
  fold (less_records a b). apply less_records_compatible.
  by apply (proj1 (comparable_spec l) Hl).
Qed.

Lemma comparable_slice_Swap (q q' : minNonceQueue.t) (i j : Z) :
  comparable_slice q → minNonceQueue.Swap q i j = Done q' →
  comparable_slice q'.
Proof.
  intros (l & Hq & Hl). unfold minNonceQueue.Swap. rewrite Hq.
  destruct (swap_index (pointers l) i j) as [s|] eqn:Hs; simpl; [|done].
  intros [= <-]. apply Swap_pointers in Hs as (l' & -> & Hp).
  exists l'. split; [done|]. by rewrite (comparable_Permutation l' l).
Qed.

Section minNonce.
Import heap_theory.
Local Open Scope nat_scope.
Context (q : minNonceQueue.t) (l : list Transaction).
Hypothesis Hq : shows q l.
Hypothesis Hheap : ∀ nil_first, is_heap (nonce_before nil_first) l.

Lemma minNonce_Push_partial (nil_first : bool) (x : any) :
  refines false (heap.Push q x) (@heap.Push _ (total.minNonce nil_first) q x).
Proof.
  apply (Push_refines _ _ false (λ _, True)); try done.
  intros h i j _. apply minNonce_Less_partial.
Qed.

Lemma minNonce_Push_strict (nil_first : bool) (tx : Transaction) :
  comparable (tx :: l) = true →
  heap.Push q (wrap tx) = @heap.Push _ (total.minNonce nil_first) q (wrap tx).
Proof.
  intros Hc.
  destruct (Push_refines minNonceQueue.heap_Interface
              (total.minNonce nil_first) true comparable_slice)
    with (h := q) (x := wrap tx) as [Hr|[? _]]; try done.
  - intros h i j. apply minNonce_Less_strict.
  - intros h i j h'. apply comparable_slice_Swap.
  - intros h1 [= <-]. exists (l ++ [tx]). split.
    + unfold shows. rewrite shown_append, Hq. unfold pointers.
      by rewrite fmap_app.
    + rewrite <- Hc. apply comparable_Permutation.
      by rewrite Permutation_app_comm.
Qed.

Lemma minNonce_Pop_partial (nil_first : bool) :
  refines false (heap.Pop q) (@heap.Pop _ (total.minNonce nil_first) q).
Proof.
  apply (Pop_refines _ _ false (λ _, True)); try done.
  intros h i j _. apply minNonce_Less_partial.
Qed.

Lemma minNonce_Pop_strict (nil_first : bool) :
  comparable l = true →
  heap.Pop q = @heap.Pop _ (total.minNonce nil_first) q.
Proof.
  intros Hc.
  destruct (Pop_refines minNonceQueue.heap_Interface
              (total.minNonce nil_first) true comparable_slice)
    with (h := q) as [Hr|[? _]]; try done.
  - intros h i j. apply minNonce_Less_strict.
  - intros h i j h'. apply comparable_slice_Swap.
  - by exists l.
Qed.

(** [heap.Push] of a record, on a heap of both orders: it returns a
    heap of both orders with the record added, or it panics, which it
    does only when the records are not compatible with one another. *)
Lemma minNonce_Push_spec (tx : Transaction) :
  (heap.Push q (wrap tx) = Panicked ∧ comparable (tx :: l) = false) ∨
  ∃ q' l', heap.Push q (wrap tx) = Done q' ∧ shows q' l' ∧
           l' ≡ₚ tx :: l ∧ ∀ nil_first, is_heap (nonce_before nil_first) l'.
Proof.
  destruct (Push_spec _ _ _ (minNonce_laws false) q l tx Hq (Hheap false))
    as (h0 & l0 & E0 & R0 & Hp0 & Hh0).
  destruct (Push_spec _ _ _ (minNonce_laws true) q l tx Hq (Hheap true))
    as (h1 & l1 & E1 & R1 & Hp1 & Hh1).
  destruct (@heap.Push _ minNonceQueue.heap_Interface q (wrap tx))
    as [h'|] eqn:Hreal.
  - right.
    pose proof (refines_Done _ _ _ _ (minNonce_Push_partial false _) Hreal)
      as H0.
    pose proof (refines_Done _ _ _ _ (minNonce_Push_partial true _) Hreal)
      as H1.
    rewrite E0 in H0. rewrite E1 in H1.
    assert (h0 = h') as -> by congruence.
    assert (h1 = h') as -> by congruence.
    unfold shows in R0, R1. rewrite R0 in R1.
    apply pointers_inj in R1 as <-.
    exists h', l0. split_and!; try done. by intros [].
  - left. split; [done|]. destruct (comparable (tx :: l)) eqn:Hc; [|done].
    rewrite (minNonce_Push_strict false tx Hc), E0 in Hreal. done.
Qed.

Lemma minNonce_Pop_spec :
  l ≠ [] →
  (heap.Pop q = Panicked ∧ comparable l = false) ∨
  ∃ x q' l', heap.Pop q = Done (wrap x, q') ∧ shows q' l' ∧
             l ≡ₚ x :: l' ∧ l !! 0 = Some x ∧
             ∀ nil_first, is_heap (nonce_before nil_first) l'.
Proof.
  intros Hne.
  destruct (Pop_spec _ _ _ (minNonce_laws false) q l Hq (Hheap false) Hne)
    as (x0 & h0 & l0 & E0 & R0 & Hp0 & Hh0 & Hx0).
  destruct (Pop_spec _ _ _ (minNonce_laws true) q l Hq (Hheap true) Hne)
    as (x1 & h1 & l1 & E1 & R1 & Hp1 & Hh1 & Hx1).
  destruct (@heap.Pop _ minNonceQueue.heap_Interface q)
    as [[y h']|] eqn:Hreal.
  - right.
    pose proof (refines_Done _ _ _ _ (minNonce_Pop_partial false) Hreal)
      as H0.
    pose proof (refines_Done _ _ _ _ (minNonce_Pop_partial true) Hreal)
      as H1.
    rewrite E0 in H0. rewrite E1 in H1.
    assert (h0 = h') as -> by congruence.
    assert (h1 = h') as -> by congruence.
    assert (y = wrap x0) as -> by congruence.
    unfold shows in R0, R1. rewrite R0 in R1.
    apply pointers_inj in R1 as <-.
    exists x0, h', l0. split_and!; try done. by intros [].
  - left. split; [done|]. destruct (comparable l) eqn:Hc; [|done].
    rewrite (minNonce_Pop_strict false Hc), E0 in Hreal. done.
Qed.

(** In a heap of both orders [Less] returns for an element and its
    parent, and says that the element does not come first. *)
Lemma minNonce_Less_parent (c : nat) :
  0 < c < length l →
  minNonceQueue.Less q (Z.of_nat c) (Z.of_nat (parent c)) = Done false.
Proof.
  intros Hc. pose proof (parent_lt c) as Hp.
  destruct (lookup_lt_is_Some_2 l c) as [a Ha]; [lia|].
  destruct (lookup_lt_is_Some_2 l (parent c)) as [b Hb]; [lia|].
  unfold minNonceQueue.Less. unfold shows in Hq. rewrite !Hq.
  rewrite (index_pointers l c a Ha). simpl.
  rewrite (index_pointers l (parent c) b Hb).
  simpl. fold (less_records a b).
  assert (∀ nil_first, nonce_before nil_first a b = false) as Hf.
  { intros nil_first. apply (Hheap nil_first c); [lia | lia | done | done]. }
  rewrite (less_records_compatible false); [by rewrite Hf|].
  by apply not_before_compatible.
Qed.

End minNonce.

(** *** [Less] of the priced queue and its order *)

(** The slice holds pointers to populated records. *)
Definition populated_slice (q : maxPriceQueue.t) : Prop :=
  ∃ l, maxPriceQueue.txs q = pointers l ∧ forallb populated l = true.

Lemma maxPrice_Less_strict (q : maxPriceQueue.t) (i j : Z) :
  populated_slice q →
  heap_theory.refines true (maxPriceQueue.Less q i j)
    (@heap.Interface.Less _ total.maxPrice q i j).
Proof.
  intros (l & Hq & Hl). left. unfold maxPriceQueue.Less. simpl. rewrite Hq.
  destruct (read_pointers l i) as [->|(a & Ha & ->)]; simpl; [done|].
  destruct (read_pointers l j) as [->|(b & Hb & ->)]; simpl; [done|].
  rewrite cmp_populated by (by eapply populated_elem_of). done.
Qed.

Lemma populated_slice_Swap (q q' : maxPriceQueue.t) (i j : Z) :
  populated_slice q → maxPriceQueue.Swap q i j = Done q' →
  populated_slice q'.
Proof.
  intros (l & Hq & Hl). unfold maxPriceQueue.Swap. rewrite Hq.
  destruct (swap_index (pointers l) i j) as [s|] eqn:Hs; simpl; [|done].
  intros [= <-]. apply Swap_pointers in Hs as (l' & -> & Hp).
  exists l'. split; [done|]. apply (populated_subseteq l' l); [|done].
  intros x. by rewrite Hp.
Qed.

Section maxPrice.
Import heap_theory.
Local Open Scope nat_scope.
Context (f : Z) (l : list Transaction).
Hypothesis Hpop : forallb populated l = true.

Let q : maxPriceQueue.t := maxPriceQueue.mk f (pointers l).

Lemma maxPrice_Init_spec :
  ∃ l', heap.Init q = Done (maxPriceQueue.mk f (pointers l')) ∧
        l' ≡ₚ l ∧ is_heap (price_before f) l'.
Proof.
  destruct (Init_spec _ _ _ (maxPrice_laws f) q l eq_refl)
    as (h & l' & E & -> & Hp & Hh).
  exists l'. split_and!; try done. rewrite <- E.
  destruct (Init_refines maxPriceQueue.heap_Interface total.maxPrice true
              populated_slice) with (h := q) as [Hr|[? _]]; try done.
  - intros h i j. apply maxPrice_Less_strict.
  - intros h i j h'. apply populated_slice_Swap.
  - by exists l.
Qed.

Lemma maxPrice_Push_spec (tx : Transaction) :
  populated tx = true → is_heap (price_before f) l →
  ∃ l', heap.Push q (wrap tx) = Done (maxPriceQueue.mk f (pointers l')) ∧
        l' ≡ₚ tx :: l ∧ is_heap (price_before f) l'.
Proof.
  intros Htx Hheap.
  destruct (Push_spec _ _ _ (maxPrice_laws f) q l tx eq_refl Hheap)
    as (h & l' & E & -> & Hp & Hh).
  exists l'. split_and!; try done. rewrite <- E.
  destruct (Push_refines maxPriceQueue.heap_Interface total.maxPrice true
              populated_slice) with (h := q) (x := wrap tx) as [Hr|[? _]];
    try done.
  - intros h i j. apply maxPrice_Less_strict.
  - intros h i j h'. apply populated_slice_Swap.
  - intros h1 [= <-]. exists (l ++ [tx]). simpl. split.
    + unfold pointers. by rewrite fmap_app.
    + rewrite forallb_app, Hpop. simpl. by rewrite Htx.
Qed.

Lemma maxPrice_Pop_spec :
  is_heap (price_before f) l → l ≠ [] →
  ∃ x l', heap.Pop q = Done (wrap x, maxPriceQueue.mk f (pointers l')) ∧
          l ≡ₚ x :: l' ∧ l !! 0 = Some x ∧ is_heap (price_before f) l'.
Proof.
  intros Hheap Hne.
  destruct (Pop_spec _ _ _ (maxPrice_laws f) q l eq_refl Hheap Hne)
    as (x & h & l' & E & -> & Hp & Hh & Hx).
  exists x, l'. split_and!; try done. rewrite <- E.
  destruct (Pop_refines maxPriceQueue.heap_Interface total.maxPrice true
              populated_slice) with (h := q) as [Hr|[? _]]; try done.
  - intros h i j. apply maxPrice_Less_strict.
  - intros h i j h'. apply populated_slice_Swap.
  - by exists l.
Qed.

(** In a heap of populated records [Less] returns for an element and
    its parent, and says that the element does not come first. *)
Lemma maxPrice_Less_parent (c : nat) :
  is_heap (price_before f) l → 0 < c < length l →
  maxPriceQueue.Less q (Z.of_nat c) (Z.of_nat (parent c)) = Done false.
Proof.
  intros Hheap Hc. pose proof (parent_lt c) as Hp.
  destruct (lookup_lt_is_Some_2 l c) as [a Ha]; [lia|].
  destruct (lookup_lt_is_Some_2 l (parent c)) as [b Hb]; [lia|].
  unfold maxPriceQueue.Less. simpl.
  rewrite (index_pointers l c a Ha), (index_pointers l (parent c) b Hb).
  simpl. rewrite cmp_populated.
  - simpl. fold (price_before f a b). f_equal.
    apply (Hheap c); [lia | lia | done | done].
  - apply (populated_elem_of l); [done|]. by eapply list_elem_of_lookup_2.
  - apply (populated_elem_of l); [done|]. by eapply list_elem_of_lookup_2.
Qed.

End maxPrice.

(** [up] leaves a queue in heap order as it is; this is what
    [heap.Push] runs into when [Push] has dropped its argument. *)
Lemma minNonce_up_heap (q : minNonceQueue.t) (l : list Transaction) :
  shows q l →
  (∀ nil_first, heap_theory.is_heap (nonce_before nil_first) l) →
  heap.up q (minNonceQueue.Len q - 1) = Done q.
Proof.
  intros Hq Hh. unfold minNonceQueue.Len. rewrite Hq, length_pointers.
  rewrite heap.up_step. cbn zeta.
  destruct (decide (length l = 0)%nat) as [->|Hl0]; [done|].
  destruct (decide (length l = 1)%nat) as [->|Hl1]; [done|].
  replace (Z.of_nat (length l) - 1) with (Z.of_nat (length l - 1)) by lia.
  rewrite heap_theory.parent_quot by lia.
  pose proof (heap_theory.parent_lt (length l - 1)).
  rewrite decide_False by lia. simpl.
  rewrite (minNonce_Less_parent q l Hq Hh) by lia. done.
Qed.

Lemma maxPrice_up_heap (f : Z) (l : list Transaction) :
  forallb populated l = true → heap_theory.is_heap (price_before f) l →
  heap.up (maxPriceQueue.mk f (pointers l))
    (maxPriceQueue.Len (maxPriceQueue.mk f (pointers l)) - 1)
    = Done (maxPriceQueue.mk f (pointers l)).
Proof.
  intros Hl Hh. unfold maxPriceQueue.Len. simpl. rewrite length_pointers.
  rewrite heap.up_step. cbn zeta.
  destruct (decide (length l = 0)%nat) as [->|Hl0]; [done|].
  destruct (decide (length l = 1)%nat) as [->|Hl1]; [done|].
  replace (Z.of_nat (length l) - 1) with (Z.of_nat (length l - 1)) by lia.
  rewrite heap_theory.parent_quot by lia.
  pose proof (heap_theory.parent_lt (length l - 1)).
  rewrite decide_False by lia. simpl.
  rewrite (maxPrice_Less_parent f l Hl) by (done || lia). done.
Qed.

(** ** The account queue *)
Module accountQueue_theory.
Import accountQueue heap_theory.
Local Open Scope nat_scope.

Lemma prune_loop_step (q : t) (nonce : N) (pruned : list (option Transaction)) :
  prune_loop q nonce pruned =
    match peek q with
    | Panicked => Panicked
    | Done None => Done (pruned, q)
    | Done (Some tx) =>
        if decide (Nonce tx >= nonce)%N then Done (pruned, q)
        else match pop q with
             | Panicked => Panicked
             | Done (x, q') => prune_loop q' nonce (pruned ++ [x])
             end
    end.
Proof.
  funelim (prune_loop q nonce pruned);
    match goal with E : peek _ = _ |- _ => rewrite E end;
    rewrite ?decide_True by done; rewrite ?decide_False by done;
    try match goal with E : pop _ = _ |- _ => rewrite E end;
    done.
Qed.

(** [q] holds the records [l], in heap order: no record comes before the
    one at its parent, in either order. *)
Definition holds (q : t) (l : list Transaction) : Prop :=
  shows (queue q) l ∧ ∀ nil_first, is_heap (nonce_before nil_first) l.

(** The operations of the queue, and a queue after a sequence of them;
    what is pushed is a pointer to a record. *)
Inductive op : Type :=
| OpPush (tx : Transaction)
| OpPop
| OpPrune (nonce : N)
| OpClear.

Definition step (q : t) (o : op) : exec t :=
  match o with
  | OpPush tx => push q (Some tx)
  | OpPop => '(_, q') ← pop q; Done q'
  | OpPrune nonce => '(_, q') ← prune q nonce; Done q'
  | OpClear => Done (clear q).2
  end.

Fixpoint run_from (q : t) (ops : list op) : exec t :=
  match ops with
  | [] => Done q
  | o :: ops => q' ← step q o; run_from q' ops
  end.

Definition run (growslice : nat → nat) (ops : list op) : exec t :=
  q ← newAccountQueue growslice; run_from q ops.

(** The records that a sequence of operations pushes. *)
Definition pushed (ops : list op) : list Transaction :=
  flat_map (λ o, match o with OpPush tx => [tx] | _ => [] end) ops.

(** Inclusions between lists put together with [++] and [::]. *)
Ltac elems :=
  intros ?y;
  repeat (rewrite ?elem_of_app, ?elem_of_cons, ?elem_of_nil);
  tauto.

Lemma comparable_false_subseteq (l l' : list Transaction) :
  l ⊆ l' → comparable l = false → comparable l' = false.
Proof.
  intros Hsub Hl. destruct (comparable l') eqn:Hl'; [|done].
  by rewrite (comparable_subseteq l l') in Hl.
Qed.

Lemma newAccountQueue_holds (growslice : nat → nat) :
  ∃ q, newAccountQueue growslice = Done q ∧ holds q [].
Proof.
  eexists. split; [reflexivity|]. split; [done|].
  intros nil_first. apply is_heap_nil.
Qed.

Lemma length_holds (q : t) (l : list Transaction) :
  holds q l → length q = Z.of_nat (List.length l).
Proof.
  intros [Hq _]. unfold length, minNonceQueue.Len.
  unfold shows in Hq. by rewrite Hq, length_pointers.
Qed.

Lemma peek_holds (q : t) (l : list Transaction) :
  holds q l → peek q = Done (head l).
Proof.
  intros Hh. unfold peek. rewrite (length_holds q l Hh).
  destruct Hh as [Hq _]. destruct l as [|x l]; [done|].
  unfold minNonceQueue.Peek, minNonceQueue.Len. unfold shows in Hq.
  rewrite Hq. done.
Qed.

(** [push] of a record adds it, or panics, which it does only when the
    records are not compatible with one another. *)
Lemma push_holds (q : t) (l : list Transaction) (tx : Transaction) :
  holds q l →
  (push q (Some tx) = Panicked ∧ comparable (tx :: l) = false) ∨
  ∃ q' l', push q (Some tx) = Done q' ∧ holds q' l' ∧ l' ≡ₚ tx :: l.
Proof.
  intros [Hq Hh]. unfold push.
  change (AnyTx (Some tx)) with (wrap tx).
  destruct (minNonce_Push_spec (queue q) l Hq Hh tx)
    as [[-> Hc]|(h' & l' & -> & Hq' & Hp & Hh')]; [by left|].
  right. simpl. by exists (with_queue q h'), l'.
Qed.

Lemma pop_holds (q : t) (l : list Transaction) :
  holds q l → l ≠ [] →
  (pop q = Panicked ∧ comparable l = false) ∨
  ∃ x q' l', pop q = Done (Some x, q') ∧ holds q' l' ∧ l ≡ₚ x :: l' ∧
             head l = Some x ∧
             ∀ nil_first y, y ∈ l → nonce_before nil_first y x = false.
Proof.
  intros Hh Hne. unfold pop. rewrite (length_holds q l Hh).
  destruct Hh as [Hq Hh].
  destruct l as [|x0 l0] eqn:Hl; [done|]. rewrite <- Hl in *.
  replace (Z.of_nat (List.length l) =? 0)%Z with false
    by (by rewrite Hl).
  destruct (minNonce_Pop_spec (queue q) l Hq Hh Hne)
    as [[-> Hc]|(x & h' & l' & -> & Hq' & Hp & Hx & Hh')]; [by left|].
  right. simpl. exists x, (with_queue q h'), l'.
  split_and!; try done.
  - by rewrite <- head_lookup in Hx.
  - intros nil_first y Hy.
    by apply (root_minimal _ (nonce_before_strict nil_first) l x).
Qed.

Lemma pop_empty (q : t) : holds q [] → pop q = Done (None, q).
Proof. intros Hh. unfold pop. by rewrite (length_holds q [] Hh). Qed.

Lemma prune_loop_holds (m : nat) :
  ∀ (q : t) (l : list Transaction) (nonce : N) acc,
  List.length l ≤ m → holds q l →
  (prune_loop q nonce acc = Panicked ∧ comparable l = false) ∨
  ∃ removed q' l',
    prune_loop q nonce acc = Done (acc ++ pointers removed, q') ∧
    holds q' l' ∧ l ≡ₚ removed ++ l' ∧
    Forall (λ tx, (Nonce tx < nonce)%N) removed ∧
    Forall (λ tx, (nonce <= Nonce tx)%N) l' ∧
    StronglySorted (λ a b, (Nonce a <= Nonce b)%N) removed.
Proof.
  induction m as [|m IH]; intros q l nonce acc Hm Hh;
    rewrite prune_loop_step, (peek_holds q l Hh).
  { destruct l; [|simpl in Hm; lia]. simpl. right.
    exists [], q, []. rewrite app_nil_r. split_and!; try done; constructor. }
  destruct l as [|x l0] eqn:Hl.
  { simpl. right. exists [], q, []. rewrite app_nil_r.
    split_and!; try done; constructor. }
  rewrite <- Hl in *. replace (head l) with (Some x) by (by rewrite Hl).
  destruct (decide (Nonce x >= nonce)%N) as [Hge|Hlt].
  { right. exists [], q, l. rewrite app_nil_r.
    split_and!; try done; try constructor.
    apply Forall_forall. intros y Hy.
    assert (nonce_before false y x = false) as Hf.
    { destruct Hh as [_ Hh].
      apply (root_minimal _ (nonce_before_strict false) l x); try done.
      by rewrite Hl. }
    apply nonce_before_false in Hf. lia. }
  destruct (pop_holds q l Hh)
    as [[-> Hc]|(x' & q1 & l1 & Hpop & Hh1 & Hp1 & Hx' & Hmin)];
    [by rewrite Hl | by left |].
  assert (x' = x) as -> by (rewrite Hl in Hx'; simpl in Hx'; congruence).
  rewrite Hpop.
  destruct (IH q1 l1 nonce (acc ++ [Some x]))
    as [[-> Hc]|(r & q2 & l2 & -> & Hh2 & Hp2 & Hr & Hl2 & Hs)]; [|done| |].
  - apply Permutation_length in Hp1. simpl in Hp1. lia.
  - left. split; [done|]. apply (comparable_false_subseteq l1); [|done].
    intros y Hy. rewrite Hp1. by apply elem_of_cons; right.
  - right. exists (x :: r), q2, l2. split_and!; try done.
    + by rewrite <- app_assoc.
    + rewrite Hp1, Hp2. done.
    + constructor; [lia | done].
    + constructor; [done|]. apply Forall_forall. intros y Hy.
      apply (nonce_before_false false), Hmin. rewrite Hp1, Hp2.
      apply elem_of_cons. right. apply elem_of_app. by left.
Qed.

Lemma prune_holds (q : t) (l : list Transaction) (nonce : N) :
  holds q l →
  (prune q nonce = Panicked ∧ comparable l = false) ∨
  ∃ removed q' l',
    prune q nonce = Done (pointers removed, q') ∧
    holds q' l' ∧ l ≡ₚ removed ++ l' ∧
    Forall (λ tx, (Nonce tx < nonce)%N) removed ∧
    Forall (λ tx, (nonce <= Nonce tx)%N) l' ∧
    StronglySorted (λ a b, (Nonce a <= Nonce b)%N) removed.
Proof. intros Hh. by apply (prune_loop_holds (List.length l)). Qed.

Lemma clear_holds (q : t) : holds (clear q).2 [].
Proof. split; [done | intros nil_first; apply is_heap_nil]. Qed.

(** A sequence of operations returns, with a queue in heap order that
    holds records that were pushed, or it panics, which it does only
    when the records are not compatible with one another. *)
Lemma run_from_holds (ops : list op) : ∀ (q : t) (l : list Transaction),
  holds q l →
  (run_from q ops = Panicked ∧ comparable (l ++ pushed ops) = false) ∨
  ∃ q' l', run_from q ops = Done q' ∧ holds q' l' ∧ l' ⊆ l ++ pushed ops.
Proof.
  induction ops as [|o ops IH]; intros q l Hh; simpl.
  { right. exists q, l. split_and!; try done. by rewrite app_nil_r. }
  assert (∀ q1 l1, holds q1 l1 → l1 ⊆ l ++ pushed (o :: ops) →
            l1 ++ pushed ops ⊆ l ++ pushed (o :: ops) →
            (run_from q1 ops = Panicked ∧
             comparable (l ++ pushed (o :: ops)) = false) ∨
            ∃ q' l', run_from q1 ops = Done q' ∧ holds q' l' ∧
                     l' ⊆ l ++ pushed (o :: ops)) as Hnext.
  { intros q1 l1 Hh1 _ Hsub.
    destruct (IH q1 l1 Hh1) as [[-> Hc]|(q2 & l2 & -> & Hh2 & Hs2)].
    - left. split; [done|]. by apply (comparable_false_subseteq _ _ Hsub).
    - right. exists q2, l2. split_and!; try done. by etrans. }
  destruct o as [tx| |nonce|]; simpl;
    [change (pushed (OpPush tx :: ops)) with (tx :: pushed ops) in *
    |change (pushed (_ :: ops)) with (pushed ops) in *..].
  - destruct (push_holds q l tx Hh) as [[-> Hc]|(q1 & l1 & -> & Hh1 & Hp1)].
    + left. split; [done|]. apply (comparable_false_subseteq (tx :: l));
        [elems | done].
    + simpl. apply (Hnext q1 l1 Hh1); rewrite Hp1; elems.
  - destruct (decide (l = [])) as [->|Hne].
    + rewrite (pop_empty q Hh). simpl. apply (Hnext q [] Hh); elems.
    + destruct (pop_holds q l Hh Hne)
        as [[-> Hc]|(x & q1 & l1 & -> & Hh1 & Hp1 & _)].
      * left. split; [done|].
        apply (comparable_false_subseteq l); [elems | done].
      * simpl. apply (Hnext q1 l1 Hh1); rewrite Hp1; elems.
  - destruct (prune_holds q l nonce Hh)
      as [[-> Hc]|(r & q1 & l1 & -> & Hh1 & Hp1 & _)].
    + left. split; [done|].
      apply (comparable_false_subseteq l); [elems | done].
    + simpl. apply (Hnext q1 l1 Hh1); rewrite Hp1; elems.
  - apply (Hnext _ [] (clear_holds q)); elems.
Qed.

Lemma run_holds (growslice : nat → nat) (ops : list op) :
  (run growslice ops = Panicked ∧ comparable (pushed ops) = false) ∨
  ∃ q l, run growslice ops = Done q ∧ holds q l ∧ l ⊆ pushed ops.
Proof.
  unfold run. destruct (newAccountQueue_holds growslice) as (q0 & -> & Hh0).
  simpl.
  apply (run_from_holds ops q0 [] Hh0).
Qed.

(** Every queue that a sequence of operations reaches is in heap
    order. *)
Lemma run_Done (growslice : nat → nat) (ops : list op) (q : t) :
  run growslice ops = Done q → ∃ l, holds q l ∧ l ⊆ pushed ops.
Proof.
  intros Hrun.
  destruct (run_holds growslice ops) as [[Hp _]|(q' & l & Hq & Hh & Hs)].
  - by rewrite Hp in Hrun.
  - rewrite Hq in Hrun. injection Hrun as <-. by exists l.
Qed.

(** A sequence of operations on records that are compatible with one
    another returns. *)
Lemma run_comparable (growslice : nat → nat) (ops : list op) :
  comparable (pushed ops) = true →
  ∃ q l, run growslice ops = Done q ∧ holds q l ∧ comparable l = true.
Proof.
  intros Hc.
  destruct (run_holds growslice ops) as [[_ Hp]|(q & l & Hq & Hh & Hs)].
  - by rewrite Hp in Hc.
  - exists q, l. split_and!; try done. by apply (comparable_subseteq _ _ Hs).
Qed.

(** *** The arrays behind the slice do not show

    Two queues that show the same elements return the same and keep
    showing the same elements, whatever their arrays and the capacities
    that the runtime chooses. *)
Definition same_shown (h1 h2 : minNonceQueue.t) : Prop :=
  minNonceQueue.shown h1 = minNonceQueue.shown h2.

Definition alike (q1 q2 : t) : Prop :=
  mu q1 = mu q2 ∧ wLock q1 = wLock q2 ∧ same_shown (queue q1) (queue q2).

Lemma Len_same (h1 h2 : minNonceQueue.t) :
  same_shown h1 h2 → minNonceQueue.Len h1 = minNonceQueue.Len h2.
Proof. unfold minNonceQueue.Len. by intros ->. Qed.

Lemma Less_same (h1 h2 : minNonceQueue.t) (i j : Z) :
  same_shown h1 h2 → minNonceQueue.Less h1 i j = minNonceQueue.Less h2 i j.
Proof. unfold minNonceQueue.Less. by intros ->. Qed.

Lemma Swap_same (h1 h2 : minNonceQueue.t) (i j : Z) :
  same_shown h1 h2 →
  sim same_shown (minNonceQueue.Swap h1 i j) (minNonceQueue.Swap h2 i j).
Proof.
  unfold minNonceQueue.Swap. intros ->.
  by destruct (swap_index (minNonceQueue.shown h2) i j).
Qed.

Lemma Push_same (h1 h2 : minNonceQueue.t) (x : any) :
  same_shown h1 h2 →
  sim same_shown (minNonceQueue.Push h1 x) (minNonceQueue.Push h2 x).
Proof.
  intros Hs. destruct x as [tx|tag]; simpl; [|done].
  unfold same_shown in *. by rewrite !shown_append, Hs.
Qed.

Lemma Pop_same (h1 h2 : minNonceQueue.t) :
  same_shown h1 h2 →
  sim (λ a b, a.1 = b.1 ∧ same_shown a.2 b.2)
    (minNonceQueue.Pop h1) (minNonceQueue.Pop h2).
Proof.
  intros Hs. unfold minNonceQueue.Pop. rewrite (Len_same h1 h2 Hs).
  unfold same_shown in Hs. rewrite Hs.
  by destruct (index (minNonceQueue.shown h2) _).
Qed.

Lemma heap_Push_same (h1 h2 : minNonceQueue.t) (x : any) :
  same_shown h1 h2 → sim same_shown (heap.Push h1 x) (heap.Push h2 x).
Proof.
  apply heap_Push_sim;
    auto using Len_same, Less_same, Swap_same, Push_same.
Qed.

Lemma heap_Pop_same (h1 h2 : minNonceQueue.t) :
  same_shown h1 h2 →
  sim (λ a b, a.1 = b.1 ∧ same_shown a.2 b.2) (heap.Pop h1) (heap.Pop h2).
Proof.
  apply heap_Pop_sim;
    auto using Len_same, Less_same, Swap_same, Pop_same.
Qed.

Lemma length_alike (q1 q2 : t) : alike q1 q2 → length q1 = length q2.
Proof. intros (_ & _ & Hs). by apply Len_same. Qed.

Lemma peek_alike (q1 q2 : t) : alike q1 q2 → peek q1 = peek q2.
Proof.
  intros Ha. unfold peek. rewrite (length_alike q1 q2 Ha).
  destruct Ha as (_ & _ & Hs). unfold minNonceQueue.Peek.
  rewrite (Len_same _ _ Hs). unfold same_shown in Hs. by rewrite Hs.
Qed.

Lemma push_alike (q1 q2 : t) (tx : option Transaction) :
  alike q1 q2 → sim alike (push q1 tx) (push q2 tx).
Proof.
  intros (Hmu & Hw & Hs). unfold push.
  apply (sim_bind same_shown); [by apply heap_Push_same|].
  intros a b Hab. done.
Qed.

Lemma pop_alike (q1 q2 : t) :
  alike q1 q2 → sim (λ a b, a.1 = b.1 ∧ alike a.2 b.2) (pop q1) (pop q2).
Proof.
  intros Ha. unfold pop. rewrite (length_alike q1 q2 Ha).
  destruct (length q2 =? 0)%Z; [done|].
  destruct Ha as (Hmu & Hw & Hs).
  apply (sim_bind (λ a b : any * minNonceQueue.t,
                     a.1 = b.1 ∧ same_shown a.2 b.2));
    [by apply heap_Pop_same|].
  intros [x a] [y b] [Hxy Hab]. simpl in *. subst y. by destruct x.
Qed.

Lemma prune_loop_alike (m : nat) : ∀ (q1 q2 : t) (nonce : N) acc,
  List.length (minNonceQueue.shown (queue q2)) ≤ m → alike q1 q2 →
  sim (λ a b, a.1 = b.1 ∧ alike a.2 b.2)
    (prune_loop q1 nonce acc) (prune_loop q2 nonce acc).
Proof.
  induction m as [|m IH]; intros q1 q2 nonce acc Hm Ha;
    rewrite !prune_loop_step, (peek_alike q1 q2 Ha);
    (destruct (peek q2) as [[tx|]|] eqn:Hpeek; [|done|done]);
    (destruct (decide (Nonce tx >= nonce)%N); [done|]);
    pose proof (pop_alike q1 q2 Ha) as Hpop;
    (destruct (pop q2) as [[y b]|] eqn:Hp2;
       [|by rewrite (sim_Panicked _ _ _ Hpop eq_refl)]);
    destruct (sim_Done _ _ _ _ Hpop eq_refl) as ([x a] & -> & Hxy & Hab);
    simpl in Hxy; subst y; simpl in Hab;
    unfold peek, pop in Hpeek, Hp2;
    (destruct (length q2 =? 0)%Z; [done|]);
    (destruct (heap.Pop (queue q2)) as [[z h]|] eqn:HP; [|done]);
    apply heap_Pop_shrinks in HP;
    (assert (b = with_queue q2 h) as -> by (by destruct z; injection Hp2));
    simpl in *.
  - lia.
  - apply IH; [simpl; lia | done].
Qed.

Lemma prune_alike (q1 q2 : t) (nonce : N) :
  alike q1 q2 →
  sim (λ a b, a.1 = b.1 ∧ alike a.2 b.2) (prune q1 nonce) (prune q2 nonce).
Proof.
  intros Ha.
  by apply (prune_loop_alike
              (List.length (minNonceQueue.shown (queue q2))) q1 q2 nonce []).
Qed.

Lemma step_alike (q1 q2 : t) (o : op) :
  alike q1 q2 → sim alike (step q1 o) (step q2 o).
Proof.
  intros Ha. destruct o as [tx| |nonce|]; simpl.
  - by apply push_alike.
  - apply (sim_bind (λ a b : option Transaction * t,
                       a.1 = b.1 ∧ alike a.2 b.2)); [by apply pop_alike|].
    by intros [x a] [y b] [_ Hab].
  - apply (sim_bind (λ a b : list (option Transaction) * t,
                       a.1 = b.1 ∧ alike a.2 b.2)); [by apply prune_alike|].
    by intros [x a] [y b] [_ Hab].
  - by destruct Ha as (Hmu & Hw & _).
Qed.

Lemma run_from_alike (ops : list op) : ∀ q1 q2 : t,
  alike q1 q2 → sim alike (run_from q1 ops) (run_from q2 ops).
Proof.
  induction ops as [|o ops IH]; intros q1 q2 Ha; simpl; [done|].
  apply (sim_bind alike); [by apply step_alike | done].
Qed.

(** What a sequence of operations returns and shows does not depend on
    the runtime's choice of capacities. *)
Lemma run_alike (growslice growslice' : nat → nat) (ops : list op) :
  sim alike (run growslice ops) (run growslice' ops).
Proof.
  unfold run.
  destruct (newAccountQueue_holds growslice) as (q0 & E0 & _).
  destruct (newAccountQueue_holds growslice') as (q0' & E0' & _).
  rewrite E0, E0'. simpl. apply run_from_alike.
  revert E0 E0'. unfold newAccountQueue.
  change (heap.Init (minNonceQueue.make growslice))
    with (Done (minNonceQueue.make growslice)).
  change (heap.Init (minNonceQueue.make growslice'))
    with (Done (minNonceQueue.make growslice')).
  simpl. by intros [= <-] [= <-].
Qed.

End accountQueue_theory.

(** ** The priced queue *)
Module pricedQueue_theory.
Import pricedQueue heap_theory.
Local Open Scope nat_scope.

(** [q] holds the populated records [l], in heap order under the base
    fee [f]. *)
Definition holds (f : Z) (q : t) (l : list Transaction) : Prop :=
  queue q = maxPriceQueue.mk f (pointers l) ∧
  is_heap (price_before f) l ∧ forallb populated l = true.

(** Pushing a batch, one record after the other. *)
Fixpoint pushes (q : t) (txs : list (option Transaction)) : exec t :=
  match txs with
  | [] => Done q
  | tx :: txs => q' ← push q tx; pushes q' txs
  end.

(** [n] calls of [pop]: what they return, and the queue left. *)
Fixpoint pops (n : nat) (q : t) : exec (list (option Transaction) * t) :=
  match n with
  | O => Done ([], q)
  | S n =>
      '(x, q1) ← pop q;
      '(xs, q2) ← pops n q1;
      Done (x :: xs, q2)
  end.

(** Popping until the queue is empty. *)
Definition drain (q : t) : exec (list (option Transaction) * t) :=
  pops (Z.to_nat (length q)) q.

(** The pop sequence of a queue constructed from [initialTxs] under
    [baseFee] into which [pushed] has been pushed. *)
Definition pop_sequence (baseFee : N)
    (initialTxs pushed : list (option Transaction))
  : exec (list (option Transaction)) :=
  q ← newPricesQueue baseFee initialTxs;
  q ← pushes q pushed;
  '(xs, _) ← drain q;
  Done xs.

(** Later in the pop sequence means: does not come before. *)
Definition popped_in_order (f : Z) (s : list Transaction) : Prop :=
  StronglySorted (λ a b, price_before f b a = false) s.

Lemma populated_Permutation (l l' : list Transaction) :
  l ≡ₚ l' → forallb populated l' = true → forallb populated l = true.
Proof. intros Hp. apply populated_subseteq. intros x. by rewrite Hp. Qed.

Lemma newPricesQueue_holds (baseFee : N) (l : list Transaction) :
  forallb populated l = true →
  ∃ q l', newPricesQueue baseFee (pointers l) = Done q ∧
          holds (Z.of_N baseFee) q l' ∧ l' ≡ₚ l.
Proof.
  intros Hl. unfold newPricesQueue, big.SetUint64.
  destruct (maxPrice_Init_spec (Z.of_N baseFee) l Hl) as (l' & -> & Hp & Hh).
  simpl. eexists _, l'. split; [reflexivity|]. split; [|done].
  split_and!; try done. by apply (populated_Permutation l' l).
Qed.

Lemma priced_length_holds (f : Z) (q : t) (l : list Transaction) :
  holds f q l → length q = Z.of_nat (List.length l).
Proof.
  intros [Hq _]. unfold length, maxPriceQueue.Len. rewrite Hq. simpl.
  by rewrite length_pointers.
Qed.

Lemma priced_push_holds (f : Z) (q : t) (l : list Transaction)
    (tx : Transaction) :
  holds f q l → populated tx = true →
  ∃ q' l', push q (Some tx) = Done q' ∧ holds f q' l' ∧ l' ≡ₚ tx :: l.
Proof.
  intros (Hq & Hh & Hl) Htx. unfold push. rewrite Hq.
  change (AnyTx (Some tx)) with (wrap tx).
  destruct (maxPrice_Push_spec f l Hl tx Htx Hh) as (l' & -> & Hp & Hh').
  simpl. exists (mk (maxPriceQueue.mk f (pointers l'))), l'.
  split; [done|]. split; [|done]. split_and!; try done.
  apply (populated_Permutation l' (tx :: l) Hp). simpl. by rewrite Htx.
Qed.

Lemma priced_pop_holds (f : Z) (q : t) (l : list Transaction) :
  holds f q l → l ≠ [] →
  ∃ x q' l', pop q = Done (Some x, q') ∧ holds f q' l' ∧ l ≡ₚ x :: l' ∧
             head l = Some x ∧ ∀ y, y ∈ l → price_before f y x = false.
Proof.
  intros Hh Hne. unfold pop. rewrite (priced_length_holds f q l Hh).
  destruct Hh as (Hq & Hh & Hl). rewrite Hq.
  destruct (maxPrice_Pop_spec f l Hl Hh Hne) as (x & l' & -> & Hp & Hx & Hh').
  destruct l as [|x0 l0] eqn:El; [done|]. rewrite <- El in *.
  replace (Z.of_nat (List.length l) =? 0)%Z with false by (by rewrite El).
  simpl. exists x, (mk (maxPriceQueue.mk f (pointers l'))), l'.
  split; [done|]. split; [|split_and!; try done].
  - split_and!; try done. apply (populated_subseteq l' l); [|done].
    intros y Hy. rewrite Hp. by apply elem_of_cons; right.
  - by rewrite <- head_lookup in Hx.
  - by apply (root_minimal _ (price_before_strict f)).
Qed.

Lemma priced_pop_empty (f : Z) (q : t) : holds f q [] → pop q = Done (None, q).
Proof. intros Hh. unfold pop. by rewrite (priced_length_holds f q [] Hh). Qed.

Lemma pushes_holds (f : Z) (p : list Transaction) :
  forallb populated p = true →
  ∀ (q : t) (l : list Transaction), holds f q l →
  ∃ q' l', pushes q (pointers p) = Done q' ∧ holds f q' l' ∧ l' ≡ₚ l ++ p.
Proof.
  induction p as [|tx p IH]; intros Hp q l Hh; simpl.
  { exists q, l. by rewrite app_nil_r. }
  simpl in Hp. apply andb_true_iff in Hp as [Htx Hp].
  destruct (priced_push_holds f q l tx Hh Htx) as (q1 & l1 & -> & Hh1 & Hp1).
  simpl. destruct (IH Hp q1 l1 Hh1) as (q2 & l2 & -> & Hh2 & Hp2).
  exists q2, l2. split_and!; try done.
  rewrite Hp2, Hp1. simpl. apply Permutation_middle.
Qed.

Lemma pops_holds (f : Z) (n : nat) :
  ∀ (q : t) (l : list Transaction), List.length l = n → holds f q l →
  ∃ s q', pops n q = Done (pointers s, q') ∧ holds f q' [] ∧ s ≡ₚ l ∧
          popped_in_order f s.
Proof.
  induction n as [|n IH]; intros q l Hn Hh; simpl.
  { destruct l; [|done]. exists [], q. split_and!; try done. constructor. }
  destruct (priced_pop_holds f q l Hh)
    as (x & q1 & l1 & -> & Hh1 & Hp1 & _ & Hmin).
  { by destruct l. }
  simpl.
  destruct (IH q1 l1) as (s & q2 & -> & Hh2 & Hp2 & Hs); [|done|].
  { apply Permutation_length in Hp1. simpl in Hp1. lia. }
  simpl. exists (x :: s), q2. split_and!; try done.
  - by rewrite Hp1, Hp2.
  - constructor; [done|]. apply Forall_forall. intros y Hy.
    apply Hmin. rewrite Hp1, <- Hp2. by apply elem_of_cons; right.
Qed.

Lemma pop_sequence_sorted (baseFee : N) (initialTxs pushed : list Transaction) :
  forallb populated (initialTxs ++ pushed) = true →
  ∃ s, pop_sequence baseFee (pointers initialTxs) (pointers pushed)
         = Done (pointers s) ∧
       s ≡ₚ initialTxs ++ pushed ∧ popped_in_order (Z.of_N baseFee) s.
Proof.
  rewrite forallb_app. intros [Hi Hpu]%andb_true_iff. unfold pop_sequence.
  destruct (newPricesQueue_holds baseFee initialTxs Hi)
    as (q0 & l0 & -> & Hh0 & Hp0).
  simpl.
  destruct (pushes_holds _ pushed Hpu q0 l0 Hh0) as (q1 & l1 & -> & Hh1 & Hp1).
  simpl. unfold drain. rewrite (priced_length_holds _ q1 l1 Hh1), Nat2Z.id.
  destruct (pops_holds _ _ q1 l1 eq_refl Hh1) as (s & q2 & -> & _ & Hp2 & Hs).
  simpl. exists s. split_and!; try done. by rewrite Hp2, Hp1, Hp0.
Qed.

(** The operations of the queue, and a queue constructed from
    [initialTxs] under [baseFee] after a sequence of them. *)
Inductive op : Type :=
| OpPush (tx : Transaction)
| OpPop.

Definition step (q : t) (o : op) : exec t :=
  match o with
  | OpPush tx => push q (Some tx)
  | OpPop => '(_, q') ← pop q; Done q'
  end.

Fixpoint run_from (q : t) (ops : list op) : exec t :=
  match ops with
  | [] => Done q
  | o :: ops => q' ← step q o; run_from q' ops
  end.

Definition run (baseFee : N) (initialTxs : list Transaction)
    (ops : list op) : exec t :=
  q ← newPricesQueue baseFee (pointers initialTxs); run_from q ops.

(** The records that a sequence of operations pushes. *)
Definition pushed (ops : list op) : list Transaction :=
  flat_map (λ o, match o with OpPush tx => [tx] | OpPop => [] end) ops.

Lemma priced_run_from_holds (f : Z) (ops : list op) :
  forallb populated (pushed ops) = true →
  ∀ (q : t) (l : list Transaction),
  holds f q l → ∃ q' l', run_from q ops = Done q' ∧ holds f q' l'.
Proof.
  induction ops as [|o ops IH]; intros Hp q l Hh; simpl.
  { by exists q, l. }
  destruct o as [tx|]; simpl.
  - change (pushed (OpPush tx :: ops)) with (tx :: pushed ops) in Hp.
    simpl in Hp. apply andb_true_iff in Hp as [Htx Hp].
    destruct (priced_push_holds f q l tx Hh Htx) as (q1 & l1 & -> & Hh1 & _).
    simpl. by apply (IH Hp q1 l1).
  - change (pushed (OpPop :: ops)) with (pushed ops) in Hp.
    destruct (decide (l = [])) as [->|Hne].
    + rewrite (priced_pop_empty f q Hh). simpl. by apply (IH Hp q []).
    + destruct (priced_pop_holds f q l Hh Hne) as (x & q1 & l1 & -> & Hh1 & _).
      simpl. by apply (IH Hp q1 l1).
Qed.

Lemma priced_run_holds (baseFee : N) (initialTxs : list Transaction)
    (ops : list op) :
  forallb populated (initialTxs ++ pushed ops) = true →
  ∃ q l, run baseFee initialTxs ops = Done q ∧ holds (Z.of_N baseFee) q l.
Proof.
  rewrite forallb_app. intros [Hi Hp]%andb_true_iff. unfold run.
  destruct (newPricesQueue_holds baseFee initialTxs Hi)
    as (q0 & l0 & -> & Hh0 & _).
  simpl. by apply (priced_run_from_holds _ ops Hp q0 l0).
Qed.

End pricedQueue_theory.

(** * The claims *)

(** ** The comparator *)

Lemma tip_value_spec (t : Transaction) : tip_value t = Spec.tipCap t.
Proof.
  unfold tip_value, Spec.tipCap, GetGasTipCap.
  by destruct (N.eqb (Type_ t) DynamicFeeTx).
Qed.

Lemma fee_value_spec (t : Transaction) : fee_value t = Spec.feeCap t.
Proof.
  unfold fee_value, Spec.feeCap, GetGasFeeCap.
  by destruct (N.eqb (Type_ t) DynamicFeeTx).
Qed.

Lemma tier1_spec (baseFee : N) (t : Transaction) :
  tier1 (Z.of_N baseFee) t =
    if 0 <? Z.of_N baseFee then Spec.effectiveTip t (Z.of_N baseFee) else 0.
Proof.
  unfold tier1, Spec.effectiveTip.
  rewrite BitLen_pos, BigMin_min, tip_value_spec, fee_value_spec.
  destruct (Z.eqb_spec (Z.of_N baseFee) 0) as [->|Hne]; [done|]. simpl.
  destruct (Z.ltb_spec 0 (Z.of_N baseFee)); [done | lia].
Qed.

Lemma Cmp_as_int (x y : Z) : big.cmp_values x y = Spec.as_int (x ?= y).
Proof. unfold big.cmp_values. by destruct (x ?= y). Qed.

Lemma tiers_spec (a b : Transaction) (baseFee : N) :
  tiers a b (Z.of_N baseFee)
    = Spec.as_int (Spec.price_tiers a b (Z.of_N baseFee)).
Proof.
  unfold tiers. rewrite !tier1_spec, !tip_value_spec, !fee_value_spec.
  unfold Spec.price_tiers, Spec.larger_wins. rewrite !Cmp_as_int.
  destruct (0 <? Z.of_N baseFee).
  - destruct (_ ?= _); [|done..]. simpl.
    destruct (Spec.feeCap a ?= Spec.feeCap b); done.
  - simpl. destruct (Spec.feeCap a ?= Spec.feeCap b); done.
Qed.

(** C1: [cmp a b baseFee], with the base fee of a queue (a [uint64] turned
    into a [big.Int]), is the comparison of the three price tiers of
    section 4.2: the effective tips [min(tipCap, feeCap - baseFee)] when
    [baseFee > 0], then the fee caps, then the tip caps, the larger side
    winning at each tier (+1 when [a] wins, -1 when [b] wins, 0 for a tie
    on all three); a record that is not a dynamic-fee record has its gas
    price for both caps.  [cmp] returns this for every two records whose
    fee representation is populated, and it never returns anything
    else. *)
Theorem cmp_price_tiers (a b : Transaction) (baseFee : N) :
  (populated a = true → populated b = true →
   cmp a b (big.SetUint64 baseFee)
     = Done (Spec.as_int (Spec.price_tiers a b (Z.of_N baseFee)))) ∧
  (∀ c, cmp a b (big.SetUint64 baseFee) = Done c →
        c = Spec.as_int (Spec.price_tiers a b (Z.of_N baseFee))).
Proof.
  unfold big.SetUint64. split.
  - intros Ha Hb. by rewrite cmp_populated, tiers_spec.
  - intros c Hc. by rewrite (cmp_Done a b _ c Hc), tiers_spec.
Qed.

(** The comparator of section 4.2, nonce tie-break included, is the
    order of [maxPriceQueue.Less]. *)
Lemma ranks_higher_price_before (baseFee : N) (a b : Transaction) :
  Spec.ranks_higher (Z.of_N baseFee) a b ↔
  price_before (Z.of_N baseFee) a b = true.
Proof.
  rewrite price_before_lex, !tier1_spec, !tip_value_spec, !fee_value_spec.
  unfold Spec.ranks_higher, Spec.compare, Spec.price_tiers, Spec.larger_wins.
  destruct (0 <? Z.of_N baseFee);
    repeat match goal with
    | |- context [?x ?= ?y] => destruct (Z.compare_spec x y); simpl
    end;
    rewrite ?N.compare_gt_iff; split; intros; try done; lia.
Qed.



(** A state transaction, with caps that differ from its gas price. *)
Definition state_tx_example : Transaction :=
  {| Nonce := 4; GasPrice := Some 30; GasTipCap := Some 7;
     GasFeeCap := Some 90; Gas := 21000; To := None; Value := Some 0;
     Hash := 1; From_ := 1; Type_ := StateTx |}.


(** Records for the examples: a legacy record carries a gas price and no
    caps, a dynamic-fee record the two caps and no gas price. *)
Definition legacy (nonce : N) (gasPrice : Z) : Transaction :=
  {| Nonce := nonce; GasPrice := Some gasPrice; GasTipCap := None;
     GasFeeCap := None; Gas := 21000; To := None; Value := Some 0;
     Hash := nonce; From_ := 1; Type_ := LegacyTx |}.

Definition dynamic_fee (nonce hash : N) (feeCap tipCap : Z) : Transaction :=
  {| Nonce := nonce; GasPrice := None; GasTipCap := Some tipCap;
     GasFeeCap := Some feeCap; Gas := 21000; To := None; Value := Some 0;
     Hash := hash; From_ := hash; Type_ := DynamicFeeTx |}.

(** ** The pop order of the priced queue *)
Module pop_order.
Import pricedQueue pricedQueue_theory.
Local Open Scope nat_scope.

Lemma popped_in_order_lookup (f : Z) (s : list Transaction) :
  popped_in_order f s →
  ∀ i j a b, s !! i = Some a → s !! j = Some b → i < j →
    price_before f b a = false.
Proof.
  induction 1 as [|x s Hs IH Hx]; intros i j a b Hi Hj Hij; [done|].
  destruct j as [|j]; [lia|]. simpl in Hj.
  destruct i as [|i]; simpl in Hi.
  - injection Hi as <-. rewrite Forall_forall in Hx.
    apply Hx. by apply list_elem_of_lookup_2 in Hj.
  - apply (IH i j); [done..|lia].
Qed.

Lemma order_of_pops (f : Z) (s : list Transaction) :
  popped_in_order f s →
  ∀ i j a b, s !! i = Some a → s !! j = Some b →
    (price_before f a b = true → i < j) ∧
    (i < j → price_before f b a = false).
Proof.
  intros Ho i j a b Hi Hj. split.
  - intros Hab.
    destruct (decide (i < j)) as [|Hge]; [done|].
    destruct (decide (i = j)) as [->|Hne].
    + rewrite Hi in Hj. injection Hj as <-.
      by rewrite (heap_theory.lt_irrefl _ (price_before_strict _)) in Hab.
    + rewrite (popped_in_order_lookup _ s Ho j i b a) in Hab; [done..|lia].
  - intros Hij. by apply (popped_in_order_lookup _ s Ho i j a b).
Qed.

(** Two records with the same economic terms and the same nonce, from two
    senders. *)
Definition tie_a : Transaction := dynamic_fee 0 1 150 80.

Definition tie_b : Transaction := dynamic_fee 0 2 150 80.

(** Two records of one sender with the same economic terms. *)
Definition nonce_1 : Transaction := dynamic_fee 1 1 150 80.

Definition nonce_2 : Transaction := dynamic_fee 2 2 150 80.

(** The records of scenarios 3 and 4 of the specification. *)
Definition dynamic (hash : N) (feeCap tipCap : Z) : Transaction :=
  dynamic_fee 0 hash feeCap tipCap.

(** The claim C2 as the specification states it, for one construction:
    [a] is popped before [b] if and only if the comparator ranks [a]
    higher. *)
Definition pop_order_iff_ranking (baseFee : N)
    (initialTxs pushed : list Transaction) : Prop :=
  ∀ s, pop_sequence baseFee (pointers initialTxs) (pointers pushed)
         = Done (pointers s) →
  ∀ i j a b, s !! i = Some a → s !! j = Some b →
    (i < j ↔ Spec.ranks_higher (Z.of_N baseFee) a b).

(** Two tied records are popped one after the other, and the comparator
    ranks neither higher. *)
Lemma pop_order_iff_ranking_fails :
  ¬ pop_order_iff_ranking 0 [tie_a; tie_b] [].
Proof.
  intros Hc.
  destruct (Hc [tie_a; tie_b] eq_refl 0 1 tie_a tie_b eq_refl eq_refl)
    as [Hr _].
  specialize (Hr ltac:(lia)). discriminate Hr.
Qed.

(** C2 (amended): in the pop sequence of a queue constructed with a fixed
    base fee from records whose fee representation is populated, a record
    that the comparator of section 4.2 ranks higher than another is popped
    before it, and a record popped before another is not ranked lower than
    it; the pop sequence holds exactly the records put into the queue. *)
Theorem pop_order_follows_ranking (baseFee : N)
    (initialTxs pushed : list Transaction) :
  forallb populated (initialTxs ++ pushed) = true →
  ∃ s, pop_sequence baseFee (pointers initialTxs) (pointers pushed)
         = Done (pointers s) ∧
       s ≡ₚ initialTxs ++ pushed ∧
       ∀ i j a b, s !! i = Some a → s !! j = Some b →
         (Spec.ranks_higher (Z.of_N baseFee) a b → i < j) ∧
         (i < j → ¬ Spec.ranks_higher (Z.of_N baseFee) b a).
Proof.
  intros Hpop.
  destruct (pop_sequence_sorted baseFee initialTxs pushed Hpop)
    as (s & Hs & Hp & Ho).
  exists s. split_and!; try done. intros i j a b Hi Hj.
  rewrite !ranks_higher_price_before.
  destruct (order_of_pops _ s Ho i j a b Hi Hj) as [H1 H2].
  split; [done|]. intros Hij. by rewrite (H2 Hij).
Qed.

Lemma pop_order_follows_ranking_witness :
  forallb populated ([dynamic 2 150 80; legacy 3 40] ++ [dynamic 1 200 50])
    = true ∧
  ∃ s, pop_sequence 100 (pointers [dynamic 2 150 80; legacy 3 40])
         (pointers [dynamic 1 200 50])
         = Done (pointers s) ∧
       s ≡ₚ [dynamic 2 150 80; legacy 3 40] ++ [dynamic 1 200 50] ∧
       ∀ i j a b, s !! i = Some a → s !! j = Some b →
         (Spec.ranks_higher (Z.of_N 100) a b → i < j) ∧
         (i < j → ¬ Spec.ranks_higher (Z.of_N 100) b a).
Proof.
  split; [reflexivity|].
  apply (pop_order_follows_ranking 100 [dynamic 2 150 80; legacy 3 40]
           [dynamic 1 200 50]).
  reflexivity.
Defined.

(** C5: when [cmp] finds two records tied on effective tips, fee caps and
    tip caps, the one with the lower nonce is ranked higher -- [Less] is
    true with it on the left, and the comparator of section 4.2 ranks it
    higher -- and it is popped first from every queue that holds both. *)
Theorem full_tie_lower_nonce_first (baseFee : N)
    (initialTxs pushed : list Transaction) (a b : Transaction) :
  cmp a b (big.SetUint64 baseFee) = Done 0%Z →
  (Nonce a < Nonce b)%N →
  forallb populated (initialTxs ++ pushed) = true →
  maxPriceQueue.Less
    (maxPriceQueue.mk (big.SetUint64 baseFee) [Some a; Some b]) 0 1
    = Done true ∧
  Spec.ranks_higher (Z.of_N baseFee) a b ∧
  ∃ s, pop_sequence baseFee (pointers initialTxs) (pointers pushed)
         = Done (pointers s) ∧
       s ≡ₚ initialTxs ++ pushed ∧
       ∀ i j, s !! i = Some a → s !! j = Some b → i < j.
Proof.
  intros Hc Hn Hpop.
  assert (price_before (Z.of_N baseFee) a b = true) as Hlt.
  { unfold price_before. cbn zeta. unfold big.SetUint64 in Hc.
    rewrite <- (cmp_Done a b _ 0%Z Hc). simpl. by apply N.ltb_lt. }
  split_and!.
  - unfold maxPriceQueue.Less. simpl. rewrite Hc. simpl.
    f_equal. by apply N.ltb_lt.
  - by apply ranks_higher_price_before.
  - destruct (pop_sequence_sorted baseFee initialTxs pushed Hpop)
      as (s & Hs & Hp & Ho).
    exists s. split_and!; try done. intros i j Hi Hj.
    by apply (order_of_pops _ s Ho i j a b Hi Hj).
Qed.

Lemma full_tie_lower_nonce_first_witness :
  cmp nonce_1 nonce_2 (big.SetUint64 100) = Done 0%Z ∧
  (Nonce nonce_1 < Nonce nonce_2)%N ∧
  forallb populated ([nonce_2; nonce_1] ++ []) = true ∧
  maxPriceQueue.Less
    (maxPriceQueue.mk (big.SetUint64 100) [Some nonce_1; Some nonce_2]) 0 1
    = Done true ∧
  Spec.ranks_higher (Z.of_N 100) nonce_1 nonce_2 ∧
  ∃ s, pop_sequence 100 (pointers [nonce_2; nonce_1]) (pointers [])
         = Done (pointers s) ∧
       s ≡ₚ [nonce_2; nonce_1] ++ [] ∧
       ∀ i j, s !! i = Some nonce_1 → s !! j = Some nonce_2 → i < j.
Proof.
  split; [reflexivity|]. split; [reflexivity|]. split; [reflexivity|].
  apply (full_tie_lower_nonce_first 100 [nonce_2; nonce_1] [] nonce_1 nonce_2);
    reflexivity.
Defined.

(** No two different records of [l] are tied: they differ in what the
    comparator looks at. *)
Definition tie_free (f : Z) (l : list Transaction) : bool :=
  forallb (λ a,
    forallb (λ b,
      bool_decide (a = b) ||
      negb (bool_decide (Spec.terms f a = Spec.terms f b))) l) l.

Definition terms_before (k1 k2 : Z * Z * Z * N) : Prop :=
  (k1.1.1.1 > k2.1.1.1)%Z ∨
  (k1.1.1.1 = k2.1.1.1 ∧
   ((k1.1.1.2 > k2.1.1.2)%Z ∨
    (k1.1.1.2 = k2.1.1.2 ∧
     ((k1.1.2 > k2.1.2)%Z ∨
      (k1.1.2 = k2.1.2 ∧ (k1.2 < k2.2)%N))))).

Lemma price_before_terms (baseFee : N) (a b : Transaction) :
  price_before (Z.of_N baseFee) a b = true ↔
  terms_before (Spec.terms (Z.of_N baseFee) a) (Spec.terms (Z.of_N baseFee) b).
Proof.
  rewrite price_before_lex, !tier1_spec, !tip_value_spec, !fee_value_spec.
  unfold terms_before, Spec.terms. simpl. done.
Qed.

Lemma terms_tied (k1 k2 : Z * Z * Z * N) :
  ¬ terms_before k1 k2 → ¬ terms_before k2 k1 → k1 = k2.
Proof.
  destruct k1 as [[[t1 f1] c1] n1], k2 as [[[t2 f2] c2] n2].
  unfold terms_before. simpl. intros H1 H2.
  assert (t1 = t2) as -> by lia. assert (f1 = f2) as -> by lia.
  assert (c1 = c2) as -> by lia. assert (n1 = n2) as -> by lia. done.
Qed.

Lemma tie_free_spec (baseFee : N) (l : list Transaction) (a b : Transaction) :
  tie_free (Z.of_N baseFee) l = true → a ∈ l → b ∈ l →
  price_before (Z.of_N baseFee) a b = false →
  price_before (Z.of_N baseFee) b a = false → a = b.
Proof.
  unfold tie_free. rewrite forallb_forall. intros Hl Ha Hb Hab Hba.
  apply list_elem_of_In in Ha, Hb.
  specialize (Hl a Ha). rewrite forallb_forall in Hl. specialize (Hl b Hb).
  apply orb_true_iff in Hl as [Hl|Hl]; [by apply bool_decide_eq_true in Hl|].
  apply negb_true_iff, bool_decide_eq_false in Hl. destruct Hl.
  apply terms_tied; rewrite <- price_before_terms; congruence.
Qed.

Lemma popped_terms_unique (baseFee : N) (s1 s2 : list Transaction) :
  popped_in_order (Z.of_N baseFee) s1 → popped_in_order (Z.of_N baseFee) s2 →
  s1 ≡ₚ s2 →
  Spec.terms (Z.of_N baseFee) <$> s1 = Spec.terms (Z.of_N baseFee) <$> s2.
Proof.
  intros Ho1 Ho2 Hp.
  apply (StronglySorted_unique_strong (λ k1 k2, ¬ terms_before k2 k1)).
  - intros k1 k2 _ _ H12 H21. by apply terms_tied.
  - eapply StronglySorted_fmap; [|exact Ho1].
    intros x y Hxy. rewrite <- price_before_terms. congruence.
  - eapply StronglySorted_fmap; [|exact Ho2].
    intros x y Hxy. rewrite <- price_before_terms. congruence.
  - by rewrite Hp.
Qed.

(** The claim C9 read on multisets fails: the same two records, handed
    over in the two possible orders, are popped in two different orders. *)
Lemma pop_sequence_depends_on_input_order :
  [tie_a; tie_b] ≡ₚ [tie_b; tie_a] ∧
  pop_sequence 0 (pointers [tie_a; tie_b]) []
    ≠ pop_sequence 0 (pointers [tie_b; tie_a]) [].
Proof. split; [apply perm_swap | discriminate]. Qed.

(** C9 (amended): two runs on the same base fee and the same multiset of
    records with a populated fee representation, in whatever order the
    records are handed over and whether they come with the construction
    or are pushed afterwards, pop records with the same effective tip
    (when the base fee is positive), fee cap, tip cap and nonce at every
    position; they pop the same sequence of records when no two different
    records of the multiset are tied on these. *)
Theorem pop_sequence_deterministic (baseFee : N)
    (initial1 pushed1 initial2 pushed2 : list Transaction) :
  forallb populated (initial1 ++ pushed1) = true →
  initial1 ++ pushed1 ≡ₚ initial2 ++ pushed2 →
  ∃ s1 s2,
    pop_sequence baseFee (pointers initial1) (pointers pushed1)
      = Done (pointers s1) ∧
    pop_sequence baseFee (pointers initial2) (pointers pushed2)
      = Done (pointers s2) ∧
    s1 ≡ₚ initial1 ++ pushed1 ∧
    Spec.terms (Z.of_N baseFee) <$> s1 = Spec.terms (Z.of_N baseFee) <$> s2 ∧
    (tie_free (Z.of_N baseFee) (initial1 ++ pushed1) = true → s1 = s2).
Proof.
  intros Hpop Hp.
  destruct (pop_sequence_sorted baseFee initial1 pushed1 Hpop)
    as (s1 & Hs1 & Hp1 & Ho1).
  destruct (pop_sequence_sorted baseFee initial2 pushed2)
    as (s2 & Hs2 & Hp2 & Ho2).
  { apply (populated_Permutation _ (initial1 ++ pushed1)); done. }
  assert (s1 ≡ₚ s2) as Hp12 by (by rewrite Hp1, Hp2).
  exists s1, s2. split_and!; try done.
  - by apply popped_terms_unique.
  - intros Htf.
    apply (StronglySorted_unique_strong
             (λ a b, price_before (Z.of_N baseFee) b a = false) s1 s2);
      [|done..].
    intros x1 x2 Hx1 Hx2 H12 H21.
    apply (tie_free_spec _ _ x1 x2 Htf);
      [by rewrite <- Hp1 | by rewrite Hp, <- Hp2 | done..].
Qed.

Lemma pop_sequence_deterministic_witness :
  forallb populated ([nonce_1] ++ [nonce_2; tie_a]) = true ∧
  [nonce_1] ++ [nonce_2; tie_a] ≡ₚ [tie_a; nonce_2; nonce_1] ++ [] ∧
  ∃ s1 s2,
    pop_sequence 100 (pointers [nonce_1]) (pointers [nonce_2; tie_a])
      = Done (pointers s1) ∧
    pop_sequence 100 (pointers [tie_a; nonce_2; nonce_1]) (pointers [])
      = Done (pointers s2) ∧
    s1 ≡ₚ [nonce_1] ++ [nonce_2; tie_a] ∧
    Spec.terms (Z.of_N 100) <$> s1 = Spec.terms (Z.of_N 100) <$> s2 ∧
    (tie_free (Z.of_N 100) ([nonce_1] ++ [nonce_2; tie_a]) = true → s1 = s2).
Proof.
  assert ([nonce_1] ++ [nonce_2; tie_a] ≡ₚ [tie_a; nonce_2; nonce_1] ++ [])
    as Hp by apply (Permutation_rev [nonce_1; nonce_2; tie_a]).
  split; [reflexivity|]. split; [exact Hp|].
  apply (pop_sequence_deterministic 100 [nonce_1] [nonce_2; tie_a]
           [tie_a; nonce_2; nonce_1] []); [reflexivity | exact Hp].
Defined.

(** Scenarios 3 and 4 of the specification. *)
Example pop_base_fee_100 :
  EffectiveGasTip (dynamic 1 200 50) (Some 100%Z) = Done (Some 50%Z) ∧
  EffectiveGasTip (dynamic 2 150 80) (Some 100%Z) = Done (Some 50%Z) ∧
  pop_sequence 100 (pointers [dynamic 2 150 80; dynamic 1 200 50]) []
    = Done (pointers [dynamic 1 200 50; dynamic 2 150 80]).
Proof. done. Qed.

Example pop_base_fee_0 :
  pop_sequence 0 (pointers [dynamic 2 150 0; dynamic 1 200 0]) []
    = Done (pointers [dynamic 1 200 0; dynamic 2 150 0]).
Proof. done. Qed.

End pop_order.

(** The capacities that the Go runtime gives a growing slice of pointers
    while it is small are 1, 2, 4, 8 and so on: the array made for [n]
    elements has room for [n - 2] more.  The examples run under this
    choice. *)
Definition doubling (n : nat) : nat := n - 2.

(** ** The account queue: prune and peek *)
Module account_order.
Import accountQueue accountQueue_theory heap_theory.
Local Open Scope nat_scope.

(** The run that [Hs] compares with, evaluated. *)
Ltac evaluated Hs E :=
  match type of Hs with
  | sim _ _ ?r =>
      let v := eval vm_compute in r in
      assert (r = v) as E by (vm_compute; reflexivity)
  end.

(** Scenarios 1, 2 and 5 of the specification, on legacy records. *)
Example pop_5_3_4 :
  (q ← run doubling
         [OpPush (legacy 5 1); OpPush (legacy 3 1); OpPush (legacy 4 1)];
   '(x1, q) ← pop q; '(x2, q) ← pop q; '(x3, q) ← pop q;
   Done [x1; x2; x3])
  = Done (pointers [legacy 3 1; legacy 4 1; legacy 5 1]).
Proof. reflexivity. Qed.

Example pop_same_nonce :
  (q ← run doubling [OpPush (legacy 7 10); OpPush (legacy 7 20)];
   '(x1, q) ← pop q; '(x2, q) ← pop q;
   Done [x1; x2])
  = Done (pointers [legacy 7 20; legacy 7 10]).
Proof. reflexivity. Qed.

Example prune_10 :
  (q ← run doubling
         [OpPush (legacy 3 1); OpPush (legacy 7 1); OpPush (legacy 12 1);
          OpPush (legacy 15 1)];
   '(pruned, q') ← prune q 10;
   Done (pruned, minNonceQueue.shown (queue q')))
  = Done (pointers [legacy 3 1; legacy 7 1],
          pointers [legacy 12 1; legacy 15 1]).
Proof. reflexivity. Qed.

(** C3: [prune] fails on a queue that three pushes build.  The queue
    holds a legacy record of nonce 5, a legacy record of nonce 7 and a
    dynamic-fee record of nonce 7, which carries no gas price; [peek]
    shows the record of nonce 5, which [prune 6] is to remove and return.
    [prune 6] panics instead: [heap.Pop] moves the dynamic-fee record to
    the root, and [Less] compares the gas price of the legacy record of
    nonce 7 with the nil gas price.  This is so whatever capacities the
    runtime chooses. *)
Theorem prune_panics_on_unpriced_record (growslice : nat → nat) :
  ∃ q,
    run growslice [OpPush (legacy 5 10); OpPush (legacy 7 30);
                   OpPush (dynamic_fee 7 9 200 50)] = Done q ∧
    minNonceQueue.shown (queue q)
      = pointers [legacy 5 10; legacy 7 30; dynamic_fee 7 9 200 50] ∧
    peek q = Done (Some (legacy 5 10)) ∧
    prune q 6 = Panicked.
Proof.
  pose proof (run_alike growslice doubling
                [OpPush (legacy 5 10); OpPush (legacy 7 30);
                 OpPush (dynamic_fee 7 9 200 50)]) as Hs.
  evaluated Hs E0.
  destruct (sim_Done _ _ _ _ Hs E0) as (q & Hq & Ha).
  exists q. split; [done|]. split_and!.
  - by destruct Ha as (_ & _ & ->).
  - by rewrite (peek_alike _ _ Ha).
  - by apply (sim_Panicked _ _ _ (prune_alike _ _ 6 Ha)).
Qed.

(** C4: [peek] does not show the higher-paying record of a nonce when
    records without a gas price are among them.  Pushing a dynamic-fee
    record onto a queue that holds a legacy record of its nonce panics,
    so that no [peek] follows; and of two dynamic-fee records of one
    nonce [peek] shows the one pushed first, here the one with the lower
    caps, which the comparator of section 4.2 ranks lower under every
    base fee: [Less] reads the gas price field alone.  This is so
    whatever capacities the runtime chooses. *)
Theorem peek_misses_higher_paying_record (growslice : nat → nat) :
  run growslice [OpPush (legacy 7 30); OpPush (dynamic_fee 7 9 200 50)]
    = Panicked ∧
  ∃ q,
    run growslice
      [OpPush (dynamic_fee 7 8 20 5); OpPush (dynamic_fee 7 9 200 50)]
      = Done q ∧
    minNonceQueue.shown (queue q)
      = pointers [dynamic_fee 7 8 20 5; dynamic_fee 7 9 200 50] ∧
    peek q = Done (Some (dynamic_fee 7 8 20 5)) ∧
    ∀ baseFee : N,
      Spec.ranks_higher (Z.of_N baseFee)
        (dynamic_fee 7 9 200 50) (dynamic_fee 7 8 20 5).
Proof.
  split.
  { by apply (sim_Panicked _ _ _ (run_alike growslice doubling _)). }
  pose proof (run_alike growslice doubling
                [OpPush (dynamic_fee 7 8 20 5);
                 OpPush (dynamic_fee 7 9 200 50)]) as Hs.
  evaluated Hs E0.
  destruct (sim_Done _ _ _ _ Hs E0) as (q & Hq & Ha).
  exists q. split; [done|]. split_and!.
  { by destruct Ha as (_ & _ & ->). }
  { by rewrite (peek_alike _ _ Ha). }
  intros baseFee. unfold Spec.ranks_higher, Spec.compare, Spec.price_tiers,
    Spec.larger_wins, Spec.effectiveTip. simpl.
  destruct (Z.ltb_spec 0 (Z.of_N baseFee)) as [Hf|Hf]; [|done].
  change (Spec.tipCap (dynamic_fee 7 9 200 50)) with 50%Z.
  change (Spec.feeCap (dynamic_fee 7 9 200 50)) with 200%Z.
  change (Spec.tipCap (dynamic_fee 7 8 20 5)) with 5%Z.
  change (Spec.feeCap (dynamic_fee 7 8 20 5)) with 20%Z.
  replace (Z.min 50 (200 - Z.of_N baseFee) ?= Z.min 5 (20 - Z.of_N baseFee))%Z
    with Gt; [done|].
  symmetry. apply Z.compare_gt_iff. lia.
Qed.

End account_order.

(** ** Values of the wrong kind, and empty queues *)
Module contract.
Local Open Scope nat_scope.

(** A call surfaces a contract violation when it panics: [Push] has no
    result through which it could report one. *)
Definition surfaces_violation {A : Type} (r : exec A) : Prop :=
  r = Panicked.

(** The claim C6 as stated fails: a push of a value that is not a
    transaction returns normally. *)
Lemma wrong_kind_push_is_silent :
  ¬ surfaces_violation
      (heap.Push
         (minNonceQueue.mk (pointers [legacy 3 1]) [] [[]] doubling)
         (AnyOther 0)).
Proof. discriminate. Qed.

(** C6 (amended): when a value that is not a transaction record is pushed
    on the heap of either queue, the push returns normally and leaves the
    queue exactly as it was; nothing is reported to the caller.  This
    holds on every account queue that a sequence of operations reaches
    (such a sequence returns when the records pushed are compatible with
    one another), and on every priced queue built from records with a
    populated fee representation.  (The queues' own [push] accepts
    transaction pointers only.) *)
Theorem wrong_kind_push_dropped (tag : Z) :
  (∀ growslice ops q,
     accountQueue_theory.run growslice ops = Done q →
     heap.Push (accountQueue.queue q) (AnyOther tag)
       = Done (accountQueue.queue q)) ∧
  (∀ growslice ops,
     comparable (accountQueue_theory.pushed ops) = true →
     ∃ q, accountQueue_theory.run growslice ops = Done q) ∧
  (∀ baseFee initialTxs ops,
     forallb populated (initialTxs ++ pricedQueue_theory.pushed ops) = true →
     ∃ q,
       pricedQueue_theory.run baseFee initialTxs ops = Done q ∧
       heap.Push (pricedQueue.queue q) (AnyOther tag)
         = Done (pricedQueue.queue q)).
Proof.
  split_and!.
  - intros growslice ops q Hrun.
    destruct (accountQueue_theory.run_Done growslice ops q Hrun)
      as (l & [Hq Hh] & _).
    unfold heap.Push. simpl. by apply (minNonce_up_heap _ l).
  - intros growslice ops Hc.
    destruct (accountQueue_theory.run_comparable growslice ops Hc)
      as (q & l & Hrun & _).
    by exists q.
  - intros baseFee initialTxs ops Hpop.
    destruct (pricedQueue_theory.priced_run_holds baseFee initialTxs ops Hpop)
      as (q & l & Hrun & Hq & Hh & Hl).
    exists q. split; [done|]. unfold heap.Push. simpl. rewrite Hq.
    by apply maxPrice_up_heap.
Qed.

(** C8: on an empty queue, whatever the state of its lock, the array
    behind its slice or its base fee, [peek] and [pop] return nil: they
    do not panic, and [pop] leaves the queue as it is. *)
Theorem empty_queue_no_value (mu : sync.RWMutex) (wLock : N) (baseFee : Z)
    (spare : list (option Transaction))
    (left : list (list (option Transaction))) (growslice : nat → nat) :
  let q := accountQueue.mk mu wLock
             (minNonceQueue.mk [] spare left growslice) in
  let p := pricedQueue.mk (maxPriceQueue.mk baseFee []) in
  accountQueue.peek q = Done None ∧
  accountQueue.pop q = Done (None, q) ∧
  pricedQueue.pop p = Done (None, p) ∧
  minNonceQueue.Peek (accountQueue.queue q) = Done None ∧
  maxPriceQueue.Peek (pricedQueue.queue p) = Done None.
Proof. done. Qed.

End contract.

(** ** The lock of the account queue *)
Module lock_model.
Import accountQueue.
Local Open Scope nat_scope.

(** *** Calls in sequence *)

Inductive call : Type :=
| CallLock (write : bool)
| CallUnlock.

(** The queue after a sequence of calls, with the mode that the most
    recent lock call acquired; [None] when a call blocks or fails. *)
Fixpoint run_calls (q : t) (last : option mode) (calls : list call)
  : option (t * option mode) :=
  match calls with
  | [] => Some (q, last)
  | CallLock write :: calls =>
      q' ← lock q write; run_calls q' (Some (mode_of write)) calls
  | CallUnlock :: calls =>
      match unlock q with
      | Done (_, q') => run_calls q' last calls
      | Panicked => None
      end
  end.

(** A queue whose lock is free. *)
Definition free_queue : t :=
  {| mu := {| sync.writer := false; sync.readers := 0 |};
     wLock := 0; queue := minNonceQueue.make doubling |}.

(** The claim C7 as stated: whatever calls came before, an unlock releases
    the mode that the most recent lock call acquired. *)
Definition mismatch_impossible : Prop :=
  ∀ calls q last,
    run_calls free_queue None calls = Some (q, Some last) →
    (unlock_swap q).1 = last.

(** After [lock(true); unlock()], one more [unlock()] releases the shared
    mode, though the most recent lock call acquired the exclusive one. *)
Lemma mismatch_possible : ¬ mismatch_impossible.
Proof.
  intros Hc.
  specialize (Hc [CallLock true; CallUnlock] free_queue Exclusive eq_refl).
  discriminate Hc.
Qed.

(** *** Callers that pair their calls, interleaved

    Each caller goes through [lock] and [unlock] in turn, one atomic step
    at a time; the steps of different callers interleave in any order. *)

Inductive pc : Type :=
| Idle
| Acquired (write : bool)
| Holding (write : bool)
| Releasing (write : bool) (released : mode).

Record state : Type := mkState {
  shared : t;
  callers : list pc;
}.

Inductive event : Type :=
| EvAcquire (i : nat) (write : bool)
| EvStore (i : nat)
| EvSwap (i : nat)
| EvRelease (i : nat).

(** One step of caller [i]: [None] when the step is not what caller [i]
    does next or the caller is blocked, [Some Panicked] when the release
    is a fatal error. *)
Definition fire (s : state) (e : event) : option (exec state) :=
  match e with
  | EvAcquire i write =>
      match callers s !! i with
      | Some Idle =>
          q ← lock_acquire (shared s) write;
          Some (Done (mkState q (<[i := Acquired write]> (callers s))))
      | _ => None
      end
  | EvStore i =>
      match callers s !! i with
      | Some (Acquired write) =>
          Some (Done (mkState (lock_store (shared s) write)
                        (<[i := Holding write]> (callers s))))
      | _ => None
      end
  | EvSwap i =>
      match callers s !! i with
      | Some (Holding write) =>
          let '(m, q) := unlock_swap (shared s) in
          Some (Done (mkState q (<[i := Releasing write m]> (callers s))))
      | _ => None
      end
  | EvRelease i =>
      match callers s !! i with
      | Some (Releasing write m) =>
          Some (q ← unlock_release (shared s) m;
                Done (mkState q (<[i := Idle]> (callers s))))
      | _ => None
      end
  end.

Fixpoint run (s : state) (evs : list event) : option (exec state) :=
  match evs with
  | [] => Some (Done s)
  | e :: evs =>
      match fire s e with
      | None => None
      | Some Panicked => Some Panicked
      | Some (Done s') => run s' evs
      end
  end.

(** [n] callers around a queue whose lock is free. *)
Definition init (n : nat) : state := mkState free_queue (replicate n Idle).

Definition holds_exclusive (p : pc) : bool :=
  match p with
  | Acquired true | Holding true | Releasing true _ => true
  | _ => false
  end.

Definition holds_shared (p : pc) : bool :=
  match p with
  | Acquired false | Holding false | Releasing false _ => true
  | _ => false
  end.

Fixpoint count (f : pc → bool) (l : list pc) : nat :=
  match l with
  | [] => 0
  | p :: l => (if f p then 1 else 0) + count f l
  end.

Definition flag (write : bool) : N := if write then 1%N else 0%N.

Record inv (s : state) : Prop := {
  inv_writer :
    count holds_exclusive (callers s)
      = if sync.writer (mu (shared s)) then 1 else 0;
  inv_readers :
    count holds_shared (callers s) = sync.readers (mu (shared s));
  inv_excl :
    sync.writer (mu (shared s)) = true → sync.readers (mu (shared s)) = 0;
  inv_recorded : ∀ i write,
    callers s !! i = Some (Holding write) → wLock (shared s) = flag write;
  inv_released : ∀ i write m,
    callers s !! i = Some (Releasing write m) → m = mode_of write;
}.

Lemma count_insert (f : pc → bool) (l : list pc) (i : nat) (a b : pc) :
  l !! i = Some a →
  count f (<[i := b]> l) + (if f a then 1 else 0)
    = count f l + (if f b then 1 else 0).
Proof.
  revert i. induction l as [|p l IH]; intros [|i] Hi; try done; simpl in *.
  - injection Hi as ->. clear IH. destruct (f a), (f b); lia.
  - specialize (IH i Hi). destruct (f a), (f b), (f p); lia.
Qed.

Lemma count_lookup (f : pc → bool) (l : list pc) (i : nat) (a : pc) :
  l !! i = Some a → f a = true → 1 ≤ count f l.
Proof.
  revert i. induction l as [|p l IH]; intros [|i] Hi Ha; try done; simpl in *.
  - injection Hi as ->. rewrite Ha. lia.
  - specialize (IH i Hi Ha). lia.
Qed.

Lemma count_lookup2 (f : pc → bool) (l : list pc) (i j : nat) (a b : pc) :
  i ≠ j → l !! i = Some a → l !! j = Some b →
  f a = true → f b = true → f Idle = false → 2 ≤ count f l.
Proof.
  intros Hij Hi Hj Ha Hb Hidle.
  pose proof (count_insert f l i a Idle Hi) as Hc. rewrite Ha, Hidle in Hc.
  assert (<[i := Idle]> l !! j = Some b) as Hj'
    by (by rewrite list_lookup_insert_ne).
  pose proof (count_lookup f _ j b Hj' Hb). lia.
Qed.

Lemma count_replicate_Idle (f : pc → bool) (n : nat) :
  f Idle = false → count f (replicate n Idle) = 0.
Proof. intros Hf. induction n as [|n IH]; simpl; [done|]. by rewrite Hf. Qed.

Lemma inv_init (n : nat) : inv (init n).
Proof.
  split; simpl.
  - by apply count_replicate_Idle.
  - by apply count_replicate_Idle.
  - done.
  - intros i write Hi. apply lookup_replicate in Hi as [? _]. done.
  - intros i write m Hi. apply lookup_replicate in Hi as [? _]. done.
Qed.

Lemma holders_exclude (s : state) (i j : nat) (p p' : pc) :
  inv s → i ≠ j →
  callers s !! i = Some p → callers s !! j = Some p' →
  holds_exclusive p = true →
  holds_exclusive p' = false ∧ holds_shared p' = false.
Proof.
  intros [Hw Hr Hx _ _] Hij Hi Hj Hp.
  pose proof (count_lookup _ _ _ _ Hi Hp) as H1.
  destruct (sync.writer (mu (shared s))) eqn:Hwr; [|lia].
  specialize (Hx eq_refl). split.
  - destruct (holds_exclusive p') eqn:Hp'; [|done].
    pose proof (count_lookup2 _ _ i j p p' Hij Hi Hj Hp Hp' eq_refl). lia.
  - destruct (holds_shared p') eqn:Hp'; [|done].
    pose proof (count_lookup _ _ _ _ Hj Hp'). lia.
Qed.

Lemma fire_inv (s : state) (e : event) (r : exec state) :
  inv s → fire s e = Some r → ∃ s', r = Done s' ∧ inv s'.
Proof.
  intros Hinv Hf. pose proof Hinv as [Hw Hr Hx Hrec Hrel].
  destruct s as [q pcs]. simpl in *.
  destruct e as [i write|i|i|i]; simpl in Hf;
    destruct (pcs !! i) as [[|w|w|w m]|] eqn:Hi; try done.
  - (* the mutex is acquired *)
    unfold lock_acquire in Hf.
    pose proof (count_insert holds_exclusive pcs i _ (Acquired write) Hi)
      as Hcw.
    pose proof (count_insert holds_shared pcs i _ (Acquired write) Hi)
      as Hcr.
    assert (∀ j p, (∀ w', p ≠ Acquired w') →
              <[i := Acquired write]> pcs !! j = Some p → pcs !! j = Some p)
      as Hold.
    { intros j p Hne. destruct (decide (i = j)) as [<-|Hij].
      - rewrite list_lookup_insert_eq by (by eapply lookup_lt_Some).
        intros [= <-]. by destruct (Hne write).
      - by rewrite list_lookup_insert_ne. }
    destruct write; simpl in *.
    + unfold sync.Lock in Hf.
      destruct (sync.writer (mu q)) eqn:Hwr; [done|].
      destruct (Nat.eqb_spec (sync.readers (mu q)) 0) as [H0|]; [|done].
      simpl in Hf. injection Hf as <-. eexists. split; [done|].
      split; simpl; try lia.
      * intros j w' Hj. apply (Hrec j), Hold; done.
      * intros j w' m Hj. apply (Hrel j), Hold; done.
    + unfold sync.RLock in Hf.
      destruct (sync.writer (mu q)) eqn:Hwr; [done|].
      simpl in Hf. injection Hf as <-. eexists. split; [done|].
      split; simpl; try lia; try done.
      * intros j w' Hj. apply (Hrec j), Hold; done.
      * intros j w' m Hj. apply (Hrel j), Hold; done.
  - (* the mode is stored *)
    injection Hf as <-. eexists. split; [done|].
    pose proof (count_insert holds_exclusive pcs i _ (Holding w) Hi) as Hcw.
    pose proof (count_insert holds_shared pcs i _ (Holding w) Hi) as Hcr.
    split; simpl in *; try (destruct w; simpl in *; lia); try done.
    + intros j w' Hj. destruct (decide (i = j)) as [<-|Hij].
      * rewrite list_lookup_insert_eq in Hj by (by eapply lookup_lt_Some).
        by injection Hj as <-.
      * rewrite list_lookup_insert_ne in Hj by done.
        destruct w, w'; try done.
        -- by destruct (holders_exclude _ i j _ _ Hinv Hij Hi Hj).
        -- by destruct (holders_exclude _ j i _ _ Hinv (not_eq_sym Hij) Hj Hi).
    + intros j w' m Hj. destruct (decide (i = j)) as [<-|Hij].
      * by rewrite list_lookup_insert_eq in Hj by (by eapply lookup_lt_Some).
      * rewrite list_lookup_insert_ne in Hj by done. by apply (Hrel j).
  - (* the release is decided *)
    injection Hf as <-. eexists. split; [done|].
    pose proof (λ rel, count_insert holds_exclusive pcs i _
                         (Releasing w rel) Hi) as Hcw.
    pose proof (λ rel, count_insert holds_shared pcs i _
                         (Releasing w rel) Hi) as Hcr.
    specialize (Hcw (unlock_swap q).1). specialize (Hcr (unlock_swap q).1).
    split; simpl in *; try (destruct w; simpl in *; lia); try done.
    + intros j w' Hj. destruct (decide (i = j)) as [<-|Hij].
      * by rewrite list_lookup_insert_eq in Hj by (by eapply lookup_lt_Some).
      * rewrite list_lookup_insert_ne in Hj by done.
        destruct w'; [|done]. destruct w.
        -- by destruct (holders_exclude _ i j _ _ Hinv Hij Hi Hj).
        -- by destruct (holders_exclude _ j i _ _ Hinv (not_eq_sym Hij) Hj Hi).
    + intros j w' m Hj. destruct (decide (i = j)) as [<-|Hij].
      * rewrite list_lookup_insert_eq in Hj by (by eapply lookup_lt_Some).
        injection Hj as <- <-. rewrite (Hrec i w Hi). by destruct w.
      * rewrite list_lookup_insert_ne in Hj by done. by apply (Hrel j).
  - (* the mutex is released *)
    injection Hf as <-.
    pose proof (count_insert holds_exclusive pcs i _ Idle Hi) as Hcw.
    pose proof (count_insert holds_shared pcs i _ Idle Hi) as Hcr.
    rewrite (Hrel i w m Hi). unfold unlock_release.
    assert (∀ j p, p ≠ Idle →
              <[i := Idle]> pcs !! j = Some p → pcs !! j = Some p) as Hold.
    { intros j p Hne. destruct (decide (i = j)) as [<-|Hij].
      - rewrite list_lookup_insert_eq by (by eapply lookup_lt_Some). congruence.
      - by rewrite list_lookup_insert_ne. }
    destruct w; simpl in *.
    + unfold sync.Unlock.
      destruct (sync.writer (mu q)) eqn:Hwr; [|lia]. simpl.
      eexists. split; [done|]. split; simpl; try lia; try done.
      * intros j w' Hj. apply (Hrec j), Hold; done.
      * intros j w' m' Hj. apply (Hrel j), Hold; done.
    + unfold sync.RUnlock.
      destruct (sync.readers (mu q)) as [|k] eqn:Hrd; [lia|]. simpl.
      eexists. split; [done|]. split; simpl; try lia.
      * intros Hwr. specialize (Hx Hwr). done.
      * intros j w' Hj. apply (Hrec j), Hold; done.
      * intros j w' m' Hj. apply (Hrel j), Hold; done.
Qed.

Lemma run_inv (evs : list event) : ∀ (s : state) (r : exec state),
  inv s → run s evs = Some r → ∃ s', r = Done s' ∧ inv s'.
Proof.
  induction evs as [|e evs IH]; intros s r Hinv; simpl.
  { intros [= <-]. by exists s. }
  destruct (fire s e) as [r1|] eqn:Hf; [|done].
  destruct (fire_inv s e r1 Hinv Hf) as (s1 & -> & Hinv1).
  by apply IH.
Qed.

(** [lock] records the mode it acquired, and an [unlock] that follows it
    at once releases that mode. *)
Lemma lock_then_unlock (q q' : t) (write : bool) :
  lock q write = Some q' →
  wLock q' = flag write ∧ ∃ q'', unlock q' = Done (mode_of write, q'').
Proof.
  unfold lock, lock_acquire. destruct write; simpl.
  - unfold sync.Lock. destruct (_ || _); [done|]. simpl.
    intros [= <-]. split; [done|]. by eexists.
  - unfold sync.RLock. destruct (sync.writer (mu q)); [done|]. simpl.
    intros [= <-]. split; [done|]. by eexists.
Qed.

(** C7 (amended): every lock call records the mode it acquired in
    [wLock]; when each caller pairs its calls -- it unlocks only while it
    holds the lock through its own lock call -- then, however the atomic
    steps of the callers interleave, the mode recorded while a caller
    holds the lock is the one that caller acquired, each unlock releases
    exactly that mode, and no release fails.  The pairing is the callers'
    convention: [unlock] itself releases whatever [wLock] records. *)
Theorem paired_unlock_releases_acquired_mode
    (n : nat) (evs : list event) (r : exec state) :
  run (init n) evs = Some r →
  ∃ s, r = Done s ∧
    (∀ i write, callers s !! i = Some (Holding write) →
       wLock (shared s) = flag write ∧
       (unlock_swap (shared s)).1 = mode_of write) ∧
    (∀ i write m, callers s !! i = Some (Releasing write m) →
       m = mode_of write ∧ ∃ q', unlock_release (shared s) m = Done q') ∧
    (∀ q q' write, lock q write = Some q' →
       wLock q' = flag write ∧ ∃ q'', unlock q' = Done (mode_of write, q'')).
Proof.
  intros Hrun.
  destruct (run_inv evs (init n) r (inv_init n) Hrun) as (s & -> & Hinv).
  exists s. split; [done|]. split_and!.
  - intros i write Hi. pose proof (inv_recorded s Hinv i write Hi) as Hrec.
    split; [done|]. unfold unlock_swap. simpl. rewrite Hrec. by destruct write.
  - intros i write m Hi. split; [by apply (inv_released s Hinv i)|].
    destruct (fire s (EvRelease i)) as [r'|] eqn:Hf.
    + destruct (fire_inv s _ r' Hinv Hf) as (s' & -> & _).
      simpl in Hf. rewrite Hi in Hf. injection Hf as Hf.
      destruct (unlock_release (shared s) m) as [q'|]; [by exists q' | done].
    + simpl in Hf. by rewrite Hi in Hf.
  - intros q q' write. apply lock_then_unlock.
Qed.

(** Two readers and then a writer, their steps interleaved; the writer
    has decided its release and not yet done it. *)
Definition example_schedule : list event :=
  [EvAcquire 0 false; EvAcquire 1 false; EvStore 1; EvStore 0; EvSwap 0;
   EvSwap 1; EvRelease 1; EvRelease 0; EvAcquire 2 true; EvStore 2; EvSwap 2].

Definition example_state : state :=
  {| shared := {| mu := {| sync.writer := true; sync.readers := 0 |};
                  wLock := 0; queue := minNonceQueue.make doubling |};
     callers := [Idle; Idle; Releasing true Exclusive] |}.

Lemma paired_unlock_releases_acquired_mode_witness :
  run (init 3) example_schedule = Some (Done example_state) ∧
  ∃ s, Done example_state = Done s ∧
    (∀ i write, callers s !! i = Some (Holding write) →
       wLock (shared s) = flag write ∧
       (unlock_swap (shared s)).1 = mode_of write) ∧
    (∀ i write m, callers s !! i = Some (Releasing write m) →
       m = mode_of write ∧ ∃ q', unlock_release (shared s) m = Done q') ∧
    (∀ q q' write, lock q write = Some q' →
       wLock q' = flag write ∧ ∃ q'', unlock q' = Done (mode_of write, q'')).
Proof.
  split; [reflexivity|].
  apply (paired_unlock_releases_acquired_mode 3 example_schedule
           (Done example_state)).
  reflexivity.
Defined.

End lock_model.
(** * Further properties *)

(** ** The account queue as a container *)
Module account_more.
Import accountQueue accountQueue_theory heap_theory.
Local Open Scope nat_scope.

(** The records among the pointers that the operations return (a [pop]
    of the empty queue returns nil). *)
Definition records (out : list (option Transaction)) : list Transaction :=
  omap id out.

Lemma records_pointers (l : list Transaction) : records (pointers l) = l.
Proof.
  induction l as [|x l IH]; [done|].
  change (x :: records (pointers l) = x :: l). by rewrite IH.
Qed.

(** An operation with what it hands to the caller; for [clear], the
    elements that the removed slice shows when [clear] returns. *)
Definition step_out (q : t) (o : op)
  : exec (list (option Transaction) * t) :=
  match o with
  | OpPush tx => q' ← push q (Some tx); Done ([], q')
  | OpPop => '(x, q') ← pop q; Done ([x], q')
  | OpPrune nonce => prune q nonce
  | OpClear =>
      let '(removed, q') := clear q in
      Done (minNonceQueue.elements (queue q') removed, q')
  end.

Fixpoint run_out_from (q : t) (ops : list op)
  : exec (list (option Transaction) * t) :=
  match ops with
  | [] => Done ([], q)
  | o :: ops =>
      '(out1, q1) ← step_out q o;
      '(out2, q2) ← run_out_from q1 ops;
      Done (out1 ++ out2, q2)
  end.

Definition run_out (growslice : nat → nat) (ops : list op)
  : exec (list (option Transaction) * t) :=
  q ← newAccountQueue growslice; run_out_from q ops.

(** Lower nonce first; on the same nonce the higher gas price first,
    records without a gas price beside one another. *)
Definition nonce_then_price (a b : Transaction) : Prop :=
  (Nonce a < Nonce b)%N ∨
  (Nonce a = Nonce b ∧
   match GasPrice a, GasPrice b with
   | Some p, Some q => (q <= p)%Z
   | None, None => True
   | _, _ => False
   end).

Lemma not_before_nonce_then_price (a b : Transaction) :
  compatible a b = true → nonce_before false b a = false →
  nonce_then_price a b.
Proof.
  unfold compatible, nonce_before, nonce_then_price, priced.
  rewrite (N.eqb_sym (Nonce b)).
  destruct (N.eqb_spec (Nonce a) (Nonce b)) as [Hn|Hn]; simpl.
  - destruct (GasPrice a) as [p|], (GasPrice b) as [q|]; simpl; try done;
      intros _ Hf; right; split; try done.
    destruct (Cmp_spec q p) as [[Hc ?]|[[Hc ?]|[Hc ?]]];
      rewrite Hc in Hf; try done; lia.
  - intros _. rewrite N.ltb_ge. intros Hf. left. lia.
Qed.

Lemma comparable_sub (l' l : list Transaction) :
  comparable l' = true → l ⊆ l' → comparable l = true.
Proof. intros Hc Hs. by apply (comparable_subseteq l l'). Qed.

(** When [clear] returns, the removed slice shows the elements the queue
    had. *)
Lemma elements_clear (q : t) :
  minNonceQueue.elements (queue (clear q).2) (clear q).1
    = minNonceQueue.shown (queue q).
Proof.
  unfold clear, minNonceQueue.elements. simpl. rewrite Nat.eqb_refl.
  by rewrite take_app_length.
Qed.

Lemma run_out_from_holds (ops : list op) :
  ∀ (q : t) (l : list Transaction),
  holds q l → comparable (l ++ pushed ops) = true →
  ∃ out q' l', run_out_from q ops = Done (out, q') ∧ holds q' l' ∧
               records out ++ l' ≡ₚ l ++ pushed ops.
Proof.
  induction ops as [|o ops IH]; intros q l Hh Hc; simpl.
  { exists [], q, l. by rewrite app_nil_r. }
  destruct o as [tx| |nonce|]; simpl;
    [change (pushed (OpPush tx :: ops)) with (tx :: pushed ops) in *
    |change (pushed (_ :: ops)) with (pushed ops) in *..].
  - destruct (push_holds q l tx Hh) as [[_ Hf]|(q1 & l1 & -> & Hh1 & Hp1)].
    { rewrite (comparable_sub _ (tx :: l) Hc) in Hf; [done | elems]. }
    simpl. destruct (IH q1 l1 Hh1) as (out & q2 & l2 & -> & Hh2 & Hp2).
    { apply (comparable_sub _ _ Hc). rewrite Hp1. elems. }
    simpl. exists out, q2, l2. split_and!; try done.
    rewrite Hp2, Hp1. simpl. apply Permutation_middle.
  - destruct (decide (l = [])) as [->|Hne].
    + rewrite (pop_empty q Hh). simpl.
      destruct (IH q [] Hh Hc) as (out & q2 & l2 & -> & Hh2 & Hp2). simpl.
      by exists (None :: out), q2, l2.
    + destruct (pop_holds q l Hh Hne)
        as [[_ Hf]|(x & q1 & l1 & -> & Hh1 & Hp1 & _)].
      { rewrite (comparable_sub _ l Hc) in Hf; [done | elems]. }
      simpl. destruct (IH q1 l1 Hh1) as (out & q2 & l2 & -> & Hh2 & Hp2).
      { apply (comparable_sub _ _ Hc). rewrite Hp1. elems. }
      simpl. exists (Some x :: out), q2, l2. split_and!; try done.
      unfold records in *. simpl. by rewrite Hp2, Hp1.
  - destruct (prune_holds q l nonce Hh)
      as [[_ Hf]|(r & q1 & l1 & -> & Hh1 & Hp1 & _)].
    { rewrite (comparable_sub _ l Hc) in Hf; [done | elems]. }
    simpl. destruct (IH q1 l1 Hh1) as (out & q2 & l2 & -> & Hh2 & Hp2).
    { apply (comparable_sub _ _ Hc). rewrite Hp1. elems. }
    simpl. exists (pointers r ++ out), q2, l2. split_and!; try done.
    unfold records in *. rewrite omap_app. fold (records (pointers r)).
    rewrite records_pointers, <- app_assoc, Hp2, Hp1. by rewrite app_assoc.
  - pose proof (elements_clear q) as He. unfold clear in *. simpl in He.
    rewrite He.
    destruct (IH (clear q).2 [] (clear_holds q))
      as (out & q2 & l2 & Hrun & Hh2 & Hp2).
    { apply (comparable_sub _ _ Hc). elems. }
    unfold clear in Hrun. simpl in Hrun. rewrite Hrun. simpl.
    destruct Hh as [Hq _]. unfold shows in Hq. rewrite Hq.
    exists (pointers l ++ out), q2, l2. split_and!; try done.
    unfold records in *. rewrite omap_app. fold (records (pointers l)).
    rewrite records_pointers, <- app_assoc, Hp2. done.
Qed.

Lemma run_out_holds (growslice : nat → nat) (ops : list op) :
  comparable (pushed ops) = true →
  ∃ out q l, run_out growslice ops = Done (out, q) ∧ holds q l ∧
             records out ++ l ≡ₚ pushed ops ∧ comparable l = true.
Proof.
  intros Hc. unfold run_out.
  destruct (newAccountQueue_holds growslice) as (q0 & -> & Hh0). simpl.
  destruct (run_out_from_holds ops q0 [] Hh0 Hc)
    as (out & q & l & -> & Hh & Hp).
  exists out, q, l. split_and!; try done.
  apply (comparable_sub _ _ Hc).
  intros y Hy. simpl in Hp. rewrite <- Hp. apply elem_of_app. by right.
Qed.

(** X1: over any sequence of pushes, pops, prunes and clears on an
    account queue, of records that are compatible with one another,
    nothing is lost and nothing is made up: the records that [pop] and
    [prune] have returned and that the slices of [clear] showed when it
    returned, together with the records still in the queue, are exactly
    the records pushed; and [length] is the number of records in the
    queue. *)
Theorem nothing_lost (growslice : nat → nat) (ops : list op) :
  comparable (pushed ops) = true →
  ∃ out q l,
    run_out growslice ops = Done (out, q) ∧
    minNonceQueue.shown (queue q) = pointers l ∧
    records out ++ l ≡ₚ pushed ops ∧
    length q = Z.of_nat (List.length l).
Proof.
  intros Hc.
  destruct (run_out_holds growslice ops Hc)
    as (out & q & l & Hrun & Hh & Hp & _).
  exists out, q, l. split_and!; try done.
  - by destruct Hh.
  - by apply length_holds.
Qed.

Lemma nothing_lost_witness :
  comparable (pushed [OpPush (legacy 7 30); OpPush (dynamic_fee 8 9 200 50);
                      OpPop; OpPush (legacy 5 10); OpPrune 6;
                      OpPush (legacy 9 1); OpClear; OpPush (legacy 2 2)])
    = true ∧
  ∃ out q l,
    run_out doubling
      [OpPush (legacy 7 30); OpPush (dynamic_fee 8 9 200 50); OpPop;
       OpPush (legacy 5 10); OpPrune 6; OpPush (legacy 9 1); OpClear;
       OpPush (legacy 2 2)]
      = Done (out, q) ∧
    minNonceQueue.shown (queue q) = pointers l ∧
    records out ++ l
      ≡ₚ pushed [OpPush (legacy 7 30); OpPush (dynamic_fee 8 9 200 50);
                 OpPop; OpPush (legacy 5 10); OpPrune 6;
                 OpPush (legacy 9 1); OpClear; OpPush (legacy 2 2)] ∧
    length q = Z.of_nat (List.length l).
Proof.
  split; [reflexivity|].
  apply (nothing_lost doubling
           [OpPush (legacy 7 30); OpPush (dynamic_fee 8 9 200 50); OpPop;
            OpPush (legacy 5 10); OpPrune 6; OpPush (legacy 9 1); OpClear;
            OpPush (legacy 2 2)]).
  reflexivity.
Defined.

(** X22: after any sequence of operations on records that are
    compatible with one another, the queue holds the records pushed and
    not yet handed out, and [peek] returns nil when there is none, and
    otherwise a record of the queue that has the lowest nonce and, among
    the records of that nonce, the highest gas price field (records
    without a gas price stand beside one another). *)
Theorem peek_is_minimum (growslice : nat → nat) (ops : list op) :
  comparable (pushed ops) = true →
  ∃ out q l,
    run_out growslice ops = Done (out, q) ∧
    minNonceQueue.shown (queue q) = pointers l ∧
    records out ++ l ≡ₚ pushed ops ∧
    peek q = Done (head l) ∧
    match head l with
    | None => l = []
    | Some m => m ∈ l ∧ ∀ x, x ∈ l → nonce_then_price m x
    end.
Proof.
  intros Hc.
  destruct (run_out_holds growslice ops Hc)
    as (out & q & l & Hrun & Hh & Hp & Hl).
  exists out, q, l. split_and!; try done.
  - by destruct Hh.
  - by apply peek_holds.
  - destruct l as [|m l0] eqn:El; [done|]. simpl. rewrite <- El in *.
    assert (m ∈ l) as Hm by (rewrite El; by left).
    split; [done|]. intros x Hx. destruct Hh as [_ Hh].
    apply not_before_nonce_then_price.
    + by apply (proj1 (comparable_spec l) Hl).
    + apply (root_minimal _ (nonce_before_strict false) l m); [done| |done].
      by rewrite El.
Qed.

Lemma peek_is_minimum_witness :
  comparable (pushed [OpPush (legacy 7 10); OpPush (legacy 7 20);
                      OpPush (dynamic_fee 9 9 200 50)]) = true ∧
  ∃ out q l,
    run_out doubling
      [OpPush (legacy 7 10); OpPush (legacy 7 20);
       OpPush (dynamic_fee 9 9 200 50)] = Done (out, q) ∧
    minNonceQueue.shown (queue q) = pointers l ∧
    records out ++ l
      ≡ₚ pushed [OpPush (legacy 7 10); OpPush (legacy 7 20);
                 OpPush (dynamic_fee 9 9 200 50)] ∧
    peek q = Done (head l) ∧
    match head l with
    | None => l = []
    | Some m => m ∈ l ∧ ∀ x, x ∈ l → nonce_then_price m x
    end.
Proof.
  split; [reflexivity|].
  apply (peek_is_minimum doubling
           [OpPush (legacy 7 10); OpPush (legacy 7 20);
            OpPush (dynamic_fee 9 9 200 50)]).
  reflexivity.
Defined.

(** X2: on every account queue that a sequence of operations reaches, a
    [push] of a record that returns has added exactly that record: the
    queue holds the records it held and the new one, [length] has grown by
    one, and the lock fields are untouched.  The [push] returns when the
    new record and the records of the queue are compatible with one
    another. *)
Theorem push_adds_one (growslice : nat → nat) (ops : list op) (q : t)
    (tx : Transaction) :
  run growslice ops = Done q →
  ∃ l,
    minNonceQueue.shown (queue q) = pointers l ∧
    (∀ q', push q (Some tx) = Done q' →
       ∃ l', minNonceQueue.shown (queue q') = pointers l' ∧
             l' ≡ₚ tx :: l ∧
             length q' = (length q + 1)%Z ∧
             mu q' = mu q ∧ wLock q' = wLock q) ∧
    (comparable (tx :: l) = true → ∃ q', push q (Some tx) = Done q').
Proof.
  intros Hrun. destruct (run_Done growslice ops q Hrun) as (l & Hh & _).
  exists l. split; [by destruct Hh|].
  destruct (push_holds q l tx Hh) as [[Hp Hc]|(q1 & l1 & Hpush & Hh1 & Hp1)].
  { split; [by rewrite Hp | by rewrite Hc]. }
  split; [|by exists q1].
  intros q' Hq'. rewrite Hpush in Hq'. injection Hq' as <-.
  exists l1. split_and!; try done; try by destruct Hh1.
  - rewrite (length_holds q l Hh), (length_holds q1 l1 Hh1).
    apply Permutation_length in Hp1. simpl in Hp1. lia.
  - unfold push in Hpush. destruct (heap.Push _ _); [|done].
    by injection Hpush as <-.
  - unfold push in Hpush. destruct (heap.Push _ _); [|done].
    by injection Hpush as <-.
Qed.

Lemma push_adds_one_witness :
  ∃ q,
    run doubling [OpPush (legacy 7 30); OpPush (dynamic_fee 8 9 200 50)]
      = Done q ∧
    ∃ l,
      minNonceQueue.shown (queue q) = pointers l ∧
      (∀ q', push q (Some (legacy 5 10)) = Done q' →
         ∃ l', minNonceQueue.shown (queue q') = pointers l' ∧
               l' ≡ₚ legacy 5 10 :: l ∧
               length q' = (length q + 1)%Z ∧
               mu q' = mu q ∧ wLock q' = wLock q) ∧
      (comparable (legacy 5 10 :: l) = true →
       ∃ q', push q (Some (legacy 5 10)) = Done q').
Proof.
  eexists. split; [reflexivity|].
  apply (push_adds_one doubling
           [OpPush (legacy 7 30); OpPush (dynamic_fee 8 9 200 50)] _
           (legacy 5 10)).
  reflexivity.
Defined.

(** X3: on every account queue that a sequence of operations reaches,
    [peek] returns the first element of the slice, and a [pop] that
    returns has returned what [peek] shows: when that is a record, [pop]
    has taken exactly this record out and [length] has gone down by one;
    when it is nil the queue is empty and [pop] leaves it as it is.  The
    [pop] returns when the records of the queue are compatible with one
    another. *)
Theorem pop_takes_peeked (growslice : nat → nat) (ops : list op) (q : t) :
  run growslice ops = Done q →
  ∃ l,
    minNonceQueue.shown (queue q) = pointers l ∧ peek q = Done (head l) ∧
    match head l with
    | None => l = [] ∧ pop q = Done (None, q)
    | Some x =>
        (∀ r q', pop q = Done (r, q') →
           r = Some x ∧
           ∃ l', minNonceQueue.shown (queue q') = pointers l' ∧
                 l ≡ₚ x :: l' ∧ length q' = (length q - 1)%Z) ∧
        (comparable l = true → ∃ q', pop q = Done (Some x, q'))
    end.
Proof.
  intros Hrun. destruct (run_Done growslice ops q Hrun) as (l & Hh & _).
  exists l. split; [by destruct Hh|]. split; [by apply peek_holds|].
  destruct l as [|x0 l0] eqn:El; [by split; [|apply pop_empty]|].
  rewrite <- El in *. replace (head l) with (Some x0) by (by rewrite El).
  destruct (pop_holds q l Hh)
    as [[Hp Hc]|(x & q1 & l1 & Hpop & Hh1 & Hp1 & Hx & _)]; [by rewrite El| |].
  { split; [by rewrite Hp | by rewrite Hc]. }
  assert (x = x0) as -> by (rewrite El in Hx; simpl in Hx; congruence).
  split; [|by exists q1].
  intros r q' Hq'. rewrite Hpop in Hq'. injection Hq' as <- <-.
  split; [done|]. exists l1. split_and!; try done; [by destruct Hh1|].
  rewrite (length_holds q l Hh), (length_holds q1 l1 Hh1).
  apply Permutation_length in Hp1. simpl in Hp1. lia.
Qed.

Lemma pop_takes_peeked_witness :
  ∃ q,
    run doubling [OpPush (legacy 7 30); OpPush (legacy 5 10)] = Done q ∧
    ∃ l,
      minNonceQueue.shown (queue q) = pointers l ∧
      peek q = Done (head l) ∧
      match head l with
      | None => l = [] ∧ pop q = Done (None, q)
      | Some x =>
          (∀ r q', pop q = Done (r, q') →
             r = Some x ∧
             ∃ l', minNonceQueue.shown (queue q') = pointers l' ∧
                   l ≡ₚ x :: l' ∧ length q' = (length q - 1)%Z) ∧
          (comparable l = true → ∃ q', pop q = Done (Some x, q'))
      end.
Proof.
  eexists. split; [reflexivity|].
  apply (pop_takes_peeked doubling
           [OpPush (legacy 7 30); OpPush (legacy 5 10)]).
  reflexivity.
Defined.

(** [n] calls of [pop]: what they return, and the queue left. *)
Fixpoint pops (n : nat) (q : t) : exec (list (option Transaction) * t) :=
  match n with
  | O => Done ([], q)
  | S n =>
      '(x, q1) ← pop q;
      '(xs, q2) ← pops n q1;
      Done (x :: xs, q2)
  end.

Lemma account_pops_holds (n : nat) :
  ∀ (q : t) (l : list Transaction),
  List.length l = n → holds q l → comparable l = true →
  ∃ s q', pops n q = Done (pointers s, q') ∧ holds q' [] ∧ s ≡ₚ l ∧
          StronglySorted nonce_then_price s.
Proof.
  induction n as [|n IH]; intros q l Hn Hh Hc; simpl.
  { destruct l; [|done]. exists [], q. split_and!; try done. constructor. }
  destruct (pop_holds q l Hh)
    as [[_ Hf]|(x & q1 & l1 & -> & Hh1 & Hp1 & _ & Hmin)];
    [by destruct l | by rewrite Hc in Hf |].
  simpl.
  destruct (IH q1 l1) as (s & q2 & -> & Hh2 & Hp2 & Hs); [|done| |].
  { apply Permutation_length in Hp1. simpl in Hp1. lia. }
  { apply (comparable_sub _ _ Hc). rewrite Hp1. elems. }
  simpl. exists (x :: s), q2. split_and!; try done.
  - by rewrite Hp1, Hp2.
  - constructor; [done|]. apply Forall_forall. intros y Hy.
    assert (y ∈ l) as Hyl.
    { rewrite Hp1, <- Hp2. by apply elem_of_cons; right. }
    apply not_before_nonce_then_price; [|by apply Hmin].
    apply (proj1 (comparable_spec l) Hc); [|done].
    rewrite Hp1. by left.
Qed.

(** X4: after a sequence of operations on records that are compatible
    with one another, popping the account queue until it is empty returns
    every record it holds, in ascending order of nonce and, within a
    nonce, in descending order of the gas price field (records without a
    gas price beside one another); the queue is empty afterwards. *)
Theorem pops_in_nonce_order (growslice : nat → nat) (ops : list op) :
  comparable (pushed ops) = true →
  ∃ q l s q',
    run growslice ops = Done q ∧
    minNonceQueue.shown (queue q) = pointers l ∧
    pops (Z.to_nat (length q)) q = Done (pointers s, q') ∧
    minNonceQueue.shown (queue q') = [] ∧ s ≡ₚ l ∧
    StronglySorted nonce_then_price s.
Proof.
  intros Hc.
  destruct (run_comparable growslice ops Hc) as (q & l & Hrun & Hh & Hl).
  destruct (account_pops_holds _ q l eq_refl Hh Hl)
    as (s & q' & Hpops & Hh' & Hp & Hs).
  exists q, l, s, q'. rewrite (length_holds q l Hh), Nat2Z.id.
  split_and!; try done; [by destruct Hh | by destruct Hh'].
Qed.

Lemma pops_in_nonce_order_witness :
  comparable (pushed [OpPush (legacy 7 10); OpPush (dynamic_fee 9 9 200 50);
                      OpPush (legacy 7 20); OpPush (legacy 3 1)]) = true ∧
  ∃ q l s q',
    run doubling
      [OpPush (legacy 7 10); OpPush (dynamic_fee 9 9 200 50);
       OpPush (legacy 7 20); OpPush (legacy 3 1)] = Done q ∧
    minNonceQueue.shown (queue q) = pointers l ∧
    pops (Z.to_nat (length q)) q = Done (pointers s, q') ∧
    minNonceQueue.shown (queue q') = [] ∧ s ≡ₚ l ∧
    StronglySorted nonce_then_price s.
Proof.
  split; [reflexivity|].
  apply (pops_in_nonce_order doubling
           [OpPush (legacy 7 10); OpPush (dynamic_fee 9 9 200 50);
            OpPush (legacy 7 20); OpPush (legacy 3 1)]).
  reflexivity.
Defined.

(** Where the loop of [prune] stops: the queue shows nil or a record
    with a nonce of at least the threshold. *)
Lemma prune_loop_stops (m : nat) :
  ∀ (q : t) (nonce : N) acc r q',
  List.length (minNonceQueue.shown (queue q)) ≤ m →
  prune_loop q nonce acc = Done (r, q') →
  peek q' = Done None ∨
  ∃ tx, peek q' = Done (Some tx) ∧ (nonce <= Nonce tx)%N.
Proof.
  induction m as [|m IH]; intros q nonce acc r q' Hm;
    rewrite prune_loop_step;
    (destruct (peek q) as [[tx|]|] eqn:Hpeek; [| |done]);
    try (intros [= _ <-]; by left);
    (destruct (decide (Nonce tx >= nonce)%N) as [Hge|Hlt];
       [intros [= _ <-]; right; exists tx; split; [done | lia]|]);
    (destruct (pop q) as [[x q1]|] eqn:Hpop; [|done]);
    unfold peek, pop in Hpeek, Hpop;
    (destruct (length q =? 0)%Z eqn:Hlen; [done|]);
    (destruct (heap.Pop (queue q)) as [[y h]|] eqn:Hp; [|done]);
    apply heap_Pop_shrinks in Hp;
    (assert (q1 = with_queue q h) as ->
       by (by destruct y; injection Hpop as _ <-)).
  - lia.
  - apply IH. simpl. lia.
Qed.

(** X5: after a [prune n] that has returned, on any queue, a [prune m]
    with [m <= n] finds nothing to remove: it returns no record and
    leaves the queue exactly as it is.  The first [prune] returns on
    every queue reached by operations on records that are compatible
    with one another. *)
Theorem prune_again_nothing (n m : N) :
  (m <= n)%N →
  (∀ q r q', prune q n = Done (r, q') → prune q' m = Done ([], q')) ∧
  (∀ growslice ops, comparable (pushed ops) = true →
     ∃ q r q', run growslice ops = Done q ∧ prune q n = Done (r, q')).
Proof.
  intros Hmn. split.
  - intros q r q' Hpr. unfold prune in *.
    apply (prune_loop_stops (List.length (minNonceQueue.shown (queue q))))
      in Hpr; [|done].
    rewrite prune_loop_step.
    destruct Hpr as [->|(tx & -> & Htx)]; [done|].
    rewrite decide_True by lia. done.
  - intros growslice ops Hc.
    destruct (run_comparable growslice ops Hc) as (q & l & Hrun & Hh & Hl).
    destruct (prune_holds q l n Hh) as [[_ Hf]|(r & q' & l' & Hpr & _)];
      [by rewrite Hl in Hf|].
    by exists q, (pointers r), q'.
Qed.

Lemma prune_again_nothing_witness :
  (3 <= 10)%N ∧
  (∀ q r q', prune q 10 = Done (r, q') → prune q' 3 = Done ([], q')) ∧
  (∀ growslice ops, comparable (pushed ops) = true →
     ∃ q r q', run growslice ops = Done q ∧ prune q 10 = Done (r, q')).
Proof.
  split; [lia|]. apply (prune_again_nothing 10 3). lia.
Defined.

(** X6: [push] takes a nil pointer past the type assertion of
    [minNonceQueue.Push].  On an empty queue it is stored: [length] is 1
    while [peek] returns nil.  On a queue that holds a record the heap
    compares the new element with its parent, and the push panics.  Every
    queue that a sequence of operations reaches holds pointers to records
    only. *)
Theorem push_nil (growslice : nat → nat) (ops : list op) (q : t) :
  run growslice ops = Done q →
  ∃ l,
    minNonceQueue.shown (queue q) = pointers l ∧
    match l with
    | [] =>
        ∃ q', push q None = Done q' ∧
              minNonceQueue.shown (queue q') = [None] ∧
              length q' = 1%Z ∧ peek q' = Done None
    | _ :: _ => push q None = Panicked
    end.
Proof.
  intros Hrun.
  destruct (run_Done growslice ops q Hrun) as (l & [Hq Hh] & _).
  unfold shows in Hq. exists l. split; [done|].
  assert (minNonceQueue.shown (minNonceQueue.append (queue q) None)
          = pointers l ++ [None]) as Happ by (by rewrite shown_append, Hq).
  unfold push, heap.Push. simpl. unfold minNonceQueue.Len. rewrite Happ.
  destruct l as [|x l0] eqn:Hl.
  - simpl. rewrite heap.up_step. simpl.
    eexists. split; [done|]. unfold length, peek, length, minNonceQueue.Len,
      minNonceQueue.Peek, minNonceQueue.Len. simpl. by rewrite Happ.
  - rewrite <- Hl in *. unfold pointers.
    rewrite length_app, length_fmap. simpl.
    replace (Z.of_nat (List.length l + 1) - 1)%Z
      with (Z.of_nat (List.length l)) by lia.
    rewrite heap.up_step. cbn zeta.
    assert (0 < List.length l) as Hlen by (rewrite Hl; simpl; lia).
    rewrite parent_quot by lia.
    pose proof (parent_lt (List.length l) Hlen).
    rewrite decide_False by lia. simpl. unfold minNonceQueue.Less.
    rewrite Happ.
    rewrite (index_of_nat _ (List.length l) None); [done|].
    unfold pointers. rewrite lookup_app_r by (by rewrite length_fmap).
    by rewrite length_fmap, Nat.sub_diag.
Qed.

Lemma push_nil_witness :
  ∃ q,
    run doubling [OpPush (legacy 7 30); OpPop] = Done q ∧
    ∃ l,
      minNonceQueue.shown (queue q) = pointers l ∧
      match l with
      | [] =>
          ∃ q', push q None = Done q' ∧
                minNonceQueue.shown (queue q') = [None] ∧
                length q' = 1%Z ∧ peek q' = Done None
      | _ :: _ => push q None = Panicked
      end.
Proof.
  eexists. split; [reflexivity|].
  apply (push_nil doubling [OpPush (legacy 7 30); OpPop]).
  reflexivity.
Defined.

(** X21: on every account queue reached by operations on records that
    are compatible with one another, [prune n] returns the records whose
    nonce is below [n], in ascending order of nonce, and leaves the
    others: no record left has a nonce below [n]. *)
Theorem prune_removes_below (growslice : nat → nat) (ops : list op)
    (nonce : N) :
  comparable (pushed ops) = true →
  ∃ q l removed q' l',
    run growslice ops = Done q ∧
    minNonceQueue.shown (queue q) = pointers l ∧
    prune q nonce = Done (pointers removed, q') ∧
    minNonceQueue.shown (queue q') = pointers l' ∧
    removed ≡ₚ filter (λ tx, (Nonce tx < nonce)%N) l ∧
    l' ≡ₚ filter (λ tx, (nonce <= Nonce tx)%N) l ∧
    Forall (λ tx, (nonce <= Nonce tx)%N) l' ∧
    StronglySorted (λ a b, (Nonce a <= Nonce b)%N) removed.
Proof.
  intros Hc.
  destruct (run_comparable growslice ops Hc) as (q & l & Hrun & Hh & Hl).
  destruct (prune_holds q l nonce Hh)
    as [[_ Hf]|(r & q' & l' & Hpr & Hh' & Hp & Hr & Hl' & Hs)];
    [by rewrite Hl in Hf|].
  assert (∀ (P : Transaction → Prop) `{∀ x, Decision (P x)} k,
            Forall P k → filter P k = k) as filter_all.
  { intros P ? k. induction 1 as [|x k Hx _ IH]; [done|].
    by rewrite filter_cons_True, IH. }
  assert (∀ (P : Transaction → Prop) `{∀ x, Decision (P x)} k,
            Forall (λ x, ¬ P x) k → filter P k = []) as filter_none.
  { intros P ? k. induction 1 as [|x k Hx _ IH]; [done|].
    by rewrite filter_cons_False, IH. }
  exists q, l, r, q', l'. split_and!; try done.
  - by destruct Hh.
  - by destruct Hh'.
  - rewrite Hp, filter_app, (filter_all _ _ r Hr), (filter_none _ _ l'),
      app_nil_r; [done|].
    eapply Forall_impl; [exact Hl'|]. simpl. lia.
  - rewrite Hp, filter_app, (filter_all _ _ l' Hl'), (filter_none _ _ r);
      [done|].
    eapply Forall_impl; [exact Hr|]. simpl. lia.
Qed.

Lemma prune_removes_below_witness :
  comparable (pushed [OpPush (legacy 3 1); OpPush (dynamic_fee 7 7 200 50);
                      OpPush (legacy 12 1); OpPush (legacy 15 1)]) = true ∧
  ∃ q l removed q' l',
    run doubling
      [OpPush (legacy 3 1); OpPush (dynamic_fee 7 7 200 50);
       OpPush (legacy 12 1); OpPush (legacy 15 1)] = Done q ∧
    minNonceQueue.shown (queue q) = pointers l ∧
    prune q 10 = Done (pointers removed, q') ∧
    minNonceQueue.shown (queue q') = pointers l' ∧
    removed ≡ₚ filter (λ tx, (Nonce tx < 10)%N) l ∧
    l' ≡ₚ filter (λ tx, (10 <= Nonce tx)%N) l ∧
    Forall (λ tx, (10 <= Nonce tx)%N) l' ∧
    StronglySorted (λ a b, (Nonce a <= Nonce b)%N) removed.
Proof.
  split; [reflexivity|].
  apply (prune_removes_below doubling
           [OpPush (legacy 3 1); OpPush (dynamic_fee 7 7 200 50);
            OpPush (legacy 12 1); OpPush (legacy 15 1)] 10).
  reflexivity.
Defined.

(** X23: every account queue that a sequence of operations reaches,
    whatever records were pushed, holds pointers to records that were
    pushed, in heap order as [Less] itself sees it: for every element
    but the root, [Less] returns, and says that the element does not come
    before the one at its parent. *)
Theorem reached_queue_in_heap_order (growslice : nat → nat) (ops : list op)
    (q : t) :
  run growslice ops = Done q →
  ∃ l,
    minNonceQueue.shown (queue q) = pointers l ∧ l ⊆ pushed ops ∧
    ∀ c, 0 < c < List.length l →
      minNonceQueue.Less (queue q) (Z.of_nat c) (Z.of_nat (parent c))
        = Done false.
Proof.
  intros Hrun.
  destruct (run_Done growslice ops q Hrun) as (l & [Hq Hh] & Hs).
  exists l. split_and!; try done. intros c Hc.
  by apply (minNonce_Less_parent (queue q) l).
Qed.

Lemma reached_queue_in_heap_order_witness :
  ∃ q,
    run doubling [OpPush (legacy 5 10); OpPush (legacy 7 30);
                  OpPush (dynamic_fee 7 9 200 50)] = Done q ∧
    ∃ l,
      minNonceQueue.shown (queue q) = pointers l ∧
      l ⊆ pushed [OpPush (legacy 5 10); OpPush (legacy 7 30);
                  OpPush (dynamic_fee 7 9 200 50)] ∧
      ∀ c, 0 < c < List.length l →
        minNonceQueue.Less (queue q) (Z.of_nat c) (Z.of_nat (parent c))
          = Done false.
Proof.
  eexists. split; [reflexivity|].
  apply (reached_queue_in_heap_order doubling
           [OpPush (legacy 5 10); OpPush (legacy 7 30);
            OpPush (dynamic_fee 7 9 200 50)]).
  reflexivity.
Defined.

(** X26: the slice that [clear] hands out is on the array of the queue.
    When [clear] returns, the queue is empty and the slice shows the
    elements that the queue had; the next [push], of any pointer,
    returns, and then the slice shows the pushed pointer in the place of
    its first element. *)
Theorem clear_shares_array (q : t) (x : option Transaction) :
  let removed := (clear q).1 in
  let q1 := (clear q).2 in
  length q1 = 0%Z ∧ mu q1 = mu q ∧ wLock q1 = wLock q ∧
  minNonceQueue.elements (queue q1) removed = minNonceQueue.shown (queue q) ∧
  ∃ q2,
    push q1 x = Done q2 ∧ minNonceQueue.shown (queue q2) = [x] ∧
    minNonceQueue.elements (queue q2) removed
      = match minNonceQueue.shown (queue q) with
        | [] => []
        | _ :: rest => x :: rest
        end.
Proof.
  cbn zeta. split; [done|]. split; [done|]. split; [done|].
  split; [apply elements_clear|].
  unfold push, clear, heap.Push. simpl.
  unfold minNonceQueue.append, minNonceQueue.reslice_empty,
    minNonceQueue.elements, minNonceQueue.header. simpl.
  destruct (minNonceQueue.shown (queue q)) as [|p rest]; simpl.
  - destruct (minNonceQueue.spare (queue q)); simpl;
      rewrite heap.up_step; simpl; eexists; split_and!; done.
  - rewrite heap.up_step. simpl. eexists. split_and!; try done. simpl.
    rewrite Nat.eqb_refl. simpl. f_equal. by rewrite take_app_length.
Qed.

Lemma clear_shares_array_example :
  (q ← run doubling [OpPush (legacy 5 10); OpPush (legacy 7 30)];
   let '(removed, q1) := clear q in
   q2 ← push q1 (Some (legacy 9 1));
   Done (minNonceQueue.elements (queue q1) removed,
         minNonceQueue.elements (queue q2) removed,
         minNonceQueue.shown (queue q2)))
  = Done (pointers [legacy 5 10; legacy 7 30],
          pointers [legacy 9 1; legacy 7 30],
          pointers [legacy 9 1]).
Proof. reflexivity. Qed.




End account_more.

(* ------------------------------------------------------------------ *)
(** ** The priced queue: conservation and the record returned *)

Module priced_more.
Import pricedQueue pricedQueue_theory heap_theory.
Local Open Scope nat_scope.

(** An operation with what it returns. *)
Definition step_out (q : t) (o : op)
  : exec (list (option Transaction) * t) :=
  match o with
  | OpPush tx => q' ← push q (Some tx); Done ([], q')
  | OpPop => '(x, q') ← pop q; Done ([x], q')
  end.

Fixpoint run_out_from (q : t) (ops : list op)
  : exec (list (option Transaction) * t) :=
  match ops with
  | [] => Done ([], q)
  | o :: ops =>
      '(out1, q1) ← step_out q o;
      '(out2, q2) ← run_out_from q1 ops;
      Done (out1 ++ out2, q2)
  end.

Definition run_out (baseFee : N) (initialTxs : list Transaction)
    (ops : list op) : exec (list (option Transaction) * t) :=
  q ← newPricesQueue baseFee (pointers initialTxs); run_out_from q ops.

Lemma priced_run_out_from_holds (f : Z) (ops : list op) :
  forallb populated (pushed ops) = true →
  ∀ (q : t) (l : list Transaction),
  holds f q l →
  ∃ out q' l', run_out_from q ops = Done (out, q') ∧ holds f q' l' ∧
               account_more.records out ++ l' ≡ₚ l ++ pushed ops.
Proof.
  induction ops as [|o ops IH]; intros Hpop q l Hh; simpl.
  { exists [], q, l. by rewrite app_nil_r. }
  destruct o as [tx|]; simpl.
  - change (pushed (OpPush tx :: ops)) with (tx :: pushed ops) in *.
    simpl in Hpop. apply andb_true_iff in Hpop as [Htx Hpop].
    destruct (priced_push_holds f q l tx Hh Htx) as (q1 & l1 & -> & Hh1 & Hp1).
    simpl.
    destruct (IH Hpop q1 l1 Hh1) as (out & q2 & l2 & -> & Hh2 & Hp2). simpl.
    exists out, q2, l2. split_and!; try done.
    rewrite Hp2, Hp1. simpl. apply Permutation_middle.
  - change (pushed (OpPop :: ops)) with (pushed ops) in *.
    destruct (decide (l = [])) as [->|Hne].
    + rewrite (priced_pop_empty f q Hh). simpl.
      destruct (IH Hpop q [] Hh) as (out & q2 & l2 & -> & Hh2 & Hp2). simpl.
      by exists (None :: out), q2, l2.
    + destruct (priced_pop_holds f q l Hh Hne)
        as (x & q1 & l1 & -> & Hh1 & Hp1 & _).
      simpl.
      destruct (IH Hpop q1 l1 Hh1) as (out & q2 & l2 & -> & Hh2 & Hp2). simpl.
      exists (Some x :: out), q2, l2. split_and!; try done.
      unfold account_more.records in *. simpl. by rewrite Hp2, Hp1.
Qed.

(** X7: over any sequence of pushes and pops on a priced queue of
    records that carry the fee fields of their type, the records popped
    together with the records still in the queue are exactly the initial
    records and the records pushed; [length] is the number of records in
    the queue, and the base fee is the one given at construction. *)
Theorem priced_nothing_lost (baseFee : N) (initialTxs : list Transaction)
    (ops : list op) :
  forallb populated (initialTxs ++ pushed ops) = true →
  ∃ out q l,
    run_out baseFee initialTxs ops = Done (out, q) ∧
    queue q = maxPriceQueue.mk (big.SetUint64 baseFee) (pointers l) ∧
    account_more.records out ++ l ≡ₚ initialTxs ++ pushed ops ∧
    length q = Z.of_nat (List.length l).
Proof.
  rewrite forallb_app. intros [Hi Hpu]%andb_true_iff. unfold run_out.
  destruct (newPricesQueue_holds baseFee initialTxs Hi)
    as (q0 & l0 & -> & Hh0 & Hp0).
  simpl.
  destruct (priced_run_out_from_holds _ ops Hpu q0 l0 Hh0)
    as (out & q & l & -> & Hh & Hp).
  exists out, q, l. split_and!; try done.
  - by destruct Hh.
  - by rewrite Hp, Hp0.
  - by apply (priced_length_holds (Z.of_N baseFee) q l).
Qed.

Lemma priced_nothing_lost_witness :
  forallb populated
    ([legacy 1 10; dynamic_fee 4 4 30 2]
       ++ pushed [OpPush (dynamic_fee 2 9 200 50); OpPop;
                  OpPush (legacy 3 7)]) = true ∧
  ∃ out q l,
    run_out 5 [legacy 1 10; dynamic_fee 4 4 30 2]
      [OpPush (dynamic_fee 2 9 200 50); OpPop; OpPush (legacy 3 7)]
      = Done (out, q) ∧
    queue q = maxPriceQueue.mk (big.SetUint64 5) (pointers l) ∧
    account_more.records out ++ l
      ≡ₚ [legacy 1 10; dynamic_fee 4 4 30 2]
           ++ pushed [OpPush (dynamic_fee 2 9 200 50); OpPop;
                      OpPush (legacy 3 7)] ∧
    length q = Z.of_nat (List.length l).
Proof.
  split; [reflexivity|].
  apply (priced_nothing_lost 5 [legacy 1 10; dynamic_fee 4 4 30 2]
           [OpPush (dynamic_fee 2 9 200 50); OpPop; OpPush (legacy 3 7)]).
  reflexivity.
Defined.

(** X8: on any priced queue of records that carry the fee fields of
    their type, when the queue holds a record [pop] returns a record of
    the queue above which the comparator of section 4.2 ranks no record of
    the queue, and takes exactly this record out; on the empty queue it
    returns nil. *)
Theorem pop_returns_top (baseFee : N) (initialTxs : list Transaction)
    (ops : list op) :
  forallb populated (initialTxs ++ pushed ops) = true →
  ∃ q l,
    run baseFee initialTxs ops = Done q ∧
    maxPriceQueue.txs (queue q) = pointers l ∧
    match l with
    | [] => pop q = Done (None, q)
    | _ :: _ =>
        ∃ x q' l',
          pop q = Done (Some x, q') ∧
          maxPriceQueue.txs (queue q') = pointers l' ∧
          l ≡ₚ x :: l' ∧
          ∀ y, y ∈ l → ¬ Spec.ranks_higher (Z.of_N baseFee) y x
    end.
Proof.
  intros Hpop.
  destruct (priced_run_holds baseFee initialTxs ops Hpop)
    as (q & l & Hrun & Hh).
  exists q, l. split_and!; try done.
  { destruct Hh as [-> _]. done. }
  destruct l as [|x0 l0] eqn:Hl.
  - by apply (priced_pop_empty (Z.of_N baseFee) q).
  - rewrite <- Hl in *.
    destruct (priced_pop_holds _ q l Hh)
      as (x & q' & l' & Hpo & Hh' & Hp & _ & Hmin).
    { by rewrite Hl. }
    exists x, q', l'. split_and!; try done.
    + destruct Hh' as [-> _]. done.
    + intros y Hy. rewrite ranks_higher_price_before. by rewrite (Hmin y Hy).
Qed.

Lemma pop_returns_top_witness :
  forallb populated
    ([legacy 1 10; dynamic_fee 4 4 30 2]
       ++ pushed [OpPush (dynamic_fee 2 9 200 50); OpPop;
                  OpPush (legacy 3 7)]) = true ∧
  ∃ q l,
    run 5 [legacy 1 10; dynamic_fee 4 4 30 2]
      [OpPush (dynamic_fee 2 9 200 50); OpPop; OpPush (legacy 3 7)]
      = Done q ∧
    maxPriceQueue.txs (queue q) = pointers l ∧
    match l with
    | [] => pop q = Done (None, q)
    | _ :: _ =>
        ∃ x q' l',
          pop q = Done (Some x, q') ∧
          maxPriceQueue.txs (queue q') = pointers l' ∧
          l ≡ₚ x :: l' ∧
          ∀ y, y ∈ l → ¬ Spec.ranks_higher (Z.of_N 5) y x
    end.
Proof.
  split; [reflexivity|].
  apply (pop_returns_top 5 [legacy 1 10; dynamic_fee 4 4 30 2]
           [OpPush (dynamic_fee 2 9 200 50); OpPop; OpPush (legacy 3 7)]).
  reflexivity.
Defined.

End priced_more.

(* ------------------------------------------------------------------ *)
(** ** The comparator *)

Module comparator_more.
Local Open Scope Z_scope.

(** The value [cmp] returns orders by the three tiers, lexicographically. *)
Definition tiers_above (f : Z) (a b : Transaction) : Prop :=
  tier1 f a > tier1 f b ∨
  (tier1 f a = tier1 f b ∧
   (fee_value a > fee_value b ∨
    (fee_value a = fee_value b ∧ tip_value a > tip_value b))).

Definition tiers_equal (f : Z) (a b : Transaction) : Prop :=
  tier1 f a = tier1 f b ∧ fee_value a = fee_value b ∧
  tip_value a = tip_value b.

Lemma tiers_cases (f : Z) (a b : Transaction) :
  (tiers a b f = 1 ∧ tiers_above f a b) ∨
  (tiers a b f = 0 ∧ tiers_equal f a b) ∨
  (tiers a b f = -1 ∧ tiers_above f b a).
Proof.
  unfold tiers, tiers_above, tiers_equal.
  destruct (Cmp_spec (tier1 f a) (tier1 f b)) as [[-> ?]|[[-> ?]|[-> ?]]];
    simpl; [lia| |lia].
  destruct (Cmp_spec (fee_value a) (fee_value b))
    as [[-> ?]|[[-> ?]|[-> ?]]]; simpl; [lia| |lia].
  destruct (Cmp_spec (tip_value a) (tip_value b))
    as [[-> ?]|[[-> ?]|[-> ?]]]; simpl; lia.
Qed.

Lemma tiers_preorder (f : Z) (a b c : Transaction) :
  (tiers a b f = -1 ∨ tiers a b f = 0 ∨ tiers a b f = 1) ∧
  tiers b a f = - tiers a b f ∧
  tiers a a f = 0 ∧
  (tiers a b f >= 0 → tiers b c f >= 0 → tiers a c f >= 0) ∧
  (tiers a b f = 0 → tiers b c f = tiers a c f).
Proof.
  pose proof (tiers_cases f a b) as Hab. pose proof (tiers_cases f b a) as Hba.
  pose proof (tiers_cases f a a) as Haa. pose proof (tiers_cases f b c) as Hbc.
  pose proof (tiers_cases f a c) as Hac.
  unfold tiers_above, tiers_equal in *.
  revert Hab Hba Haa Hbc Hac.
  generalize (tiers a b f), (tiers b a f), (tiers a a f), (tiers b c f),
    (tiers a c f).
  generalize (tier1 f a), (tier1 f b), (tier1 f c).
  generalize (fee_value a), (fee_value b), (fee_value c).
  generalize (tip_value a), (tip_value b), (tip_value c).
  intros. lia.
Qed.

(** X9: under every base fee [cmp] is a three-way comparison of a total
    preorder.  On records that carry the fee fields of their type it
    returns; and whatever it returns, on any records, is -1, 0 or 1,
    exchanging the arguments negates the result, a record ties with
    itself, and "not below" is transitive. *)
Theorem cmp_total_preorder (f : Z) (a b c : Transaction) :
  (populated a = true → populated b = true → populated c = true →
   ∃ ab ba aa bc ac,
     cmp a b f = Done ab ∧ cmp b a f = Done ba ∧ cmp a a f = Done aa ∧
     cmp b c f = Done bc ∧ cmp a c f = Done ac) ∧
  (∀ ab ba aa bc ac,
     cmp a b f = Done ab → cmp b a f = Done ba → cmp a a f = Done aa →
     cmp b c f = Done bc → cmp a c f = Done ac →
     (ab = -1 ∨ ab = 0 ∨ ab = 1) ∧
     ba = - ab ∧
     aa = 0 ∧
     (ab >= 0 → bc >= 0 → ac >= 0) ∧
     (ab = 0 → bc = ac)).
Proof.
  split.
  - intros Ha Hb Hc.
    exists (tiers a b f), (tiers b a f), (tiers a a f), (tiers b c f),
      (tiers a c f).
    by rewrite !cmp_populated.
  - intros ab ba aa bc ac ->%cmp_Done ->%cmp_Done ->%cmp_Done ->%cmp_Done
      ->%cmp_Done.
    apply tiers_preorder.
Qed.

Lemma EffectiveGasTip_min (t : Transaction) (g tip fee : Z) :
  g ≠ 0 → GetGasTipCap t = Some tip → GetGasFeeCap t = Some fee →
  EffectiveGasTip t (Some g) = Done (Some (Z.min tip (fee - g))).
Proof.
  intros Hg Htip Hfee. unfold EffectiveGasTip.
  rewrite BitLen_zero. destruct (Z.eqb_spec g 0); [done|].
  rewrite Htip, Hfee. simpl. by rewrite BigMin_min.
Qed.

(** X10: without a base fee, or under the base fee zero,
    [EffectiveGasTip] returns the tip cap, as the pointer it is.  For a
    record with a tip cap and a fee cap, under a base fee other than zero
    it returns the smaller of the tip cap and of what the fee cap leaves
    above the base fee (negative when the base fee exceeds the fee cap);
    it never exceeds the tip cap, and raising a positive base fee never
    raises it. *)
Theorem EffectiveGasTip_bounds (t : Transaction) (f f' tip fee : Z) :
  GetGasTipCap t = Some tip → GetGasFeeCap t = Some fee →
  EffectiveGasTip t None = Done (Some tip) ∧
  EffectiveGasTip t (Some 0) = Done (Some tip) ∧
  (∃ e, EffectiveGasTip t (Some f) = Done (Some e) ∧ e <= tip) ∧
  (f ≠ 0 →
     ∃ e, EffectiveGasTip t (Some f) = Done (Some e) ∧
          e <= fee - f ∧ (e = tip ∨ e = fee - f) ∧ (fee < f → e < 0)) ∧
  (0 < f <= f' →
     ∃ e e', EffectiveGasTip t (Some f) = Done (Some e) ∧
             EffectiveGasTip t (Some f') = Done (Some e') ∧ e' <= e).
Proof.
  intros Htip Hfee.
  assert (EffectiveGasTip t (Some 0) = Done (Some tip)) as H0.
  { unfold EffectiveGasTip. by rewrite Htip. }
  split; [unfold EffectiveGasTip; by rewrite Htip|].
  split; [done|]. split_and!.
  - destruct (decide (f = 0)) as [->|Hf].
    + exists tip. split; [done | lia].
    + exists (Z.min tip (fee - f)).
      split; [by apply EffectiveGasTip_min | lia].
  - intros Hf. exists (Z.min tip (fee - f)).
    split; [by apply EffectiveGasTip_min | lia].
  - intros Hf. exists (Z.min tip (fee - f)), (Z.min tip (fee - f')).
    split_and!; [apply EffectiveGasTip_min; try done; lia ..| lia].
Qed.

Lemma EffectiveGasTip_bounds_witness :
  GetGasTipCap (dynamic_fee 2 9 200 50) = Some 50 ∧
  GetGasFeeCap (dynamic_fee 2 9 200 50) = Some 200 ∧
  EffectiveGasTip (dynamic_fee 2 9 200 50) None = Done (Some 50) ∧
  EffectiveGasTip (dynamic_fee 2 9 200 50) (Some 0) = Done (Some 50) ∧
  (∃ e, EffectiveGasTip (dynamic_fee 2 9 200 50) (Some 170) = Done (Some e) ∧
        e <= 50) ∧
  (170 ≠ 0 →
     ∃ e, EffectiveGasTip (dynamic_fee 2 9 200 50) (Some 170)
            = Done (Some e) ∧
          e <= 200 - 170 ∧ (e = 50 ∨ e = 200 - 170) ∧ (200 < 170 → e < 0)) ∧
  (0 < 170 <= 230 →
     ∃ e e', EffectiveGasTip (dynamic_fee 2 9 200 50) (Some 170)
               = Done (Some e) ∧
             EffectiveGasTip (dynamic_fee 2 9 200 50) (Some 230)
               = Done (Some e') ∧ e' <= e).
Proof.
  split; [reflexivity|]. split; [reflexivity|].
  apply (EffectiveGasTip_bounds (dynamic_fee 2 9 200 50) 170 230 50 200);
    reflexivity.
Defined.

(** X11: two records that are not dynamic-fee records are compared by
    their gas price fields alone: [cmp] returns what [Int.Cmp] returns on
    the two fields, under every base fee, the one case apart where both
    fields are nil and the base fee is not zero: there [Int.Cmp] returns 0
    and [cmp] panics. *)
Theorem legacy_by_gas_price (a b : Transaction) (f : Z) :
  Type_ a ≠ DynamicFeeTx → Type_ b ≠ DynamicFeeTx →
  (f = 0 ∨ GasPrice a ≠ None ∨ GasPrice b ≠ None →
   cmp a b f = big.Cmp (GasPrice a) (GasPrice b)) ∧
  (f ≠ 0 → GasPrice a = None → GasPrice b = None → cmp a b f = Panicked).
Proof.
  intros Ha Hb. unfold cmp, EffectiveGasTip, GetGasTipCap, GetGasFeeCap.
  destruct (N.eqb_spec (Type_ a) DynamicFeeTx); [done|].
  destruct (N.eqb_spec (Type_ b) DynamicFeeTx); [done|].
  rewrite BitLen_pos, BitLen_zero.
  destruct (GasPrice a) as [pa|], (GasPrice b) as [pb|];
    destruct (Z.eqb_spec f 0) as [->|Hf]; simpl;
    (split; [intros Hor | intros; try done]); try done;
    try (by destruct Hor as [?|[?|?]]);
    rewrite ?BigMin_min;
    try (destruct (Cmp_spec pa pb) as [[-> ?]|[[-> ?]|[-> ?]]];
         destruct (Cmp_spec (Z.min pa (pa - f)) (Z.min pb (pb - f)))
           as [[-> ?]|[[-> ?]|[-> ?]]]; simpl; try done; lia).
  by destruct (negb _).
Qed.

Lemma legacy_by_gas_price_witness :
  Type_ (legacy 1 30) ≠ DynamicFeeTx ∧
  Type_ state_tx_example ≠ DynamicFeeTx ∧
  (100 = 0 ∨ GasPrice (legacy 1 30) ≠ None ∨ GasPrice state_tx_example ≠ None →
   cmp (legacy 1 30) state_tx_example 100
     = big.Cmp (GasPrice (legacy 1 30)) (GasPrice state_tx_example)) ∧
  (100 ≠ 0 → GasPrice (legacy 1 30) = None → GasPrice state_tx_example = None →
   cmp (legacy 1 30) state_tx_example 100 = Panicked).
Proof.
  split; [done|]. split; [done|].
  apply (legacy_by_gas_price (legacy 1 30) state_tx_example 100); done.
Defined.

(** X24: under a base fee other than zero [EffectiveGasTip] reads through
    both cap pointers: it panics exactly on a record that lacks a fee
    field of its type, whereas without a base fee, or under the base fee
    zero, it returns the tip cap pointer as it is, nil included. *)
Theorem EffectiveGasTip_panics_on_missing_cap (t : Transaction) (f : Z) :
  EffectiveGasTip t None = Done (GetGasTipCap t) ∧
  EffectiveGasTip t (Some 0) = Done (GetGasTipCap t) ∧
  (f ≠ 0 → (EffectiveGasTip t (Some f) = Panicked ↔ populated t = false)).
Proof.
  unfold EffectiveGasTip, populated. split_and!; try done.
  intros Hf. rewrite BitLen_zero. destruct (Z.eqb_spec f 0); [done|].
  by destruct (GetGasTipCap t), (GetGasFeeCap t).
Qed.

(** X25: under a base fee other than zero [cmp] panics exactly when one
    of the two records lacks a fee field of its type; under the base fee
    zero two records that both lack every fee field tie. *)
Theorem cmp_panics_on_missing_cap (a b : Transaction) (f : Z) :
  (f ≠ 0 →
   (cmp a b f = Panicked ↔ populated a && populated b = false)) ∧
  (GetGasTipCap a = None → GetGasFeeCap a = None →
   GetGasTipCap b = None → GetGasFeeCap b = None → cmp a b 0 = Done 0).
Proof.
  split.
  - intros Hf.
    destruct (populated a) eqn:Ha, (populated b) eqn:Hb; simpl;
      try (rewrite cmp_populated by done; done);
      (split; [done|intros _]); unfold cmp, EffectiveGasTip;
      rewrite BitLen_pos, BitLen_zero;
      (destruct (Z.eqb_spec f 0); [done|]); simpl; unfold populated in *;
      destruct (GetGasTipCap a), (GetGasFeeCap a); try done;
      destruct (GetGasTipCap b), (GetGasFeeCap b); done.
  - intros Hta Hfa Htb Hfb. unfold cmp. by rewrite Hta, Hfa, Htb, Hfb.
Qed.

Lemma cmp_panics_on_missing_cap_example :
  cmp (legacy 1 30) (dynamic_fee 1 2 40 30) 5 = Done (-1) ∧
  cmp {| Nonce := 1; GasPrice := Some 30; GasTipCap := None;
         GasFeeCap := None; Gas := 21000; To := None; Value := Some 0;
         Hash := 1; From_ := 1; Type_ := DynamicFeeTx |}
      (dynamic_fee 1 2 30 30) 5 = Panicked.
Proof. done. Qed.

End comparator_more.

(* ------------------------------------------------------------------ *)
(** ** [Less] as the heap needs it *)

Module less_more.
Import heap_theory.
Local Open Scope nat_scope.

(** An order on records, read at two indices of a slice. *)
Definition by_index (lt : Transaction → Transaction → bool)
    (l : list Transaction) (i j : nat) : bool :=
  match l !! i, l !! j with
  | Some a, Some b => lt a b
  | _, _ => false
  end.

(** What [container/heap] asks of [Less], on the indices in range. *)
Definition strict_weak_below (n : nat) (less : nat → nat → bool) : Prop :=
  (∀ i, i < n → less i i = false) ∧
  (∀ i j, i < n → j < n → less i j = true → less j i = false) ∧
  (∀ i j k, i < n → j < n → k < n →
     less i j = true → less j k = true → less i k = true) ∧
  (∀ i j k, i < n → j < n → k < n →
     less i j = false → less j k = false → less i k = false).

Lemma by_index_strict_weak (lt : Transaction → Transaction → bool)
    (l : list Transaction) :
  StrictWeak lt → strict_weak_below (List.length l) (by_index lt l).
Proof.
  intros HS. unfold strict_weak_below, by_index.
  split_and!; intros i; [intros Hi | intros j Hi Hj | intros j k Hi Hj Hk ..];
    repeat match goal with
    | H : ?n < List.length l |- _ =>
        apply lookup_lt_is_Some_2 in H as [? ->]
    end.
  - apply (lt_irrefl _ HS).
  - apply (lt_asym _ HS).
  - apply (lt_trans _ HS).
  - apply (lt_negtrans _ HS).
Qed.

Lemma read_record (l : list Transaction) (i : nat) (a : Transaction) :
  l !! i = Some a → index (pointers l) (Z.of_nat i) ≫= deref = Done a.
Proof.
  intros Hi. rewrite (index_of_nat _ i (Some a)); [done|].
  unfold pointers. by rewrite list_lookup_fmap, Hi.
Qed.

Lemma minNonce_Less_records (q : minNonceQueue.t) (l : list Transaction)
    (i j : nat) (a b : Transaction) :
  minNonceQueue.shown q = pointers l → l !! i = Some a → l !! j = Some b →
  minNonceQueue.Less q (Z.of_nat i) (Z.of_nat j) = less_records a b.
Proof.
  intros Hq Hi Hj. unfold minNonceQueue.Less. rewrite !Hq.
  rewrite (read_record l i a Hi). simpl.
  by rewrite (read_record l j b Hj).
Qed.

Lemma forallb_false {A} (f : A → bool) (l : list A) :
  forallb f l = false → ∃ x, x ∈ l ∧ f x = false.
Proof.
  induction l as [|x l IH]; simpl; [done|].
  destruct (f x) eqn:Hx; simpl.
  - intros (y & Hy & Hfy)%IH. exists y. split; [by right | done].
  - intros _. exists x. split; [by left | done].
Qed.

(** X12: on a nonce queue whose records are compatible with one another
    (no two of one nonce of which exactly one has a gas price), [Less]
    returns on every two indices in range, and is a strict weak order on
    them, which is what [container/heap] asks of it: no index is less than
    itself, two indices are never less than each other, and both "less"
    and "not less" are transitive.  On any other nonce queue of records
    there are two indices in range on which [Less] panics.  The array
    behind the slice does not matter. *)
Theorem minNonceQueue_Less_strict_weak (l : list Transaction)
    (spare : list (option Transaction))
    (left : list (list (option Transaction))) (growslice : nat → nat) :
  let q := minNonceQueue.mk (pointers l) spare left growslice in
  (comparable l = true →
   ∃ less : nat → nat → bool,
     (∀ i j, i < List.length l → j < List.length l →
        minNonceQueue.Less q (Z.of_nat i) (Z.of_nat j) = Done (less i j)) ∧
     strict_weak_below (List.length l) less) ∧
  (comparable l = false →
   ∃ i j, i < List.length l ∧ j < List.length l ∧
     minNonceQueue.Less q (Z.of_nat i) (Z.of_nat j) = Panicked).
Proof.
  cbn zeta. split; intros Hc.
  - exists (by_index (nonce_before true) l). split.
    + intros i j Hi Hj. unfold by_index.
      destruct (lookup_lt_is_Some_2 _ _ Hi) as [a Ha].
      destruct (lookup_lt_is_Some_2 _ _ Hj) as [b Hb].
      rewrite Ha, Hb.
      rewrite (minNonce_Less_records
                 (minNonceQueue.mk (pointers l) spare left growslice)
                 l i j a b eq_refl Ha Hb).
      apply less_records_compatible.
      apply (proj1 (comparable_spec l) Hc);
        by eapply list_elem_of_lookup_2.
    + apply by_index_strict_weak, nonce_before_strict.
  - apply forallb_false in Hc as (a & Ha & Hc).
    apply forallb_false in Hc as (b & Hb & Hc).
    apply list_elem_of_lookup in Ha as [i Hi].
    apply list_elem_of_lookup in Hb as [j Hj].
    exists i, j. split_and!; try by eapply lookup_lt_Some.
    rewrite (minNonce_Less_records
               (minNonceQueue.mk (pointers l) spare left growslice)
               l i j a b eq_refl Hi Hj).
    by apply less_records_incompatible.
Qed.

Lemma minNonceQueue_Less_examples :
  let slice l := minNonceQueue.mk (pointers l) [] [] doubling in
  minNonceQueue.Less (slice [legacy 7 10; legacy 7 20; legacy 3 1]) 1 0
    = Done true ∧
  minNonceQueue.Less (slice [legacy 7 10; legacy 7 20; legacy 3 1]) 0 2
    = Done false ∧
  minNonceQueue.Less (slice [legacy 7 30; dynamic_fee 7 9 200 50]) 1 0
    = Panicked ∧
  minNonceQueue.Less
    (slice [dynamic_fee 7 8 20 5; dynamic_fee 7 9 200 50]) 1 0
    = Done false.
Proof. done. Qed.

(** X13: on a price queue of records that carry the fee fields of their
    type, under every base fee, [Less] returns on every two indices in
    range, and is a strict weak order on them. *)
Theorem maxPriceQueue_Less_strict_weak (f : Z) (l : list Transaction) :
  forallb populated l = true →
  ∃ less : nat → nat → bool,
    (∀ i j, i < List.length l → j < List.length l →
       maxPriceQueue.Less (maxPriceQueue.mk f (pointers l))
         (Z.of_nat i) (Z.of_nat j) = Done (less i j)) ∧
    strict_weak_below (List.length l) less.
Proof.
  intros Hp. exists (by_index (price_before f) l). split.
  - intros i j Hi Hj. unfold by_index.
    destruct (lookup_lt_is_Some_2 _ _ Hi) as [a Ha].
    destruct (lookup_lt_is_Some_2 _ _ Hj) as [b Hb].
    rewrite Ha, Hb. unfold maxPriceQueue.Less. simpl.
    rewrite (read_record l i a Ha), (read_record l j b Hb). simpl.
    rewrite cmp_populated;
      [done | by eapply populated_elem_of, list_elem_of_lookup_2 ..].
  - apply by_index_strict_weak, price_before_strict.
Qed.

Lemma maxPriceQueue_Less_strict_weak_witness :
  forallb populated
    [dynamic_fee 1 1 200 50; dynamic_fee 2 2 150 80; legacy 3 120] = true ∧
  ∃ less : nat → nat → bool,
    (∀ i j,
       i < List.length
             [dynamic_fee 1 1 200 50; dynamic_fee 2 2 150 80; legacy 3 120] →
       j < List.length
             [dynamic_fee 1 1 200 50; dynamic_fee 2 2 150 80; legacy 3 120] →
       maxPriceQueue.Less
         (maxPriceQueue.mk 100
            (pointers [dynamic_fee 1 1 200 50; dynamic_fee 2 2 150 80;
                       legacy 3 120]))
         (Z.of_nat i) (Z.of_nat j) = Done (less i j)) ∧
    strict_weak_below
      (List.length
         [dynamic_fee 1 1 200 50; dynamic_fee 2 2 150 80; legacy 3 120])
      less.
Proof.
  split; [reflexivity|].
  apply (maxPriceQueue_Less_strict_weak 100
           [dynamic_fee 1 1 200 50; dynamic_fee 2 2 150 80; legacy 3 120]).
  reflexivity.
Defined.

(** X14: a [lock] and the [unlock] that follows it leave the account
    queue as it was: the mutex is back in the state before the [lock],
    [wLock] is 0, and neither call touches the queue. *)
Theorem lock_unlock_round_trip (q q' : accountQueue.t) (write : bool) :
  accountQueue.lock q write = Some q' →
  accountQueue.queue q' = accountQueue.queue q ∧
  ∃ q'',
    accountQueue.unlock q' = Done (accountQueue.mode_of write, q'') ∧
    accountQueue.mu q'' = accountQueue.mu q ∧
    accountQueue.queue q'' = accountQueue.queue q ∧
    accountQueue.wLock q'' = 0%N.
Proof.
  unfold accountQueue.lock, accountQueue.lock_acquire.
  destruct q as [[w r] wl h]. destruct write; simpl.
  - unfold sync.Lock. simpl. destruct w; [done|].
    destruct r; [|done]. simpl.
    intros [= <-]. split; [done|]. by eexists.
  - unfold sync.RLock. simpl. destruct w; [done|]. simpl.
    intros [= <-]. split; [done|]. by eexists.
Qed.

Lemma lock_unlock_round_trip_witness :
  let q := accountQueue.mk (sync.mkRWMutex false 2) 0
             (minNonceQueue.mk (pointers [legacy 3 1]) [] [[]] doubling) in
  let q' := accountQueue.mk (sync.mkRWMutex false 3) 0
              (minNonceQueue.mk (pointers [legacy 3 1]) [] [[]] doubling) in
  accountQueue.lock q false = Some q' ∧
  accountQueue.queue q' = accountQueue.queue q ∧
  ∃ q'',
    accountQueue.unlock q' = Done (accountQueue.mode_of false, q'') ∧
    accountQueue.mu q'' = accountQueue.mu q ∧
    accountQueue.queue q'' = accountQueue.queue q ∧
    accountQueue.wLock q'' = 0%N.
Proof.
  cbn zeta. split; [done|].
  apply (lock_unlock_round_trip
           (accountQueue.mk (sync.mkRWMutex false 2) 0
              (minNonceQueue.mk (pointers [legacy 3 1]) [] [[]] doubling))
           (accountQueue.mk (sync.mkRWMutex false 3) 0
              (minNonceQueue.mk (pointers [legacy 3 1]) [] [[]] doubling))
           false).
  done.
Defined.

End less_more.

(* ------------------------------------------------------------------ *)
(** ** Prices, costs and copies *)

Module types_more.
Local Open Scope Z_scope.

Lemma FindTxByHash_from_spec (l : list Transaction) (hash : N) : ∀ idx : Z,
  ∃ r, FindTxByHash_from idx (pointers l) hash = Done r ∧
    ((r = (None, -1) ∧ Forall (λ t, Hash t ≠ hash) l) ∨
     (∃ t (i : nat),
        r = (Some t, idx + Z.of_nat i) ∧ l !! i = Some t ∧ Hash t = hash ∧
        ∀ (j : nat) t', (j < i)%nat → l !! j = Some t' → Hash t' ≠ hash)).
Proof.
  induction l as [|x l IH]; intros idx; simpl.
  { eexists. split; [done|]. left. by split. }
  destruct (N.eqb_spec (Hash x) hash) as [Hx|Hx].
  - eexists. split; [done|]. right. exists x, 0%nat.
    split_and!; try done; [f_equal; lia | lia].
  - destruct (IH (idx + 1)) as (r & -> & Hr). exists r. split; [done|].
    destruct Hr as [[-> Hall]|(t & i & -> & Hi & Ht & Hfirst)].
    + left. split; [done|]. by constructor.
    + right. exists t, (S i). split_and!; try done; [f_equal; lia|].
      intros [|j] t' Hj Hlook; simpl in Hlook.
      * by injection Hlook as <-.
      * apply (Hfirst j t'); [lia | done].
Qed.

(** X15: on a slice of transactions, [FindTxByHash] returns nil and -1
    exactly when no transaction has the hash, and otherwise the first
    transaction that has it, with its index. *)
Theorem FindTxByHash_first (l : list Transaction) (hash : N) :
  ∃ r, FindTxByHash (pointers l) hash = Done r ∧
    ((r = (None, -1) ∧ Forall (λ t, Hash t ≠ hash) l) ∨
     (∃ t (i : nat),
        r = (Some t, Z.of_nat i) ∧ l !! i = Some t ∧ Hash t = hash ∧
        ∀ (j : nat) t', (j < i)%nat → l !! j = Some t' → Hash t' ≠ hash)).
Proof. apply (FindTxByHash_from_spec l hash 0). Qed.

Lemma BitLen_not_pos (x : Z) : (big.BitLen x >? 0) = false ↔ x = 0.
Proof. rewrite BitLen_pos. destruct (Z.eqb_spec x 0); simpl; split; done. Qed.

(** X16: for a dynamic-fee record with its two caps and without a gas
    price (the field nil, or zero), [GetGasPrice] under a base fee other
    than zero is the base fee plus the effective tip of
    [EffectiveGasTip], hence at most the fee cap; under the base fee zero
    it is zero, whatever the caps. *)
Theorem GetGasPrice_dynamic (t : Transaction) (tip fee : Z) (baseFee : N) :
  Type_ t = DynamicFeeTx → types.is_set (GasPrice t) = false →
  GasTipCap t = Some tip → GasFeeCap t = Some fee →
  (baseFee ≠ 0%N →
     ∃ e, EffectiveGasTip t (Some (big.SetUint64 baseFee)) = Done (Some e) ∧
          types.GetGasPrice t baseFee = big.SetUint64 baseFee + e ∧
          types.GetGasPrice t baseFee <= fee) ∧
  types.GetGasPrice t 0 = 0.
Proof.
  intros Hty Hp Htip Hfee. unfold types.GetGasPrice. rewrite Hp, Htip, Hfee.
  simpl. split; [|done]. intros Hb.
  destruct (N.eqb_spec baseFee 0) as [|_]; [done|].
  unfold EffectiveGasTip, GetGasTipCap, GetGasFeeCap, big.SetUint64.
  rewrite Hty, Htip, Hfee, BitLen_zero. simpl.
  destruct (Z.eqb_spec (Z.of_N baseFee) 0) as [H0|_]; [lia|].
  eexists. split; [done|]. rewrite !BigMin_min.
  destruct (big.BitLen fee >? 0) eqn:Hf; simpl; [lia|].
  apply BitLen_not_pos in Hf.
  destruct (big.BitLen tip >? 0) eqn:Ht; simpl; [lia|].
  apply BitLen_not_pos in Ht. lia.
Qed.

Lemma GetGasPrice_dynamic_witness :
  Type_ (dynamic_fee 1 1 200 50) = DynamicFeeTx ∧
  types.is_set (GasPrice (dynamic_fee 1 1 200 50)) = false ∧
  GasTipCap (dynamic_fee 1 1 200 50) = Some 50 ∧
  GasFeeCap (dynamic_fee 1 1 200 50) = Some 200 ∧
  (100%N ≠ 0%N →
     ∃ e, EffectiveGasTip (dynamic_fee 1 1 200 50) (Some (big.SetUint64 100))
            = Done (Some e) ∧
          types.GetGasPrice (dynamic_fee 1 1 200 50) 100
            = big.SetUint64 100 + e ∧
          types.GetGasPrice (dynamic_fee 1 1 200 50) 100 <= 200) ∧
  types.GetGasPrice (dynamic_fee 1 1 200 50) 0 = 0.
Proof.
  split; [done|]. split; [done|]. split; [done|]. split; [done|].
  apply (GetGasPrice_dynamic (dynamic_fee 1 1 200 50) 50 200 100); done.
Defined.

(** X17: when a record has one fee representation (no fee cap beside a
    gas price) and its fee cap is not negative, the [Cost] it is charged
    for covers the gas at the price of [GetGasPrice] under every base fee,
    and the value. *)
Theorem Cost_covers_price (t : Transaction) (baseFee : N) (c value : Z) :
  types.Cost t = Done c →
  Value t = Some value →
  (types.is_set (GasPrice t) = true → types.is_set (GasFeeCap t) = false) →
  (∀ f, GasFeeCap t = Some f → 0 <= f) →
  Z.of_N (Gas t) * types.GetGasPrice t baseFee + value <= c.
Proof.
  intros Hc Hv Hone Hnn. unfold types.Cost in Hc. rewrite Hv in Hc.
  unfold types.GetGasPrice, big.SetUint64 in *.
  assert (0 <= Z.of_N (Gas t)) as Hgas by lia.
  destruct (GasFeeCap t) as [fc|] eqn:Hfc; simpl in *.
  - specialize (Hnn fc eq_refl).
    destruct (big.BitLen fc >? 0) eqn:Hf; simpl in Hc.
    + injection Hc as <-.
      destruct (types.is_set (GasPrice t)) eqn:Hgp;
        [by specialize (Hone eq_refl)|].
      clear Hone. destruct (N.eqb_spec baseFee 0); [nia|]. simpl.
      rewrite BigMin_min. nia.
    + apply BitLen_not_pos in Hf. subst fc.
      destruct (GasPrice t) as [p|] eqn:Hgp; simpl in *; [|done].
      injection Hc as <-.
      destruct (big.BitLen p >? 0) eqn:Hp; [lia|].
      apply BitLen_not_pos in Hp. subst p.
      destruct (N.eqb_spec baseFee 0); [lia|].
      destruct (big.BitLen (types.set_or_zero (GasTipCap t)) >? 0);
        simpl; [rewrite BigMin_min; nia | lia].
  - destruct (GasPrice t) as [p|] eqn:Hgp; simpl in *; [|done].
    injection Hc as <-.
    destruct (big.BitLen p >? 0) eqn:Hp; [lia|].
    apply BitLen_not_pos in Hp. subst p.
    destruct (N.eqb_spec baseFee 0); [lia|].
    destruct (big.BitLen (types.set_or_zero (GasTipCap t)) >? 0);
      simpl; [rewrite BigMin_min; nia | lia].
Qed.

Definition dynamic_example : Transaction :=
  {| Nonce := 1%N; GasPrice := None; GasTipCap := Some 50;
     GasFeeCap := Some 200; Gas := 21000%N; To := Some 9%N; Value := Some 7;
     Hash := 1%N; From_ := 1%N; Type_ := DynamicFeeTx |}.

Lemma Cost_covers_price_witness :
  types.Cost dynamic_example = Done 4200007 ∧
  Value dynamic_example = Some 7 ∧
  (types.is_set (GasPrice dynamic_example) = true →
   types.is_set (GasFeeCap dynamic_example) = false) ∧
  (∀ f, GasFeeCap dynamic_example = Some f → 0 <= f) ∧
  Z.of_N (Gas dynamic_example) * types.GetGasPrice dynamic_example 100
    + 7 <= 4200007.
Proof.
  assert (∀ f, GasFeeCap dynamic_example = Some f → 0 <= f) as Hnn
    by (intros f [= <-]; lia).
  split; [done|]. split; [done|]. split; [done|]. split; [exact Hnn|].
  apply (Cost_covers_price dynamic_example 100 4200007 7);
    [done | done | done | exact Hnn].
Defined.

(** X18: a [Copy] has no nil fee or value pointer, so its [Cost] never
    panics; it has the gas price of the original under every base fee and
    the cost of the original whenever that is defined, and copying a copy
    changes nothing. *)
Theorem Copy_keeps_prices (t : Transaction) (baseFee : N) :
  types.GetGasPrice (types.Copy t) baseFee = types.GetGasPrice t baseFee ∧
  (∃ c, types.Cost (types.Copy t) = Done c) ∧
  (∀ c, types.Cost t = Done c → types.Cost (types.Copy t) = Done c) ∧
  types.Copy (types.Copy t) = types.Copy t.
Proof.
  assert (∀ p, (big.BitLen (types.set_or_zero p) >? 0) = types.is_set p)
    as Hset.
  { intros [p|]; done. }
  split_and!.
  - unfold types.GetGasPrice. simpl. by rewrite Hset.
  - unfold types.Cost. simpl.
    destruct (big.BitLen _ >? 0); simpl; by eexists.
  - intros c. unfold types.Cost. simpl. rewrite Hset.
    destruct (types.is_set (GasFeeCap t)) eqn:Hf.
    + destruct (GasFeeCap t); [|done]. simpl.
      destruct (Value t); [|done]. done.
    + destruct (GasPrice t); [|done]. simpl.
      destruct (Value t); [|done]. done.
  - done.
Qed.

(** X19: a record that [IsUnderpriced] lets pass under a price limit
    other than zero has a gas price field, and under every base fee
    [GetGasPrice] is this field, hence at least the limit. *)
Theorem passed_limit_price (t : Transaction) (priceLimit baseFee : N) :
  types.IsUnderpriced t priceLimit = Done false → priceLimit ≠ 0%N →
  GasPrice t = Some (types.GetGasPrice t baseFee) ∧
  big.SetUint64 priceLimit <= types.GetGasPrice t baseFee.
Proof.
  unfold types.IsUnderpriced, types.GetGasPrice, big.SetUint64.
  intros Hu Hl. destruct (GasPrice t) as [p|]; simpl in *; [|done].
  injection Hu as Hu. pose proof (Cmp_spec p (Z.of_N priceLimit)) as Hc.
  assert (Z.of_N priceLimit <= p) as Hp by lia.
  destruct (big.BitLen p >? 0) eqn:Hb; [done|].
  apply BitLen_not_pos in Hb. lia.
Qed.

Lemma passed_limit_price_witness :
  types.IsUnderpriced (legacy 1 30) 25 = Done false ∧ 25%N ≠ 0%N ∧
  GasPrice (legacy 1 30) = Some (types.GetGasPrice (legacy 1 30) 100) ∧
  big.SetUint64 25 <= types.GetGasPrice (legacy 1 30) 100.
Proof.
  split; [done|]. split; [done|].
  apply (passed_limit_price (legacy 1 30) 25 100); done.
Defined.

End types_more.

(* ------------------------------------------------------------------ *)
(** ** The root of the priced queue *)

Module peek_more.
Import pricedQueue pricedQueue_theory heap_theory.
Local Open Scope nat_scope.

(** X20: on any priced queue of records that carry the fee fields of
    their type, [maxPriceQueue.Peek] shows what the next [pop] returns,
    nil on the empty queue included. *)
Theorem priced_pop_takes_peeked (baseFee : N) (initialTxs : list Transaction)
    (ops : list op) :
  forallb populated (initialTxs ++ pushed ops) = true →
  ∃ q r q',
    run baseFee initialTxs ops = Done q ∧
    maxPriceQueue.Peek (queue q) = Done r ∧ pop q = Done (r, q').
Proof.
  intros Hpop.
  destruct (priced_run_holds baseFee initialTxs ops Hpop)
    as (q & l & Hrun & Hh).
  destruct (decide (l = [])) as [->|Hne].
  - exists q, None, q.
    split_and!; [done | | by apply (priced_pop_empty _ q Hh)].
    destruct Hh as [Hq _]. by rewrite Hq.
  - destruct (priced_pop_holds _ q l Hh Hne)
      as (x & q' & l' & Hpo & _ & _ & Hx & _).
    exists q, (Some x), q'. split_and!; [done | | done].
    destruct Hh as [Hq _]. rewrite Hq.
    destruct l as [|x0 l0]; [done|]. simpl in Hx. by injection Hx as ->.
Qed.

Lemma priced_pop_takes_peeked_witness :
  forallb populated
    ([legacy 1 10; dynamic_fee 4 4 30 2]
       ++ pushed [OpPush (dynamic_fee 2 9 200 50); OpPop;
                  OpPush (legacy 3 7)]) = true ∧
  ∃ q r q',
    run 5 [legacy 1 10; dynamic_fee 4 4 30 2]
      [OpPush (dynamic_fee 2 9 200 50); OpPop; OpPush (legacy 3 7)]
      = Done q ∧
    maxPriceQueue.Peek (queue q) = Done r ∧ pop q = Done (r, q').
Proof.
  split; [reflexivity|].
  apply (priced_pop_takes_peeked 5 [legacy 1 10; dynamic_fee 4 4 30 2]
           [OpPush (dynamic_fee 2 9 200 50); OpPop; OpPush (legacy 3 7)]).
  reflexivity.
Defined.

End peek_more.
